(** * quotes-service: the in-memory quote store

    A shallow embedding of [internal/storage/memorystorage/memorystorage.go]
    and of the [models.Quote] record it stores, with the properties of the
    store stated over it.

    Conventions.
    - Go's [int64] is a [Z] kept in range by [wrap64]; Go defines signed
      overflow as wrap-around, so [s.nextID++] is [wrap64 (nextID + 1)].
    - Go's [map[int64]models.Quote] is a [gmap Z Quote].
    - Every method body runs under [s.mu]; a method is therefore one atomic
      transition of the store, and the lock itself is not represented.
    - A value of type [context.Context] is represented by what the method
      observes of it: whether [ctx.Done()] is closed and, if so, [ctx.Err()].
    - A returned slice is an [option (list Quote)], [None] being Go's [nil]
      slice and [Some []] an empty, non-nil one. *)

From Stdlib Require Import ZArith String List Sorted Lia.
From stdpp Require Import gmap list strings fin_maps sorting.

Local Open Scope Z_scope.

(** ** Machine integers *)

Definition int64_max : Z := 2 ^ 63 - 1.
Definition int64_min : Z := - 2 ^ 63.

Definition wrap64 (z : Z) : Z := (z + 2 ^ 63) mod 2 ^ 64 - 2 ^ 63.

(** ** models.Quote *)

Record Quote : Type := mkQuote {
  ID : Z;
  Text : string;
  Author : string
}.

#[global] Instance Quote_eq_dec : EqDecision Quote.
Proof. solve_decision. Defined.

(** [models.Quote{}] *)
Definition zeroQuote : Quote := mkQuote 0 "" "".

(** ** Errors and contexts *)

(** The two errors a [context.Context] reports once it is done. *)
Inductive CtxErr : Type :=
  | Canceled
  | DeadlineExceeded.

(** Modelled from the spec: [storage.ErrQuoteNotFound] is declared in
    [internal/storage], which is not among the sources; the spec names it
    [NotFound], the only domain-specific failure, distinguishable from
    cancellation. An [error] of the store is that sentinel or the error of
    the caller's context. *)
Inductive error : Type :=
  | ErrQuoteNotFound
  | CtxError (e : CtxErr).

#[global] Instance CtxErr_eq_dec : EqDecision CtxErr.
Proof. solve_decision. Defined.

#[global] Instance error_eq_dec : EqDecision error.
Proof. solve_decision. Defined.

(** What [select { case <-ctx.Done(): ...; default: }] sees. *)
Inductive Context : Type :=
  | Live
  | Done (e : CtxErr).

(** ** Outcome of a call that may panic *)

Inductive outcome (A : Type) : Type :=
  | Ret (a : A)
  | Panic.

Arguments Ret {A} a.
Arguments Panic {A}.

(** ** The store *)

Record Storage : Type := mkStorage {
  quotes : gmap Z Quote;
  quotesList : list Quote;
  nextID : Z
}.

Definition New : Storage :=
  {| quotes := ∅; quotesList := []; nextID := 1 |}.

(** [append(sl, x)] on a possibly nil slice; the result is never nil. *)
Definition go_append {A : Type} (sl : option (list A)) (x : A) : option (list A) :=
  match sl with
  | None => Some [x]
  | Some l => Some (l ++ [x])
  end.

Definition AddQuote (ctx : Context) (text author : string) (s : Storage)
  : (Z * option error) * Storage :=
  match ctx with
  | Done e => ((0, Some (CtxError e)), s)
  | Live =>
      let id := nextID s in
      let quote := {| ID := id; Text := text; Author := author |} in
      ((id, None),
       {| quotes := <[id := quote]> (quotes s);
          quotesList := quotesList s ++ [quote];
          nextID := wrap64 (nextID s + 1) |})
  end.

(** [make] followed by [copy]: element [i] of the result is element [i] of
    the source, for every [i] below the common length. *)
Definition go_copy {A : Type} (dst src : list A) : list A :=
  take (length dst) src ++ drop (length src) dst.

Definition GetAllQuotes (ctx : Context) (s : Storage)
  : option (list Quote) * option error :=
  match ctx with
  | Done e => (None, Some (CtxError e))
  | Live =>
      let listCopy := replicate (length (quotesList s)) zeroQuote in
      (Some (go_copy listCopy (quotesList s)), None)
  end.

(** [rand.Intn] is the argument [Intn]: the store has no say in what it
    returns. Indexing outside the slice panics. *)
Definition GetRandomQuote (ctx : Context) (Intn : Z → Z) (s : Storage)
  : outcome (Quote * option error) :=
  match ctx with
  | Done e => Ret (zeroQuote, Some (CtxError e))
  | Live =>
      if Z.of_nat (length (quotesList s)) =? 0
      then Ret (zeroQuote, Some ErrQuoteNotFound)
      else
        let randomIndex := Intn (Z.of_nat (length (quotesList s))) in
        if (0 <=? randomIndex) && (randomIndex <? Z.of_nat (length (quotesList s)))
        then match quotesList s !! Z.to_nat randomIndex with
             | Some q => Ret (q, None)
             | None => Panic
             end
        else Panic
  end.

Definition GetQuotesByAuthor (ctx : Context) (authorFilter : string) (s : Storage)
  : option (list Quote) * option error :=
  match ctx with
  | Done e => (None, Some (CtxError e))
  | Live =>
      let result :=
        fold_left
          (fun result q =>
             if String.eqb (Author q) authorFilter
             then go_append result q
             else result)
          (quotesList s) None in
      match result with
      | None => (Some [], None)
      | Some _ => (result, None)
      end
  end.

Definition DeleteQuote (ctx : Context) (id : Z) (s : Storage)
  : option error * Storage :=
  match ctx with
  | Done e => (Some (CtxError e), s)
  | Live =>
      match quotes s !! id with
      | None => (Some ErrQuoteNotFound, s)
      | Some _ =>
          let newList :=
            fold_left
              (fun newList q =>
                 if negb (ID q =? id) then newList ++ [q] else newList)
              (quotesList s) [] in
          (None,
           {| quotes := delete id (quotes s);
              quotesList := newList;
              nextID := nextID s |})
      end
  end.

Definition Close (s : Storage) : option error * Storage :=
  (None, {| quotes := ∅; quotesList := []; nextID := 1 |}).

(** ** Calls and traces

    A [Call] is a method of the store with its arguments; [exec] performs it
    under the caller's context. [Close] has no context parameter, so [exec]
    has nothing to hand it. *)

Inductive Call : Type :=
  | CallAdd (text author : string)
  | CallGetAll
  | CallRandom (Intn : Z → Z)
  | CallByAuthor (authorFilter : string)
  | CallDelete (id : Z)
  | CallClose.

Inductive Resp : Type :=
  | RespAdd (r : Z * option error)
  | RespGetAll (r : option (list Quote) * option error)
  | RespRandom (r : outcome (Quote * option error))
  | RespByAuthor (r : option (list Quote) * option error)
  | RespDelete (r : option error)
  | RespClose (r : option error).

Definition exec (ctx : Context) (c : Call) (s : Storage) : Resp * Storage :=
  match c with
  | CallAdd text author =>
      let '(r, s') := AddQuote ctx text author s in (RespAdd r, s')
  | CallGetAll => (RespGetAll (GetAllQuotes ctx s), s)
  | CallRandom Intn => (RespRandom (GetRandomQuote ctx Intn s), s)
  | CallByAuthor a => (RespByAuthor (GetQuotesByAuthor ctx a s), s)
  | CallDelete id =>
      let '(r, s') := DeleteQuote ctx id s in (RespDelete r, s')
  | CallClose =>
      let '(r, s') := Close s in (RespClose r, s')
  end.

(** A trace is run from left to right; the responses come in call order. *)
Fixpoint run (tr : list (Context * Call)) (s : Storage) : list Resp * Storage :=
  match tr with
  | [] => ([], s)
  | (ctx, c) :: tr' =>
      let '(r, s1) := exec ctx c s in
      let '(rs, s2) := run tr' s1 in
      (r :: rs, s2)
  end.

Definition final (tr : list (Context * Call)) (s : Storage) : Storage :=
  (run tr s).2.

Definition responses (tr : list (Context * Call)) (s : Storage) : list Resp :=
  (run tr s).1.

(** The ids handed out by the successful [AddQuote] calls of a trace. *)
Definition added_id (r : Resp) : option Z :=
  match r with
  | RespAdd (id, None) => Some id
  | _ => None
  end.

Definition added_ids (rs : list Resp) : list Z := omap added_id rs.

Definition isClose (c : Call) : bool :=
  match c with
  | CallClose => true
  | _ => false
  end.

Definition closeFree (tr : list (Context * Call)) : bool :=
  forallb (fun x => negb (isClose x.2)) tr.

(** ** Invariants *)

(** The map and the list hold the same quotes. *)
Definition consistent (s : Storage) : Prop :=
  ∀ (k : Z) (q : Quote),
    quotes s !! k = Some q ↔ q ∈ quotesList s ∧ ID q = k.

Definition store_invariant (s : Storage) : Prop :=
  consistent s ∧ NoDup (ID <$> quotesList s).

(** Every stored id is below the counter. *)
Definition ids_below (s : Storage) : Prop :=
  Forall (fun q => ID q < nextID s) (quotesList s).

(** The invariant that is inductive: [n] bounds the number of calls made
    since the store was created or closed. *)
Definition store_wf (n : nat) (s : Storage) : Prop :=
  store_invariant s ∧ ids_below s ∧ 1 ≤ nextID s ≤ 1 + Z.of_nat n.

(** The calls that hand out an id: [AddQuote] under a live context. *)
Definition isLiveAdd (x : Context * Call) : bool :=
  match x with
  | (Live, CallAdd _ _) => true
  | _ => false
  end.

(** The calls that leave the quote with id [k] in place: everything but
    [Close] and a [DeleteQuote] of [k] under a live context. *)
Definition keeps (k : Z) (x : Context * Call) : bool :=
  match x with
  | (_, CallClose) => false
  | (Live, CallDelete id) => negb (id =? k)
  | _ => true
  end.

(** The error a response carries. *)
Definition resp_error (r : Resp) : option error :=
  match r with
  | RespAdd (_, e) => e
  | RespGetAll (_, e) => e
  | RespRandom (Ret (_, e)) => e
  | RespRandom Panic => None
  | RespByAuthor (_, e) => e
  | RespDelete e => e
  | RespClose e => e
  end.

(** ** Sample traces *)

Definition trace_bruce : list (Context * Call) :=
  [ (Live, CallAdd "Be water, my friend." "Bruce Lee");
    (Live, CallAdd "Stay hungry." "Steve Jobs");
    (Done Canceled, CallAdd "lost" "nobody");
    (Live, CallDelete 1);
    (Live, CallAdd "The unexamined life is not worth living." "Socrates") ].

Definition trace_reuse : list (Context * Call) :=
  [ (Live, CallAdd "first" "a");
    (Live, CallClose);
    (Live, CallAdd "second" "b") ].

(** * The store over a heap of backing arrays

    A Go slice is a pointer into a backing array together with a length
    and a capacity, and two slices may share one array. Here the arrays
    live in a heap, and the methods are written again over it:
    [append] writes in place while there is capacity and moves to a new
    array otherwise, [make] allocates, [copy] writes through. [range]
    reads element [i] of the array at iteration [i]. *)

Module Mem.

Definition loc : Type := positive.

Record slice : Type := mkSlice {
  base : option loc;
  len : nat;
  cap : nat
}.

(** The [nil] slice. *)
Definition nilSlice : slice := mkSlice None 0 0.

Definition isNil (sl : slice) : bool :=
  match base sl with
  | None => true
  | Some _ => false
  end.

Record Storage : Type := mkStorage {
  quotes : gmap Z Quote;
  quotesList : slice;
  nextID : Z
}.

Record World : Type := mkWorld {
  heap : gmap loc (list Quote);
  store : Storage
}.

(** The cells of the backing array, and those within the length. *)
Definition array (h : gmap loc (list Quote)) (sl : slice) : list Quote :=
  match base sl with
  | Some l => default [] (h !! l)
  | None => []
  end.

Definition elems (h : gmap loc (list Quote)) (sl : slice) : list Quote :=
  take (len sl) (array h sl).

(** [make([]models.Quote, n, c)] *)
Definition make (n c : nat) (h : gmap loc (list Quote))
  : slice * gmap loc (list Quote) :=
  let l := fresh (dom h) in
  (mkSlice (Some l) n c, <[l := replicate c zeroQuote]> h).

(** [copy(dst, src)] *)
Definition copy (dst src : slice) (h : gmap loc (list Quote))
  : gmap loc (list Quote) :=
  match base dst with
  | Some l =>
      let n := Nat.min (len dst) (len src) in
      let data := take n (array h src) in
      alter (fun arr => data ++ drop n arr) l h
  | None => h
  end.

Section Growth.

(** The capacity the runtime picks when [append] outgrows an array of a
    given capacity; it is never less than the length needed. *)
Variable growcap : nat → nat.

Definition append (sl : slice) (q : Quote) (h : gmap loc (list Quote))
  : slice * gmap loc (list Quote) :=
  if (len sl <? cap sl)%nat
  then (mkSlice (base sl) (S (len sl)) (cap sl),
        match base sl with
        | Some l => alter (fun arr => <[len sl := q]> arr) l h
        | None => h
        end)
  else
    let c := Nat.max (S (len sl)) (growcap (cap sl)) in
    let l' := fresh (dom h) in
    (mkSlice (Some l') (S (len sl)) c,
     <[l' := elems h sl ++ q :: replicate (c - S (len sl)) zeroQuote]> h).

(** [for _, q := range src { if keep(q) { acc = append(acc, q) } }],
    over the indices still to visit. *)
Fixpoint range_append (keep : Quote → bool) (src : slice) (idx : list nat)
    (acc : slice) (h : gmap loc (list Quote)) : slice * gmap loc (list Quote) :=
  match idx with
  | [] => (acc, h)
  | i :: idx' =>
      match array h src !! i with
      | Some q =>
          if keep q
          then let '(acc', h') := append acc q h in
               range_append keep src idx' acc' h'
          else range_append keep src idx' acc h
      | None => (acc, h)
      end
  end.

(** [New] allocates its list with [make([]models.Quote, 0)]. *)
Definition New (h : gmap loc (list Quote)) : World :=
  let '(sl, h') := make 0 0 h in
  {| heap := h'; store := {| quotes := ∅; quotesList := sl; nextID := 1 |} |}.

Definition AddQuote (ctx : Context) (text author : string) (w : World)
  : (Z * option error) * World :=
  match ctx with
  | Done e => ((0, Some (CtxError e)), w)
  | Live =>
      let s := store w in
      let id := nextID s in
      let quote := {| ID := id; Text := text; Author := author |} in
      let '(sl, h') := append (quotesList s) quote (heap w) in
      ((id, None),
       {| heap := h';
          store := {| quotes := <[id := quote]> (quotes s);
                      quotesList := sl;
                      nextID := wrap64 (nextID s + 1) |} |})
  end.

Definition GetAllQuotes (ctx : Context) (w : World)
  : (slice * option error) * World :=
  match ctx with
  | Done e => ((nilSlice, Some (CtxError e)), w)
  | Live =>
      let s := store w in
      let '(listCopy, h1) :=
        make (len (quotesList s)) (len (quotesList s)) (heap w) in
      let h2 := copy listCopy (quotesList s) h1 in
      ((listCopy, None), {| heap := h2; store := s |})
  end.

Definition GetRandomQuote (ctx : Context) (Intn : Z → Z) (w : World)
  : outcome (Quote * option error) :=
  match ctx with
  | Done e => Ret (zeroQuote, Some (CtxError e))
  | Live =>
      let s := store w in
      if Z.of_nat (len (quotesList s)) =? 0
      then Ret (zeroQuote, Some ErrQuoteNotFound)
      else
        let randomIndex := Intn (Z.of_nat (len (quotesList s))) in
        if (0 <=? randomIndex) && (randomIndex <? Z.of_nat (len (quotesList s)))
        then match array (heap w) (quotesList s) !! Z.to_nat randomIndex with
             | Some q => Ret (q, None)
             | None => Panic
             end
        else Panic
  end.

Definition GetQuotesByAuthor (ctx : Context) (authorFilter : string) (w : World)
  : (slice * option error) * World :=
  match ctx with
  | Done e => ((nilSlice, Some (CtxError e)), w)
  | Live =>
      let s := store w in
      let '(result, h') :=
        range_append (fun q => String.eqb (Author q) authorFilter)
          (quotesList s) (seq 0 (len (quotesList s))) nilSlice (heap w) in
      if isNil result
      then let '(empty, h2) := make 0 0 h' in
           ((empty, None), {| heap := h2; store := s |})
      else ((result, None), {| heap := h'; store := s |})
  end.

Definition DeleteQuote (ctx : Context) (id : Z) (w : World)
  : option error * World :=
  match ctx with
  | Done e => (Some (CtxError e), w)
  | Live =>
      let s := store w in
      match quotes s !! id with
      | None => (Some ErrQuoteNotFound, w)
      | Some _ =>
          let '(newList, h1) :=
            if (0 <? len (quotesList s))%nat
            then make 0 (len (quotesList s) - 1) (heap w)
            else make 0 0 (heap w) in
          let '(newList', h2) :=
            range_append (fun q => negb (ID q =? id))
              (quotesList s) (seq 0 (len (quotesList s))) newList h1 in
          (None,
           {| heap := h2;
              store := {| quotes := delete id (quotes s);
                          quotesList := newList';
                          nextID := nextID s |} |})
      end
  end.

(** [[]models.Quote{}] is an empty slice that is not nil. *)
Definition Close (w : World) : option error * World :=
  let '(sl, h') := make 0 0 (heap w) in
  (None,
   {| heap := h';
      store := {| quotes := ∅; quotesList := sl; nextID := 1 |} |}).

Inductive Resp : Type :=
  | RespAdd (r : Z * option error)
  | RespGetAll (r : slice * option error)
  | RespRandom (r : outcome (Quote * option error))
  | RespByAuthor (r : slice * option error)
  | RespDelete (r : option error)
  | RespClose (r : option error).

Definition exec (ctx : Context) (c : Call) (w : World) : Resp * World :=
  match c with
  | CallAdd text author =>
      let '(r, w') := AddQuote ctx text author w in (RespAdd r, w')
  | CallGetAll =>
      let '(r, w') := GetAllQuotes ctx w in (RespGetAll r, w')
  | CallRandom Intn => (RespRandom (GetRandomQuote ctx Intn w), w)
  | CallByAuthor a =>
      let '(r, w') := GetQuotesByAuthor ctx a w in (RespByAuthor r, w')
  | CallDelete id =>
      let '(r, w') := DeleteQuote ctx id w in (RespDelete r, w')
  | CallClose =>
      let '(r, w') := Close w in (RespClose r, w')
  end.

Fixpoint run (tr : list (Context * Call)) (w : World) : list Resp * World :=
  match tr with
  | [] => ([], w)
  | (ctx, c) :: tr' =>
      let '(r, w1) := exec ctx c w in
      let '(rs, w2) := run tr' w1 in
      (r :: rs, w2)
  end.

Definition final (tr : list (Context * Call)) (w : World) : World :=
  (run tr w).2.

End Growth.

End Mem.

(** ** Reading the heap model

    The predicates and the abstraction that relate a world to the store
    on lists it stands for. *)

Abbreviation heap_t := (gmap Mem.loc (list Quote)).

(** A slice is allocated when its array, if it has one, is in the heap. *)
Definition allocated (h : heap_t) (sl : Mem.slice) : Prop :=
  ∀ l, Mem.base sl = Some l → l ∈ dom h.

(** [h'] extends [h] and agrees with it except possibly at [except]. *)
Definition frame (except : option Mem.loc) (h h' : heap_t) : Prop :=
  dom h ⊆ dom h'
  ∧ ∀ l, l ∈ dom h → Some l ≠ except → h' !! l = h !! l.

(** The array at [l] is in the heap and is not the one the store uses. *)
Definition apart (l : Mem.loc) (w : Mem.World) : Prop :=
  l ∈ dom (Mem.heap w) ∧ Some l ≠ Mem.base (Mem.quotesList (Mem.store w)).

(** A slice is well formed when its array has as many cells as its
    capacity and its length is within it; [nil] has neither. *)
Definition wf_slice (h : heap_t) (sl : Mem.slice) : Prop :=
  match Mem.base sl with
  | Some l =>
      ∃ arr, h !! l = Some arr ∧ length arr = Mem.cap sl
             ∧ (Mem.len sl ≤ Mem.cap sl)%nat
  | None => Mem.len sl = 0%nat ∧ Mem.cap sl = 0%nat
  end.

(** What a slice stands for: [nil], or the list of its elements. *)
Definition view (h : heap_t) (sl : Mem.slice) : option (list Quote) :=
  match Mem.base sl with
  | Some _ => Some (Mem.elems h sl)
  | None => None
  end.

(** The store a world stands for, and the response a response stands
    for in the heap it was returned with. *)
Definition abs (w : Mem.World) : Storage :=
  {| quotes := Mem.quotes (Mem.store w);
     quotesList := Mem.elems (Mem.heap w) (Mem.quotesList (Mem.store w));
     nextID := Mem.nextID (Mem.store w) |}.

Definition abs_resp (h : heap_t) (r : Mem.Resp) : Resp :=
  match r with
  | Mem.RespAdd r => RespAdd r
  | Mem.RespGetAll (sl, e) => RespGetAll (view h sl, e)
  | Mem.RespRandom r => RespRandom r
  | Mem.RespByAuthor (sl, e) => RespByAuthor (view h sl, e)
  | Mem.RespDelete r => RespDelete r
  | Mem.RespClose r => RespClose r
  end.

(** The store's own slice is well formed. *)
Definition world_wf (w : Mem.World) : Prop :=
  wf_slice (Mem.heap w) (Mem.quotesList (Mem.store w)).

(** ** Further predicates on the store *)

(** The ids of the list are in strictly increasing order and at least 1. *)
Definition ids_ordered (s : Storage) : Prop :=
  StronglySorted Z.lt (ID <$> quotesList s)
  ∧ Forall (fun q => 1 ≤ ID q) (quotesList s).

(** What a caller observes of a trace run on the heap: each response,
    its slices read in the heap they are returned in. *)
Fixpoint mem_observe (growcap : nat → nat) (tr : list (Context * Call))
    (w : Mem.World) : list Resp :=
  match tr with
  | [] => []
  | (ctx, c) :: tr' =>
      let '(r, w1) := Mem.exec growcap ctx c w in
      abs_resp (Mem.heap w1) r :: mem_observe growcap tr' w1
  end.

(** * The logging middleware's response writer

    [responseWriterInterceptor] of [middleware/logger] wraps the
    [http.ResponseWriter] of the server. That inner writer is an interface
    value: here each method returns the calls it makes to the inner
    writer, in order, and [Write] takes as an argument what the inner
    [Write] answers. The calls to the inner writer are taken to return.
    [int] is 64 bits wide on the platforms the service is built for. *)

Module Logger.

Definition StatusOK : Z := 200.

Section Interceptor.

(** The errors of the inner writer. *)
Variable E : Type.

Inductive InnerCall : Type :=
  | InnerWriteHeader (code : Z)
  | InnerWrite (b : list Byte.byte)
  | InnerFlush.

Record responseWriterInterceptor : Type := mkInterceptor {
  statusCode : Z;
  bytesWritten : Z;
  headerWritten : bool
}.

Definition newResponseWriterInterceptor : responseWriterInterceptor :=
  {| statusCode := StatusOK; bytesWritten := 0; headerWritten := false |}.

Definition WriteHeader (code : Z) (wri : responseWriterInterceptor)
  : list InnerCall * responseWriterInterceptor :=
  if headerWritten wri
  then ([], wri)
  else ([InnerWriteHeader code],
        {| statusCode := code;
           bytesWritten := bytesWritten wri;
           headerWritten := true |}).

Definition Write (b : list Byte.byte) (inner : Z * option E)
    (wri : responseWriterInterceptor)
  : (Z * option E) * list InnerCall * responseWriterInterceptor :=
  let '(calls, wri1) :=
    if negb (headerWritten wri)
    then WriteHeader StatusOK wri
    else ([], wri) in
  let '(n, err) := inner in
  ((n, err),
   calls ++ [InnerWrite b],
   {| statusCode := statusCode wri1;
      bytesWritten := wrap64 (bytesWritten wri1 + n);
      headerWritten := headerWritten wri1 |}).

Definition Status (wri : responseWriterInterceptor) : Z := statusCode wri.

Definition BytesWritten (wri : responseWriterInterceptor) : Z :=
  bytesWritten wri.

(** [isFlusher]: whether the inner writer is an [http.Flusher]. *)
Definition Flush (isFlusher : bool) (wri : responseWriterInterceptor)
  : list InnerCall :=
  if isFlusher then [InnerFlush] else [].

(** What a handler does with the writer it is given: a sequence of calls,
    each [Write] with the answer of the inner writer. *)
Inductive Action : Type :=
  | DoWriteHeader (code : Z)
  | DoWrite (b : list Byte.byte) (n : Z) (err : option E)
  | DoFlush.

Definition act (isFlusher : bool) (a : Action) (wri : responseWriterInterceptor)
  : list InnerCall * responseWriterInterceptor :=
  match a with
  | DoWriteHeader code => WriteHeader code wri
  | DoWrite b n err => let '(_, calls, wri') := Write b (n, err) wri in (calls, wri')
  | DoFlush => (Flush isFlusher wri, wri)
  end.

Fixpoint serve (isFlusher : bool) (actions : list Action)
    (wri : responseWriterInterceptor)
  : list InnerCall * responseWriterInterceptor :=
  match actions with
  | [] => ([], wri)
  | a :: rest =>
      let '(c1, wri1) := act isFlusher a wri in
      let '(c2, wri2) := serve isFlusher rest wri1 in
      (c1 ++ c2, wri2)
  end.

(** The inner calls that send something to the client. *)
Definition isFlushCall (c : InnerCall) : bool :=
  match c with
  | InnerFlush => true
  | _ => false
  end.

Definition sends (calls : list InnerCall) : list InnerCall :=
  List.filter (fun c => negb (isFlushCall c)) calls.

(** The payloads and the byte counts of the [Write] actions, in order. *)
Definition written (a : Action) : option (list Byte.byte) :=
  match a with
  | DoWrite b _ _ => Some b
  | _ => None
  end.

Definition counted (a : Action) : Z :=
  match a with
  | DoWrite _ n _ => n
  | _ => 0
  end.

(** The status the first action that sends something settles. *)
Fixpoint settled (actions : list Action) : option Z :=
  match actions with
  | [] => None
  | DoWriteHeader code :: _ => Some code
  | DoWrite _ _ _ :: _ => Some StatusOK
  | DoFlush :: rest => settled rest
  end.

End Interceptor.

End Logger.

(** * The HTTP handlers

    The five handlers of [handlers/quotehandler], each as a function from
    what it reads of the request (the request's context, the outcome of
    decoding the body, the query parameter, the path variables) and the
    state of the store to the response it sends and the state it leaves.
    A response is the status code, the content type and the value given
    to the JSON encoder. The calls to the logger are left out: they do
    not bear on the response or on the store. [strings.TrimSpace],
    [strconv.ParseInt] and [errors.Is] are parameters. *)

Module Handler.

Definition StatusOK : Z := 200.
Definition StatusCreated : Z := 201.
Definition StatusBadRequest : Z := 400.
Definition StatusNotFound : Z := 404.
Definition StatusInternalServerError : Z := 500.

(** ** The request and response bodies of [models] *)

Record AddQuoteRequest : Type := mkAddQuoteRequest {
  AddQuoteRequest_Text : string;
  AddQuoteRequest_Author : string
}.

Record AddQuoteResponse : Type := mkAddQuoteResponse {
  AddQuoteResponse_Status : string;
  AddQuoteResponse_ID : Z;
  AddQuoteResponse_Text : string;
  AddQuoteResponse_Author : string
}.

(** [Fields] is left out of the JSON when it is [nil] or empty. *)
Record ErrorResponse : Type := mkErrorResponse {
  ErrorResponse_Status : string;
  ErrorResponse_Error : string;
  ErrorResponse_Fields : option (list string)
}.

(** What the handlers put in [Data]: a slice of quotes or one quote. *)
Inductive Data : Type :=
  | DataQuotes (quotes : option (list Quote))
  | DataQuote (quote : Quote).

Record SuccessDataResponse : Type := mkSuccessDataResponse {
  SuccessDataResponse_Status : string;
  SuccessDataResponse_Data : Data
}.

Record GenericMessageResponse : Type := mkGenericMessageResponse {
  GenericMessageResponse_Status : string;
  GenericMessageResponse_Message : string
}.

Inductive Payload : Type :=
  | ErrorPayload (r : ErrorResponse)
  | AddQuotePayload (r : AddQuoteResponse)
  | DataPayload (r : SuccessDataResponse)
  | MessagePayload (r : GenericMessageResponse).

Record Response : Type := mkResponse {
  statusCode : Z;
  contentType : string;
  payload : Payload
}.

(** [len] of a slice that may be nil. *)
Definition go_len {A : Type} (sl : option (list A)) : nat :=
  match sl with
  | None => 0
  | Some l => length l
  end.

Definition sendJSONResponse (statusCode : Z) (payload : Payload) : Response :=
  {| statusCode := statusCode;
     contentType := "application/json";
     payload := payload |}.

Definition sendErrorResponse (statusCode : Z) (message : string)
    (fields : option (list string)) : Response :=
  let response :=
    {| ErrorResponse_Status := "error";
       ErrorResponse_Error := message;
       ErrorResponse_Fields := None |} in
  let response :=
    if (0 <? go_len fields)%nat
    then {| ErrorResponse_Status := ErrorResponse_Status response;
            ErrorResponse_Error := ErrorResponse_Error response;
            ErrorResponse_Fields := fields |}
    else response in
  sendJSONResponse statusCode (ErrorPayload response).

(** ** The store the handlers are given

    [QuoteStore] is an interface: a store has a state of some type, and
    each method returns its results, or panics, and leaves a state. *)

Class QuoteStore (St Err : Type) : Type := {
  qsAddQuote : Context → string → string → St → outcome (Z * option Err) * St;
  qsGetAllQuotes : Context → St → outcome (option (list Quote) * option Err) * St;
  qsGetRandomQuote : Context → St → outcome (Quote * option Err) * St;
  qsGetQuotesByAuthor :
    Context → string → St → outcome (option (list Quote) * option Err) * St;
  qsDeleteQuote : Context → Z → St → outcome (option Err) * St
}.

(** What [json.NewDecoder(r.Body).Decode(&req)] gives: the request, or an
    error that is [io.EOF] or is not. *)
Inductive DecodeResult : Type :=
  | Decoded (req : AddQuoteRequest)
  | DecodeError (isEOF : bool).

Section Handlers.

Context {St Err : Type} `{QuoteStore St Err}.

(** [ErrorsIs(err, storage.ErrQuoteNotFound)] *)
Variable isNotFound : Err → bool.

(** [strings.TrimSpace] *)
Variable TrimSpace : string → string.

(** [strconv.ParseInt(s, 10, 64)]: the value, or [None] for an error. *)
Variable ParseInt : string → option Z.

Definition NewAddQuoteHandler (ctx : Context) (body : DecodeResult) (st : St)
  : outcome Response * St :=
  match body with
  | DecodeError isEOF =>
      if isEOF
      then (Ret (sendErrorResponse StatusBadRequest "Request body is empty." None), st)
      else (Ret (sendErrorResponse StatusBadRequest
                   "Failed to decode request body." None), st)
  | Decoded req =>
      let validationErrors : option (list string) := None in
      let validationErrors :=
        if String.eqb (TrimSpace (AddQuoteRequest_Text req)) ""
        then go_append validationErrors "text cannot be empty"
        else validationErrors in
      let validationErrors :=
        if String.eqb (TrimSpace (AddQuoteRequest_Author req)) ""
        then go_append validationErrors "author cannot be empty"
        else validationErrors in
      if (0 <? go_len validationErrors)%nat
      then (Ret (sendErrorResponse StatusBadRequest "Invalid request."
                   validationErrors), st)
      else
        match qsAddQuote ctx (AddQuoteRequest_Text req)
                (AddQuoteRequest_Author req) st with
        | (Panic, st') => (Panic, st')
        | (Ret (id, Some _), st') =>
            (Ret (sendErrorResponse StatusInternalServerError
                    "Failed to add quote." None), st')
        | (Ret (id, None), st') =>
            (Ret (sendJSONResponse StatusCreated
                    (AddQuotePayload
                       {| AddQuoteResponse_Status := "success";
                          AddQuoteResponse_ID := id;
                          AddQuoteResponse_Text := AddQuoteRequest_Text req;
                          AddQuoteResponse_Author := AddQuoteRequest_Author req |})),
             st')
        end
  end.

Definition NewGetAllQuotesHandler (ctx : Context) (st : St)
  : outcome Response * St :=
  match qsGetAllQuotes ctx st with
  | (Panic, st') => (Panic, st')
  | (Ret (quotes, Some _), st') =>
      (Ret (sendErrorResponse StatusInternalServerError
              "Failed to retrieve quotes." None), st')
  | (Ret (quotes, None), st') =>
      (Ret (sendJSONResponse StatusOK
              (DataPayload
                 {| SuccessDataResponse_Status := "success";
                    SuccessDataResponse_Data := DataQuotes quotes |})), st')
  end.

Definition NewGetRandomQuoteHandler (ctx : Context) (st : St)
  : outcome Response * St :=
  match qsGetRandomQuote ctx st with
  | (Panic, st') => (Panic, st')
  | (Ret (quote, Some err), st') =>
      if isNotFound err
      then (Ret (sendErrorResponse StatusNotFound "No quotes found." None), st')
      else (Ret (sendErrorResponse StatusInternalServerError
                   "Failed to retrieve random quote." None), st')
  | (Ret (quote, None), st') =>
      (Ret (sendJSONResponse StatusOK
              (DataPayload
                 {| SuccessDataResponse_Status := "success";
                    SuccessDataResponse_Data := DataQuote quote |})), st')
  end.

(** [author] is [r.URL.Query().Get("author")]. *)
Definition NewGetQuotesByAuthorHandler (ctx : Context) (author : string) (st : St)
  : outcome Response * St :=
  if String.eqb (TrimSpace author) ""
  then (Ret (sendErrorResponse StatusBadRequest
               "Author query parameter is required." None), st)
  else
    match qsGetQuotesByAuthor ctx author st with
    | (Panic, st') => (Panic, st')
    | (Ret (quotes, Some _), st') =>
        (Ret (sendErrorResponse StatusInternalServerError
                "Failed to retrieve quotes by author." None), st')
    | (Ret (quotes, None), st') =>
        (Ret (sendJSONResponse StatusOK
                (DataPayload
                   {| SuccessDataResponse_Status := "success";
                      SuccessDataResponse_Data := DataQuotes quotes |})), st')
    end.

(** [vars] is [mux.Vars(r)]. *)
Definition NewDeleteQuoteHandler (ctx : Context) (vars : gmap string string)
    (st : St) : outcome Response * St :=
  match vars !! "id" with
  | None =>
      (Ret (sendErrorResponse StatusBadRequest
              "Quote ID is missing in path." None), st)
  | Some idStr =>
      match ParseInt idStr with
      | None =>
          (Ret (sendErrorResponse StatusBadRequest
                  "Invalid quote ID format." None), st)
      | Some id =>
          match qsDeleteQuote ctx id st with
          | (Panic, st') => (Panic, st')
          | (Ret (Some err), st') =>
              if isNotFound err
              then (Ret (sendErrorResponse StatusNotFound
                           "Quote not found." None), st')
              else (Ret (sendErrorResponse StatusInternalServerError
                           "Failed to delete quote." None), st')
          | (Ret None, st') =>
              (Ret (sendJSONResponse StatusOK
                      (MessagePayload
                         {| GenericMessageResponse_Status := "success";
                            GenericMessageResponse_Message :=
                              "Quote deleted successfully." |})), st')
          end
      end
  end.

(** A request as one of the five handlers gets it. *)
Inductive Request : Type :=
  | ReqAddQuote (body : DecodeResult)
  | ReqGetAllQuotes
  | ReqGetRandomQuote
  | ReqGetQuotesByAuthor (author : string)
  | ReqDeleteQuote (vars : gmap string string).

Definition handle (ctx : Context) (req : Request) (st : St)
  : outcome Response * St :=
  match req with
  | ReqAddQuote body => NewAddQuoteHandler ctx body st
  | ReqGetAllQuotes => NewGetAllQuotesHandler ctx st
  | ReqGetRandomQuote => NewGetRandomQuoteHandler ctx st
  | ReqGetQuotesByAuthor author => NewGetQuotesByAuthorHandler ctx author st
  | ReqDeleteQuote vars => NewDeleteQuoteHandler ctx vars st
  end.

End Handlers.

(** The [status] member of a payload. *)
Definition payloadStatus (p : Payload) : string :=
  match p with
  | ErrorPayload r => ErrorResponse_Status r
  | AddQuotePayload r => AddQuoteResponse_Status r
  | DataPayload r => SuccessDataResponse_Status r
  | MessagePayload r => GenericMessageResponse_Status r
  end.

(** Whether a request gets as far as the store, and whether by a method
    that can change it. *)
Definition reachesStore (TrimSpace : string → string)
    (ParseInt : string → option Z) (req : Request) : bool :=
  match req with
  | ReqAddQuote (Decoded r) =>
      negb (String.eqb (TrimSpace (AddQuoteRequest_Text r)) "")
      && negb (String.eqb (TrimSpace (AddQuoteRequest_Author r)) "")
  | ReqAddQuote (DecodeError _) => false
  | ReqGetAllQuotes => true
  | ReqGetRandomQuote => true
  | ReqGetQuotesByAuthor author => negb (String.eqb (TrimSpace author) "")
  | ReqDeleteQuote vars =>
      match vars !! "id" with
      | Some idStr => bool_decide (is_Some (ParseInt idStr))
      | None => false
      end
  end.

(** ** The in-memory store as a [QuoteStore]

    [main] hands the handlers a [*memorystorage.Storage]. Its
    [GetRandomQuote] draws from [math/rand]: the state carries what
    [rand.Intn] will answer, draw after draw, and one answer is set aside
    for each call of [GetRandomQuote], used or not. *)

Definition memStore : Type := Storage * (nat → Z → Z).

#[global] Instance memorystorage_QuoteStore : QuoteStore memStore error := {
  qsAddQuote ctx text author st :=
    let '(r, s') := AddQuote ctx text author st.1 in (Ret r, (s', st.2));
  qsGetAllQuotes ctx st := (Ret (GetAllQuotes ctx st.1), st);
  qsGetRandomQuote ctx st :=
    (GetRandomQuote ctx (st.2 0%nat) st.1, (st.1, fun i => st.2 (S i)));
  qsGetQuotesByAuthor ctx authorFilter st :=
    (Ret (GetQuotesByAuthor ctx authorFilter st.1), st);
  qsDeleteQuote ctx id st :=
    let '(r, s') := DeleteQuote ctx id st.1 in (Ret r, (s', st.2))
}.

(** [errors.Is(err, storage.ErrQuoteNotFound)] on the errors of the store. *)
Definition errorsIsNotFound (err : error) : bool :=
  match err with
  | ErrQuoteNotFound => true
  | CtxError _ => false
  end.

End Handler.

(** ** Sample requests *)

(** Stand-ins for the library functions in the examples: a [TrimSpace]
    that knows the one-blank string, a [ParseInt] that knows ["1"]. *)
Definition sample_TrimSpace (s : string) : string :=
  if String.eqb s " " then "" else s.

Definition sample_ParseInt (s : string) : option Z :=
  if String.eqb s "1" then Some 1 else None.

Definition sample_rnd : nat → Z → Z := fun _ _ => 0.

Definition sample_vars : gmap string string := {[ "id" := "1" ]}.

Definition sample_serve
  : Context → Handler.Request → Handler.memStore
    → outcome Handler.Response * Handler.memStore :=
  Handler.handle (H := Handler.memorystorage_QuoteStore)
    Handler.errorsIsNotFound sample_TrimSpace sample_ParseInt.

(** * Loading the configuration

    [MustLoad] of the [config] package. What it reads of its surroundings
    are parameters: the environment ([os.Getenv]), the file system
    ([os.Stat] with [os.IsNotExist], [os.ReadFile]), [json.Unmarshal] into
    a [jsonConfig] and [time.ParseDuration]. A [time.Duration] is a number
    of nanoseconds. [log.Fatal] ends the process: [MustLoad] returns the
    configuration or the place where it gave up. *)

Module Config.

Record HTTPServer : Type := mkHTTPServer {
  HTTPServer_Address : string;
  HTTPServer_Timeout : Z;
  HTTPServer_User : string;
  HTTPServer_Password : string
}.

Record Config : Type := mkConfig {
  Config_Env : string;
  Config_Version : string;
  Config_HTTPServer : HTTPServer
}.

Record jsonHTTPServer : Type := mkJsonHTTPServer {
  jsonHTTPServer_Address : string;
  jsonHTTPServer_Timeout : string
}.

Record jsonConfig : Type := mkJsonConfig {
  jsonConfig_Env : string;
  jsonConfig_Version : string;
  jsonConfig_HTTPServer : jsonHTTPServer
}.

Definition Second : Z := 1000000000.

Definition defaultAddress : string := "localhost:8080".
Definition defaulTimeout : Z := 4 * Second.
Definition defaultEnv : string := "local".
Definition defaultVersion : string := "0.0.0".

(** The calls to [log.Fatal], in the order of the source. *)
Inductive Fatal : Type :=
  | FatalNoConfigPath
  | FatalFileMissing (configPath : string)
  | FatalRead (configPath : string)
  | FatalJSON (configPath : string)
  | FatalFileTimeout (timeout : string)
  | FatalEnvTimeout (timeout : string).

Inductive Loaded : Type :=
  | Exit (f : Fatal)
  | Return (cfg : Config).

Section MustLoad.

Variable Getenv : string → string.
Variable StatIsNotExist : string → bool.
Variable ReadFile : string → option (list Byte.byte).
Variable Unmarshal : list Byte.byte → option jsonConfig.
Variable ParseDuration : string → option Z.

Definition withEnv (cfg : Config) (v : string) : Config :=
  {| Config_Env := v;
     Config_Version := Config_Version cfg;
     Config_HTTPServer := Config_HTTPServer cfg |}.

Definition withVersion (cfg : Config) (v : string) : Config :=
  {| Config_Env := Config_Env cfg;
     Config_Version := v;
     Config_HTTPServer := Config_HTTPServer cfg |}.

Definition withAddress (cfg : Config) (v : string) : Config :=
  {| Config_Env := Config_Env cfg;
     Config_Version := Config_Version cfg;
     Config_HTTPServer :=
       {| HTTPServer_Address := v;
          HTTPServer_Timeout := HTTPServer_Timeout (Config_HTTPServer cfg);
          HTTPServer_User := HTTPServer_User (Config_HTTPServer cfg);
          HTTPServer_Password := HTTPServer_Password (Config_HTTPServer cfg) |} |}.

Definition withTimeout (cfg : Config) (d : Z) : Config :=
  {| Config_Env := Config_Env cfg;
     Config_Version := Config_Version cfg;
     Config_HTTPServer :=
       {| HTTPServer_Address := HTTPServer_Address (Config_HTTPServer cfg);
          HTTPServer_Timeout := d;
          HTTPServer_User := HTTPServer_User (Config_HTTPServer cfg);
          HTTPServer_Password := HTTPServer_Password (Config_HTTPServer cfg) |} |}.

Definition MustLoad : Loaded :=
  let configPath := Getenv "CONFIG_PATH" in
  if String.eqb configPath ""
  then Exit FatalNoConfigPath
  else if StatIsNotExist configPath
  then Exit (FatalFileMissing configPath)
  else
    let cfg :=
      {| Config_Env := defaultEnv;
         Config_Version := defaultVersion;
         Config_HTTPServer :=
           {| HTTPServer_Address := defaultAddress;
              HTTPServer_Timeout := defaulTimeout;
              HTTPServer_User := "";
              HTTPServer_Password := "" |} |} in
    match ReadFile configPath with
    | None => Exit (FatalRead configPath)
    | Some fileBytes =>
    match Unmarshal fileBytes with
    | None => Exit (FatalJSON configPath)
    | Some jsonCfg =>
    let cfg :=
      if negb (String.eqb (jsonConfig_Env jsonCfg) "")
      then withEnv cfg (jsonConfig_Env jsonCfg) else cfg in
    let cfg :=
      if negb (String.eqb (jsonConfig_Version jsonCfg) "")
      then withVersion cfg (jsonConfig_Version jsonCfg) else cfg in
    let cfg :=
      if negb (String.eqb
                 (jsonHTTPServer_Address (jsonConfig_HTTPServer jsonCfg)) "")
      then withAddress cfg
             (jsonHTTPServer_Address (jsonConfig_HTTPServer jsonCfg))
      else cfg in
    let timeout := jsonHTTPServer_Timeout (jsonConfig_HTTPServer jsonCfg) in
    match (if negb (String.eqb timeout "")
           then match ParseDuration timeout with
                | None => Exit (FatalFileTimeout timeout)
                | Some parsedDur => Return (withTimeout cfg parsedDur)
                end
           else Return cfg) with
    | Exit f => Exit f
    | Return cfg =>
    let cfg :=
      let envVal := Getenv "ENV" in
      if negb (String.eqb envVal "") then withEnv cfg envVal else cfg in
    let cfg :=
      let envVal := Getenv "VERSION" in
      if negb (String.eqb envVal "") then withAddress cfg envVal else cfg in
    let cfg :=
      let envVal := Getenv "HTTP_SERVER_ADDRESS" in
      if negb (String.eqb envVal "") then withAddress cfg envVal else cfg in
    let envValStr := Getenv "HTTP_SERVER_TIMEOUT" in
    if negb (String.eqb envValStr "")
    then match ParseDuration envValStr with
         | None => Exit (FatalEnvTimeout envValStr)
         | Some parsedDur => Return (withTimeout cfg parsedDur)
         end
    else Return cfg
    end
    end
    end.

End MustLoad.

(** The first string of a list that is not empty. *)
Fixpoint firstSet (candidates : list string) (default : string) : string :=
  match candidates with
  | [] => default
  | c :: rest => if String.eqb c "" then firstSet rest default else c
  end.

End Config.

(** ** A sample environment for the configuration

    A file that sets the environment name, the version and the address,
    and an environment that sets [VERSION]. *)

Definition sample_Getenv (name : string) : string :=
  if String.eqb name "CONFIG_PATH" then "config.json"
  else if String.eqb name "VERSION" then "1.2.3"
  else "".

Definition sample_ReadFile (path : string) : option (list Byte.byte) :=
  if String.eqb path "config.json" then Some [] else None.

Definition sample_jsonConfig : Config.jsonConfig :=
  {| Config.jsonConfig_Env := "dev";
     Config.jsonConfig_Version := "0.9.0";
     Config.jsonConfig_HTTPServer :=
       {| Config.jsonHTTPServer_Address := "0.0.0.0:9000";
          Config.jsonHTTPServer_Timeout := "" |} |}.

Definition sample_Unmarshal (b : list Byte.byte) : option Config.jsonConfig :=
  Some sample_jsonConfig.

Definition sample_ParseDuration (s : string) : option Z :=
  if String.eqb s "5s" then Some (5 * Config.Second) else None.

Definition sample_load : Config.Loaded :=
  Config.MustLoad sample_Getenv (fun _ => false) sample_ReadFile
    sample_Unmarshal sample_ParseDuration.

Definition sample_Config : Config.Config :=
  {| Config.Config_Env := "dev";
     Config.Config_Version := "0.9.0";
     Config.Config_HTTPServer :=
       {| Config.HTTPServer_Address := "1.2.3";
          Config.HTTPServer_Timeout := 4 * Config.Second;
          Config.HTTPServer_User := "";
          Config.HTTPServer_Password := "" |} |}.

(** * Properties of the building blocks *)

Lemma wrap64_small (z : Z) : int64_min ≤ z ≤ int64_max → wrap64 z = z.
Proof.
  unfold wrap64, int64_min, int64_max. intros H.
  rewrite Z.mod_small; lia.
Qed.

Lemma go_copy_make {A : Type} (z : A) (src : list A) :
  go_copy (replicate (length src) z) src = src.
Proof.
  unfold go_copy. rewrite length_replicate, firstn_all.
  rewrite drop_ge by (rewrite length_replicate; lia).
  apply app_nil_r.
Qed.

Lemma delete_loop_filter (id : Z) (l acc : list Quote) :
  fold_left
    (fun newList q => if negb (ID q =? id) then newList ++ [q] else newList)
    l acc
  = acc ++ filter (fun q => ID q ≠ id) l.
Proof.
  revert acc. induction l as [|q l IH]; intros acc; simpl.
  - by rewrite app_nil_r.
  - rewrite IH. destruct (Z.eqb_spec (ID q) id) as [He|Hne]; simpl.
    + by rewrite filter_cons_False by (intros ?; contradiction).
    + rewrite filter_cons_True by done. by rewrite <- app_assoc.
Qed.

Lemma author_loop_filter (a : string) (l : list Quote) (r : option (list Quote)) :
  fold_left
    (fun result q =>
       if String.eqb (Author q) a then go_append result q else result)
    l r
  = match filter (fun q => Author q = a) l with
    | [] => r
    | m => Some (default [] r ++ m)
    end.
Proof.
  revert r. induction l as [|q l IH]; intros r; simpl; [done|].
  rewrite IH. destruct (String.eqb_spec (Author q) a) as [He|Hne].
  - rewrite filter_cons_True by done.
    destruct r as [l0|]; simpl;
      destruct (filter _ l); simpl; try rewrite <- app_assoc; done.
  - by rewrite filter_cons_False by done.
Qed.

Lemma AddQuote_live text author s :
  AddQuote Live text author s
  = ((nextID s, None),
     {| quotes := <[nextID s := mkQuote (nextID s) text author]> (quotes s);
        quotesList := quotesList s ++ [mkQuote (nextID s) text author];
        nextID := wrap64 (nextID s + 1) |}).
Proof. reflexivity. Qed.

Lemma DeleteQuote_found id q s :
  quotes s !! id = Some q →
  DeleteQuote Live id s
  = (None,
     {| quotes := delete id (quotes s);
        quotesList := filter (fun q => ID q ≠ id) (quotesList s);
        nextID := nextID s |}).
Proof.
  intros H. unfold DeleteQuote. rewrite H, delete_loop_filter. done.
Qed.

Lemma DeleteQuote_missing id s :
  quotes s !! id = None → DeleteQuote Live id s = (Some ErrQuoteNotFound, s).
Proof. intros H. unfold DeleteQuote. by rewrite H. Qed.

Lemma DeleteQuote_done e id s :
  DeleteQuote (Done e) id s = (Some (CtxError e), s).
Proof. reflexivity. Qed.

(** * The invariant is inductive *)

Lemma store_wf_New : store_wf 0 New.
Proof.
  split; [split|split].
  - intros k q. simpl. rewrite lookup_empty. split; [done|].
    intros [H _]. by apply elem_of_nil in H.
  - simpl. constructor.
  - constructor.
  - simpl. lia.
Qed.

Lemma store_wf_mono n m s : (n ≤ m)%nat → store_wf n s → store_wf m s.
Proof. intros Hnm (Hi & Hb & Hr). split; [done|]. split; [done|]. lia. Qed.

Lemma store_wf_fresh n s q : store_wf n s → q ∈ quotesList s → ID q ≠ nextID s.
Proof.
  intros (_ & Hb & _) Hin. unfold ids_below in Hb.
  rewrite Forall_forall in Hb. specialize (Hb q Hin). lia.
Qed.

Lemma store_wf_AddQuote n ctx text author s :
  store_wf n s → Z.of_nat (S n) < int64_max →
  store_wf (S n) (AddQuote ctx text author s).2.
Proof.
  intros Hwf Hn. destruct ctx as [|e]; simpl;
    [|by apply (store_wf_mono n); [lia|]].
  assert (Hfresh : ∀ q, q ∈ quotesList s → ID q ≠ nextID s)
    by (intros q0 Hq0; by eapply store_wf_fresh).
  destruct Hwf as ((Hc & Hnd) & Hb & Hr).
  assert (Hw : wrap64 (nextID s + 1) = nextID s + 1).
  { apply wrap64_small. unfold int64_min, int64_max in *. lia. }
  rewrite Hw. split; [split|split]; simpl.
  - intros k q. simpl. split.
    + intros Hk. destruct (decide (nextID s = k)) as [<-|Hne].
      * rewrite lookup_insert_eq in Hk. injection Hk as <-. split; [|done].
        apply elem_of_app. right. by apply list_elem_of_singleton.
      * rewrite lookup_insert_ne in Hk by done.
        apply Hc in Hk as [Hin Hid]. split; [|done].
        apply elem_of_app. by left.
    + intros [Hin Hid]. apply elem_of_app in Hin as [Hin|Hin].
      * rewrite lookup_insert_ne.
        -- apply Hc. done.
        -- intros Heq. apply (Hfresh q Hin). congruence.
      * apply list_elem_of_singleton in Hin. subst q. simpl in Hid. subst k.
        by rewrite lookup_insert_eq.
  - rewrite fmap_app. apply NoDup_app. split; [done|]. split.
    + intros x Hx Hx'. simpl in Hx'. apply list_elem_of_singleton in Hx'. subst x.
      apply list_elem_of_fmap in Hx as (q & Hq & Hin).
      apply (Hfresh q Hin). done.
    + simpl. apply NoDup_singleton.
  - unfold ids_below. simpl. apply Forall_app. split.
    + eapply Forall_impl; [exact Hb|]. simpl. intros; lia.
    + constructor; [simpl; lia|constructor].
  - lia.
Qed.

Lemma store_wf_DeleteQuote n ctx id s :
  store_wf n s → store_wf n (DeleteQuote ctx id s).2.
Proof.
  intros Hwf. destruct ctx as [|e]; [|done].
  destruct (quotes s !! id) as [q0|] eqn:Hlk;
    [rewrite (DeleteQuote_found _ _ _ Hlk)|by rewrite DeleteQuote_missing].
  destruct Hwf as ((Hc & Hnd) & Hb & Hr).
  split; [split|split]; simpl.
  - intros k q. simpl. rewrite list_elem_of_filter.
    destruct (decide (id = k)) as [<-|Hne].
    + rewrite lookup_delete_eq. split; [done|]. intros [[Hq _] Hid]. done.
    + rewrite lookup_delete_ne by done. rewrite (Hc k q).
      split; [intros [Hin Hid]|intros [[_ Hin] Hid]]; repeat split; try done.
      congruence.
  - eapply sublist_NoDup; [exact Hnd|].
    apply fmap_sublist, sublist_filter.
  - unfold ids_below. simpl. apply Forall_forall. intros q Hq.
    apply list_elem_of_filter in Hq as [_ Hq].
    unfold ids_below in Hb. rewrite Forall_forall in Hb. by apply Hb.
  - done.
Qed.

Lemma store_wf_Close n s : store_wf n (Close s).2.
Proof. apply (store_wf_mono 0 n New); [lia|]. apply store_wf_New. Qed.

Lemma store_wf_exec n ctx c s :
  store_wf n s → Z.of_nat (S n) < int64_max →
  store_wf (S n) (exec ctx c s).2.
Proof.
  intros Hwf Hn. destruct c; simpl.
  - pose proof (store_wf_AddQuote n ctx text author s Hwf Hn) as H.
    by destruct (AddQuote ctx text author s).
  - by apply (store_wf_mono n); [lia|].
  - by apply (store_wf_mono n); [lia|].
  - by apply (store_wf_mono n); [lia|].
  - pose proof (store_wf_DeleteQuote n ctx id s Hwf) as H.
    destruct (DeleteQuote ctx id s). by apply (store_wf_mono n); [lia|].
  - apply (store_wf_Close (S n) s).
Qed.

Lemma final_nil s : final [] s = s.
Proof. reflexivity. Qed.

Lemma final_cons ctx c tr s : final ((ctx, c) :: tr) s = final tr (exec ctx c s).2.
Proof.
  unfold final. simpl. destruct (exec ctx c s) as [r s1]. simpl.
  by destruct (run tr s1).
Qed.

Lemma responses_cons ctx c tr s :
  responses ((ctx, c) :: tr) s
  = (exec ctx c s).1 :: responses tr (exec ctx c s).2.
Proof.
  unfold responses. simpl. destruct (exec ctx c s) as [r s1]. simpl.
  by destruct (run tr s1).
Qed.

Lemma final_app tr1 tr2 s : final (tr1 ++ tr2) s = final tr2 (final tr1 s).
Proof.
  revert s. induction tr1 as [|[ctx c] tr1 IH]; intros s; [done|].
  simpl. by rewrite !final_cons, IH.
Qed.

Lemma responses_app tr1 tr2 s :
  responses (tr1 ++ tr2) s = responses tr1 s ++ responses tr2 (final tr1 s).
Proof.
  revert s. induction tr1 as [|[ctx c] tr1 IH]; intros s; [done|].
  simpl. by rewrite !responses_cons, final_cons, IH.
Qed.

Lemma store_wf_run tr : ∀ n s,
  store_wf n s → Z.of_nat (n + length tr) < int64_max →
  store_wf (n + length tr) (final tr s).
Proof.
  induction tr as [|[ctx c] tr IH]; intros n s Hwf Hn; simpl in *.
  - rewrite Nat.add_0_r. done.
  - rewrite final_cons.
    replace (n + S (length tr))%nat with (S n + length tr)%nat in * by lia.
    apply IH; [|done]. apply store_wf_exec; [done|lia].
Qed.

(** Every state a store goes through in fewer than [int64_max] calls. *)
Lemma store_wf_reachable tr :
  Z.of_nat (length tr) < int64_max → store_wf (length tr) (final tr New).
Proof. intros H. apply (store_wf_run tr 0 New); [apply store_wf_New|done]. Qed.

(** * Identifier assignment *)

Lemma StronglySorted_seqZ (m : Z) (n : nat) :
  StronglySorted Z.lt (seqZ m (Z.of_nat n)).
Proof.
  revert m. induction n as [|n IH]; intros m.
  - rewrite seqZ_nil by lia. constructor.
  - rewrite seqZ_cons by lia.
    replace (Z.pred (Z.of_nat (S n))) with (Z.of_nat n) by lia.
    constructor; [apply IH|].
    apply Forall_seqZ. intros; lia.
Qed.

Lemma added_ids_cons r rs :
  added_ids (r :: rs) = match added_id r with
                        | Some id => id :: added_ids rs
                        | None => added_ids rs
                        end.
Proof. unfold added_ids. simpl. by destruct (added_id r). Qed.

(** One call that is not [Close] hands out at most the id [nextID s], and
    moves the counter exactly when it does. *)
Lemma exec_added_id ctx c s :
  isClose c = false → int64_min ≤ nextID s < int64_max →
  (added_id (exec ctx c s).1 = None ∧ nextID (exec ctx c s).2 = nextID s)
  ∨ (added_id (exec ctx c s).1 = Some (nextID s)
     ∧ nextID (exec ctx c s).2 = nextID s + 1).
Proof.
  intros Hc Hr. destruct c; simpl in *; try discriminate; try (by left).
  - destruct ctx as [|e]; simpl; [right|by left].
    split; [done|]. apply wrap64_small. unfold int64_min, int64_max in *. lia.
  - left. destruct ctx as [|e]; simpl; [|done].
    unfold DeleteQuote. by destruct (quotes s !! id).
Qed.

(** Without [Close], the ids handed out from a state [s] are the run
    [nextID s, nextID s + 1, ...], and the counter ends just above them. *)
Lemma added_ids_run tr : ∀ s,
  closeFree tr = true →
  int64_min ≤ nextID s → nextID s + Z.of_nat (length tr) ≤ int64_max →
  let ids := added_ids (responses tr s) in
  ids = seqZ (nextID s) (Z.of_nat (length ids))
  ∧ nextID (final tr s) = nextID s + Z.of_nat (length ids)
  ∧ (length ids ≤ length tr)%nat.
Proof.
  induction tr as [|[ctx c] tr IH]; intros s Hcf Hlo Hhi; simpl in *.
  - rewrite seqZ_nil by done. rewrite final_nil. split; [done|]. split; lia.
  - apply andb_prop in Hcf as [Hc Hcf]. apply negb_true_iff in Hc. simpl in Hc.
    rewrite responses_cons, final_cons, added_ids_cons.
    destruct (exec_added_id ctx c s Hc) as [[Hid Hn]|[Hid Hn]]; [lia|..];
      rewrite Hid; specialize (IH (exec ctx c s).2 Hcf);
      rewrite Hn in IH; simpl in IH.
    + destruct IH as (IH1 & IH2 & IH3); [lia|lia|].
      split; [done|]. split; [done|lia].
    + destruct IH as (IH1 & IH2 & IH3); [lia|lia|].
      split; [|split]; simpl length.
      * rewrite seqZ_cons by lia.
        replace (Z.pred (Z.of_nat (S _))) with
          (Z.of_nat (length (added_ids (responses tr (exec ctx c s).2)))) by lia.
        replace (Z.succ (nextID s)) with (nextID s + 1) by lia.
        by rewrite <- IH1.
      * rewrite IH2. lia.
      * lia.
Qed.

Lemma added_id_exec ctx c s :
  added_id (exec ctx c s).1
  = if isLiveAdd (ctx, c) then Some (nextID s) else None.
Proof.
  destruct c, ctx; try reflexivity.
  simpl. unfold DeleteQuote. by destruct (quotes s !! id).
Qed.

(** Exactly the [AddQuote] calls made under a live context hand out an id. *)
Lemma added_ids_length tr : ∀ s,
  length (added_ids (responses tr s)) = length (List.filter isLiveAdd tr).
Proof.
  induction tr as [|[ctx c] tr IH]; intros s; [done|].
  rewrite responses_cons, added_ids_cons, added_id_exec.
  change (List.filter isLiveAdd ((ctx, c) :: tr))
    with (if isLiveAdd (ctx, c)
          then (ctx, c) :: List.filter isLiveAdd tr
          else List.filter isLiveAdd tr).
  destruct (isLiveAdd (ctx, c)); [cbn [length]; f_equal|]; apply IH.
Qed.

Lemma Close_New s : Close s = (None, New).
Proof. reflexivity. Qed.

(** * Main results on identifiers and on the invariant *)

(** C1: in every state the store reaches from [New] by calls of [AddQuote],
    [GetAllQuotes], [GetRandomQuote], [GetQuotesByAuthor], [DeleteQuote] and
    [Close] (live or cancelled, fewer than [int64_max] of them), and again
    after any further such call, the map and the list hold exactly the same
    quotes, with the same text and author under each id, and the list holds
    no id twice. *)
Theorem store_invariant_preserved
  (tr : list (Context * Call)) (ctx : Context) (c : Call) :
  Z.of_nat (length tr) + 1 < int64_max →
  store_invariant (final tr New)
  ∧ store_invariant (exec ctx c (final tr New)).2.
Proof.
  intros Hn. split.
  - apply (store_wf_reachable tr). lia.
  - pose proof (store_wf_reachable tr ltac:(lia)) as Hwf.
    apply (store_wf_exec _ ctx c) in Hwf; [apply Hwf|lia].
Qed.

Lemma store_invariant_preserved_witness :
  store_invariant (final trace_bruce New)
  ∧ store_invariant (exec Live (CallDelete 2) (final trace_bruce New)).2.
Proof.
  apply (store_invariant_preserved trace_bruce Live (CallDelete 2)).
  vm_compute. reflexivity.
Defined.

(** C3: on a store created by [New] and not closed in between, the ids
    returned by the successful [AddQuote] calls are, in call order,
    1, 2, 3, ...: they start at 1, are strictly increasing and pairwise
    distinct, one for each [AddQuote] made under a live context (for fewer
    than [int64_max] calls, the range of the [int64] counter). *)
Theorem add_ids_strictly_increasing (tr : list (Context * Call)) :
  closeFree tr = true →
  Z.of_nat (length tr) < int64_max →
  let ids := added_ids (responses tr New) in
  ids = seqZ 1 (Z.of_nat (length ids))
  ∧ length ids = length (List.filter isLiveAdd tr)
  ∧ StronglySorted Z.lt ids
  ∧ NoDup ids.
Proof.
  intros Hcf Hn ids.
  destruct (added_ids_run tr New Hcf) as (Hids & _ & _).
  { simpl. unfold int64_min. lia. }
  { simpl. lia. }
  fold ids in Hids. simpl in Hids.
  split; [done|]. split; [apply added_ids_length|].
  rewrite Hids. split; [apply StronglySorted_seqZ|apply NoDup_seqZ].
Qed.

Lemma add_ids_strictly_increasing_witness :
  let ids := added_ids (responses trace_bruce New) in
  ids = seqZ 1 (Z.of_nat (length ids))
  ∧ length ids = length (List.filter isLiveAdd trace_bruce)
  ∧ StronglySorted Z.lt ids
  ∧ NoDup ids.
Proof.
  apply (add_ids_strictly_increasing trace_bruce).
  - vm_compute. reflexivity.
  - vm_compute. reflexivity.
Defined.

Example added_ids_trace_bruce :
  added_ids (responses trace_bruce New) = [1; 2; 3].
Proof. vm_compute. reflexivity. Qed.

(** C9, as stated, fails: [Close] puts the counter back to 1, so the id 1
    handed out before it is handed out again after it, and right after
    [Close] the counter is not above that id. *)
Lemma ids_reused_after_Close :
  added_ids (responses trace_reuse New) = [1; 1]
  ∧ ¬ NoDup (added_ids (responses trace_reuse New))
  ∧ ¬ Forall (fun k => k < nextID (final (take 2 trace_reuse) New))
        (added_ids (responses (take 2 trace_reuse) New)).
Proof.
  split; [vm_compute; reflexivity|]. split.
  - replace (added_ids (responses trace_reuse New)) with [1; 1]
      by (vm_compute; reflexivity).
    intros H. apply NoDup_cons in H as [H _]. apply H. by left.
  - replace (added_ids (responses (take 2 trace_reuse) New)) with [1]
      by (vm_compute; reflexivity).
    replace (nextID (final (take 2 trace_reuse) New)) with 1
      by (vm_compute; reflexivity).
    intros H. apply Forall_cons in H as [H _]. lia.
Qed.

(** C9, amended: over every sequence of calls without [Close] (fewer than
    [int64_max] of them), the counter is strictly above every id handed
    out and no id is handed out twice; [Close] returns the store to its
    initial state, counter 1 included. *)
Theorem next_id_above_assigned (tr : list (Context * Call)) :
  closeFree tr = true →
  Z.of_nat (length tr) < int64_max →
  let ids := added_ids (responses tr New) in
  Forall (fun k => k < nextID (final tr New)) ids
  ∧ NoDup ids
  ∧ ∀ s, Close s = (None, New).
Proof.
  intros Hcf Hn ids.
  destruct (added_ids_run tr New Hcf) as (Hids & Hnext & _).
  { simpl. unfold int64_min. lia. }
  { simpl. lia. }
  fold ids in Hids, Hnext. simpl in Hids, Hnext.
  set (n := length ids) in *. clearbody n.
  split; [|split; [rewrite Hids; apply NoDup_seqZ|apply Close_New]].
  rewrite Hnext, Hids. apply Forall_seqZ. intros; lia.
Qed.

Lemma next_id_above_assigned_witness :
  let ids := added_ids (responses trace_bruce New) in
  Forall (fun k => k < nextID (final trace_bruce New)) ids
  ∧ NoDup ids
  ∧ ∀ s, Close s = (None, New).
Proof.
  apply (next_id_above_assigned trace_bruce).
  - vm_compute. reflexivity.
  - vm_compute. reflexivity.
Defined.

(** * Listing, filtering and deleting *)

Lemma GetAllQuotes_live s : GetAllQuotes Live s = (Some (quotesList s), None).
Proof. unfold GetAllQuotes. by rewrite go_copy_make. Qed.

Lemma filter_none {A : Type} (P : A → Prop) `{!∀ x, Decision (P x)} (l : list A) :
  (∀ x, x ∈ l → ¬ P x) → filter P l = [].
Proof.
  intros Hno. destruct (filter P l) as [|y m] eqn:Hf; [done|].
  assert (Hy : y ∈ filter P l) by (rewrite Hf; by left).
  apply list_elem_of_filter in Hy as [HP Hy]. by destruct (Hno y Hy).
Qed.

(** With no id twice in the list, an id selects one quote. *)
Lemma filter_id_unique (l : list Quote) (q : Quote) :
  NoDup (ID <$> l) → q ∈ l → filter (fun x => ID x = ID q) l = [q].
Proof.
  induction l as [|x l IH]; intros Hnd Hin; [by apply elem_of_nil in Hin|].
  rewrite fmap_cons in Hnd. apply NoDup_cons in Hnd as [Hx Hnd].
  apply elem_of_cons in Hin as [->|Hin].
  - rewrite filter_cons_True by done. f_equal.
    apply filter_none. intros y Hy Heq. apply Hx. rewrite <- Heq.
    apply list_elem_of_fmap. by exists y.
  - rewrite filter_cons_False; [by apply IH|].
    intros Heq. apply Hx. rewrite Heq. apply list_elem_of_fmap. by exists q.
Qed.

Lemma exec_keeps k ctx c s q :
  keeps k (ctx, c) = true → q ∈ quotesList s → ID q = k →
  q ∈ quotesList (exec ctx c s).2.
Proof.
  intros Hk Hin Hid. destruct c; simpl in *; try done.
  - destruct ctx; simpl; [|done]. apply elem_of_app. by left.
  - destruct ctx as [|e]; [|done].
    destruct (quotes s !! id) as [q0|] eqn:Hlk;
      [rewrite (DeleteQuote_found _ _ _ Hlk)|by rewrite DeleteQuote_missing].
    simpl. apply list_elem_of_filter. split; [|done].
    apply negb_true_iff, Z.eqb_neq in Hk. congruence.
  - by destruct ctx.
Qed.

Lemma run_keeps k tr : ∀ s q,
  forallb (keeps k) tr = true → q ∈ quotesList s → ID q = k →
  q ∈ quotesList (final tr s).
Proof.
  induction tr as [|[ctx c] tr IH]; intros s q Hk Hin Hid; [done|].
  simpl in Hk. apply andb_prop in Hk as [Hk1 Hk2].
  rewrite final_cons. apply IH; [done| |done]. by apply exec_keeps with k.
Qed.

(** C2: when [AddQuote], called with text [t] and author [a] under a live
    context in a state the store can reach, returns the id [k], it returns
    no error, and after any further calls other than [Close] and a live
    [DeleteQuote] of [k] (further [AddQuote] calls included),
    [GetAllQuotes] returns a list in which exactly one quote has id [k]:
    the quote with id [k], text [t], author [a]. *)
Theorem added_quote_listed_once
  (tr tr2 : list (Context * Call)) (t a : string)
  (k : Z) (r : option error) (s1 : Storage) :
  AddQuote Live t a (final tr New) = ((k, r), s1) →
  forallb (keeps k) tr2 = true →
  Z.of_nat (length tr + 1 + length tr2) < int64_max →
  r = None
  ∧ ∃ l, GetAllQuotes Live (final tr2 s1) = (Some l, None)
       ∧ filter (fun q => ID q = k) l = [mkQuote k t a].
Proof.
  intros Hadd Hk Hn.
  assert (Hwf : store_wf (length tr) (final tr New))
    by (apply store_wf_reachable; lia).
  apply (store_wf_AddQuote _ Live t a) in Hwf; [|lia].
  rewrite Hadd in Hwf. simpl in Hwf.
  rewrite AddQuote_live in Hadd. injection Hadd as Hk' <- Hs1.
  split; [done|]. exists (quotesList (final tr2 s1)).
  split; [apply GetAllQuotes_live|].
  assert (Hin : mkQuote k t a ∈ quotesList s1).
  { rewrite <- Hs1, <- Hk'. simpl. apply elem_of_app. right. by left. }
  apply (run_keeps k tr2) in Hin; [|done..].
  apply (store_wf_run tr2) in Hwf; [|lia].
  destruct Hwf as ((_ & Hnd) & _).
  by apply (filter_id_unique _ (mkQuote k t a)).
Qed.

Lemma added_quote_listed_once_witness :
  None = (None : option error)
  ∧ ∃ l,
      GetAllQuotes Live
        (final [(Live, CallAdd "x" "y"); (Live, CallDelete 2); (Live, CallGetAll)]
           (AddQuote Live "Know thyself." "Socrates" (final trace_bruce New)).2)
      = (Some l, None)
      ∧ filter (fun q => ID q = 4) l = [mkQuote 4 "Know thyself." "Socrates"].
Proof.
  apply (added_quote_listed_once trace_bruce
           [(Live, CallAdd "x" "y"); (Live, CallDelete 2); (Live, CallGetAll)]
           "Know thyself." "Socrates" 4 None).
  - vm_compute. reflexivity.
  - vm_compute. reflexivity.
  - vm_compute. reflexivity.
Defined.

Lemma consistent_lookup_None (s : Storage) (k : Z) :
  consistent s →
  (quotes s !! k = None ↔ ∀ q, q ∈ quotesList s → ID q ≠ k).
Proof.
  intros Hc. split.
  - intros Hlk q Hin Hid.
    assert (Hq : quotes s !! k = Some q) by (by apply Hc).
    congruence.
  - intros Hno. destruct (quotes s !! k) as [q|] eqn:Hlk; [|done].
    apply Hc in Hlk as [Hin Hid]. by destruct (Hno q Hin).
Qed.

(** C4: under a live context, [DeleteQuote] of [k] returns
    [ErrQuoteNotFound] exactly when the map holds no quote under [k]
    (which, when the store invariant holds, is when the list holds no
    quote with id [k] either); when it does, the store is left as it was;
    and after a [DeleteQuote] of [k] that succeeded, a second
    [DeleteQuote] of [k] returns [ErrQuoteNotFound]. *)
Theorem delete_not_found (s : Storage) (k : Z) :
  ((DeleteQuote Live k s).1 = Some ErrQuoteNotFound ↔ quotes s !! k = None)
  ∧ (store_invariant s →
     ((DeleteQuote Live k s).1 = Some ErrQuoteNotFound
      ↔ ∀ q, q ∈ quotesList s → ID q ≠ k))
  ∧ ((DeleteQuote Live k s).1 = Some ErrQuoteNotFound →
     (DeleteQuote Live k s).2 = s)
  ∧ ((DeleteQuote Live k s).1 = None →
     (DeleteQuote Live k (DeleteQuote Live k s).2).1 = Some ErrQuoteNotFound).
Proof.
  assert (Hiff : (DeleteQuote Live k s).1 = Some ErrQuoteNotFound
                 ↔ quotes s !! k = None).
  { destruct (quotes s !! k) as [q|] eqn:Hlk.
    - rewrite (DeleteQuote_found _ _ _ Hlk). split; discriminate.
    - by rewrite (DeleteQuote_missing _ _ Hlk). }
  split; [done|]. split.
  { intros [Hc _]. rewrite Hiff. by apply consistent_lookup_None. }
  destruct (quotes s !! k) as [q|] eqn:Hlk.
  - rewrite (DeleteQuote_found _ _ _ Hlk). cbn [fst snd].
    split; [discriminate|]. intros _.
    rewrite DeleteQuote_missing; [done|]. simpl. apply lookup_delete_eq.
  - rewrite (DeleteQuote_missing _ _ Hlk). cbn [fst snd].
    split; [done|discriminate].
Qed.

Lemma delete_not_found_witness :
  let s := final trace_bruce New in
  ((DeleteQuote Live 2 s).1 = Some ErrQuoteNotFound ↔ quotes s !! 2 = None)
  ∧ (store_invariant s →
     ((DeleteQuote Live 2 s).1 = Some ErrQuoteNotFound
      ↔ ∀ q, q ∈ quotesList s → ID q ≠ 2))
  ∧ ((DeleteQuote Live 2 s).1 = Some ErrQuoteNotFound →
     (DeleteQuote Live 2 s).2 = s)
  ∧ ((DeleteQuote Live 2 s).1 = None →
     (DeleteQuote Live 2 (DeleteQuote Live 2 s).2).1 = Some ErrQuoteNotFound).
Proof. exact (delete_not_found (final trace_bruce New) 2). Defined.

(** The scenario of the specification: add, list, delete, list, delete. *)
Example scenario_bruce_lee :
  responses
    [ (Live, CallAdd "Be water, my friend." "Bruce Lee");
      (Live, CallGetAll);
      (Live, CallDelete 1);
      (Live, CallGetAll);
      (Live, CallDelete 1) ] New
  = [ RespAdd (1, None);
      RespGetAll (Some [mkQuote 1 "Be water, my friend." "Bruce Lee"], None);
      RespDelete None;
      RespGetAll (Some [], None);
      RespDelete (Some ErrQuoteNotFound) ].
Proof. vm_compute. reflexivity. Qed.

(** C5: under a live context, [GetQuotesByAuthor] returns no error and a
    non-nil slice holding exactly the quotes of the list whose [Author]
    is the filter string itself (equal character by character: no case
    folding, no trimming), in the order of the list; with no such quote
    the slice is empty and still not nil. *)
Theorem by_author_exact (s : Storage) (a : string) :
  GetQuotesByAuthor Live a s
  = (Some (filter (fun q => Author q = a) (quotesList s)), None)
  ∧ filter (fun q => Author q = a) (quotesList s) `sublist_of` quotesList s
  ∧ (∀ q, q ∈ filter (fun q => Author q = a) (quotesList s)
          ↔ q ∈ quotesList s ∧ Author q = a)
  ∧ ((∀ q, q ∈ quotesList s → Author q ≠ a) →
     GetQuotesByAuthor Live a s = (Some [], None)).
Proof.
  assert (Heq : GetQuotesByAuthor Live a s
                = (Some (filter (fun q => Author q = a) (quotesList s)), None)).
  { unfold GetQuotesByAuthor. rewrite author_loop_filter.
    by destruct (filter _ (quotesList s)). }
  split; [done|]. split; [apply sublist_filter|]. split.
  - intros q. rewrite list_elem_of_filter. tauto.
  - intros Hno. rewrite Heq. by rewrite filter_none.
Qed.

Lemma by_author_exact_witness :
  let s := final trace_bruce New in
  GetQuotesByAuthor Live "socrates" s
  = (Some (filter (fun q => Author q = "socrates") (quotesList s)), None)
  ∧ filter (fun q => Author q = "socrates") (quotesList s)
      `sublist_of` quotesList s
  ∧ (∀ q, q ∈ filter (fun q => Author q = "socrates") (quotesList s)
          ↔ q ∈ quotesList s ∧ Author q = "socrates")
  ∧ ((∀ q, q ∈ quotesList s → Author q ≠ "socrates") →
     GetQuotesByAuthor Live "socrates" s = (Some [], None)).
Proof. exact (by_author_exact (final trace_bruce New) "socrates"). Defined.

Example by_author_case_sensitive :
  let s := final trace_bruce New in
  GetQuotesByAuthor Live "Socrates" s
  = (Some [mkQuote 3 "The unexamined life is not worth living." "Socrates"], None)
  ∧ GetQuotesByAuthor Live "socrates" s = (Some [], None)
  ∧ GetQuotesByAuthor Live " Socrates" s = (Some [], None)
  ∧ GetQuotesByAuthor (Done DeadlineExceeded) "Socrates" s
    = (None, Some (CtxError DeadlineExceeded)).
Proof. vm_compute. repeat split. Qed.

Lemma filter_id_length (l : list Quote) (q : Quote) :
  NoDup (ID <$> l) → q ∈ l →
  length l = S (length (filter (fun x => ID x ≠ ID q) l)).
Proof.
  intros Hnd Hin.
  pose proof (filter_app_complement (fun x => ID x ≠ ID q) l) as Hp.
  apply Permutation_length in Hp. rewrite length_app in Hp.
  rewrite (list_filter_iff (fun x => ¬ ID x ≠ ID q) (fun x => ID x = ID q))
    in Hp.
  - rewrite (filter_id_unique l q Hnd Hin) in Hp. simpl in Hp. lia.
  - intros x. split; [|by intros ->; intros ?].
    intros Hx. by destruct (decide (ID x = ID q)).
Qed.

(** C10: a [DeleteQuote] of [k] that succeeds returns no error and takes
    away the quote with id [k] and nothing else: the list keeps, in their
    order, exactly the quotes with another id, unchanged; the map keeps
    every other entry; the counter is as before. When the store invariant
    holds the list gets shorter by one. *)
Theorem delete_frame (s : Storage) (k : Z) (q0 : Quote) :
  quotes s !! k = Some q0 →
  let s' := (DeleteQuote Live k s).2 in
  (DeleteQuote Live k s).1 = None
  ∧ quotesList s' = filter (fun q => ID q ≠ k) (quotesList s)
  ∧ quotesList s' `sublist_of` quotesList s
  ∧ (∀ q, q ∈ quotesList s' ↔ q ∈ quotesList s ∧ ID q ≠ k)
  ∧ quotes s' !! k = None
  ∧ (∀ j, j ≠ k → quotes s' !! j = quotes s !! j)
  ∧ nextID s' = nextID s
  ∧ (store_invariant s → length (quotesList s) = S (length (quotesList s'))).
Proof.
  intros Hlk s'. subst s'. rewrite (DeleteQuote_found _ _ _ Hlk). simpl.
  split; [done|]. split; [done|]. split; [apply sublist_filter|]. split.
  { intros q. rewrite list_elem_of_filter. tauto. }
  split; [apply lookup_delete_eq|]. split.
  { intros j Hj. by apply lookup_delete_ne. }
  split; [done|]. intros [Hc Hnd].
  apply Hc in Hlk as [Hin <-]. by apply filter_id_length.
Qed.

Lemma delete_frame_witness :
  let s := final trace_bruce New in
  let s' := (DeleteQuote Live 2 s).2 in
  (DeleteQuote Live 2 s).1 = None
  ∧ quotesList s' = filter (fun q => ID q ≠ 2) (quotesList s)
  ∧ quotesList s' `sublist_of` quotesList s
  ∧ (∀ q, q ∈ quotesList s' ↔ q ∈ quotesList s ∧ ID q ≠ 2)
  ∧ quotes s' !! 2 = None
  ∧ (∀ j, j ≠ 2 → quotes s' !! j = quotes s !! j)
  ∧ nextID s' = nextID s
  ∧ (store_invariant s → length (quotesList s) = S (length (quotesList s'))).
Proof.
  apply (delete_frame (final trace_bruce New) 2 (mkQuote 2 "Stay hungry." "Steve Jobs")).
  vm_compute. reflexivity.
Defined.

(** * Random selection *)

Lemma GetRandomQuote_index (Intn : Z → Z) (s : Storage) (i : nat) (q : Quote) :
  quotesList s !! i = Some q →
  Intn (Z.of_nat (length (quotesList s))) = Z.of_nat i →
  GetRandomQuote Live Intn s = Ret (q, None).
Proof.
  intros Hq Hi. pose proof (lookup_lt_Some _ _ _ Hq) as Hlt.
  unfold GetRandomQuote. rewrite Hi, Nat2Z.id, Hq.
  destruct (Z.eqb_spec (Z.of_nat (length (quotesList s))) 0) as [H0|_]; [lia|].
  destruct (Z.leb_spec 0 (Z.of_nat i)); [|lia].
  destruct (Z.ltb_spec (Z.of_nat i) (Z.of_nat (length (quotesList s)))); [|lia].
  done.
Qed.

Lemma GetRandomQuote_inv (Intn : Z → Z) (s : Storage) (q : Quote) :
  GetRandomQuote Live Intn s = Ret (q, None) →
  let r := Intn (Z.of_nat (length (quotesList s))) in
  0 ≤ r < Z.of_nat (length (quotesList s))
  ∧ quotesList s !! Z.to_nat r = Some q.
Proof.
  intros H r. unfold GetRandomQuote in H. cbv zeta in H. fold r in H.
  destruct (Z.of_nat (length (quotesList s)) =? 0); [discriminate|].
  destruct (Z.leb_spec 0 r); simpl in H; [|discriminate].
  destruct (Z.ltb_spec r (Z.of_nat (length (quotesList s)))); [|discriminate].
  destruct (quotesList s !! Z.to_nat r) as [q'|]; [|discriminate].
  injection H as ->. split; [lia|done].
Qed.

Lemma GetRandomQuote_empty (Intn : Z → Z) (s : Storage) :
  (∃ q, GetRandomQuote Live Intn s = Ret (q, Some ErrQuoteNotFound))
  ↔ quotesList s = [].
Proof.
  unfold GetRandomQuote. split.
  - intros [q H]. destruct (quotesList s) as [|x l]; [done|]. exfalso.
    simpl length in H.
    destruct (Z.eqb_spec (Z.of_nat (S (length l))) 0) as [H0|_]; [lia|].
    destruct (_ && _); [|discriminate].
    by destruct (_ !! _).
  - intros ->. by exists zeroQuote.
Qed.

(** C6: under a live context, [GetRandomQuote] returns [ErrQuoteNotFound]
    exactly when the list is empty. In a state the store can reach, with
    [N] quotes in the list: whenever [rand.Intn N] answers within [0, N)
    the call returns, without error, a quote that is stored (in the list
    and in the map); and for each stored quote there is exactly one index
    in [0, N) for which it is the quote returned. Each stored quote thus
    has one chance in [N], whatever its id or position, when [rand.Intn]
    is uniform on [0, N). *)
Theorem random_one_index_per_quote (tr : list (Context * Call)) (Intn : Z → Z) :
  Z.of_nat (length tr) < int64_max →
  let s := final tr New in
  let N := Z.of_nat (length (quotesList s)) in
  ((∃ q, GetRandomQuote Live Intn s = Ret (q, Some ErrQuoteNotFound))
   ↔ quotesList s = [])
  ∧ (0 ≤ Intn N < N →
     ∃ q, GetRandomQuote Live Intn s = Ret (q, None)
          ∧ q ∈ quotesList s ∧ quotes s !! ID q = Some q)
  ∧ (∀ q, q ∈ quotesList s →
       exists ! r, 0 ≤ r < N
             ∧ ∀ Intn', Intn' N = r → GetRandomQuote Live Intn' s = Ret (q, None)).
Proof.
  intros Hn s N.
  destruct (store_wf_reachable tr Hn) as ((Hc & Hnd) & _). fold s in Hc, Hnd.
  split; [apply GetRandomQuote_empty|]. split.
  - intros Hr.
    destruct (lookup_lt_is_Some_2 (quotesList s) (Z.to_nat (Intn N))) as [q Hq];
      [subst N; lia|].
    exists q. split.
    + apply (GetRandomQuote_index _ _ (Z.to_nat (Intn N))); [done|].
      fold N. lia.
    + apply list_elem_of_lookup_2 in Hq. split; [done|]. by apply Hc.
  - intros q Hin. apply list_elem_of_lookup in Hin as [i Hi].
    pose proof (lookup_lt_Some _ _ _ Hi) as Hlt.
    exists (Z.of_nat i). split.
    + split; [subst N; lia|]. intros Intn' HI.
      by apply (GetRandomQuote_index _ _ i).
    + intros r' [Hr' Hall].
      specialize (Hall (fun _ => r') eq_refl).
      apply GetRandomQuote_inv in Hall as [_ Hall]. simpl in Hall.
      apply NoDup_fmap_1 in Hnd.
      pose proof (NoDup_lookup _ _ _ _ Hnd Hi Hall). lia.
Qed.

Lemma random_one_index_per_quote_witness :
  let s := final trace_bruce New in
  let N := Z.of_nat (length (quotesList s)) in
  ((∃ q, GetRandomQuote Live (fun n => n - 1) s = Ret (q, Some ErrQuoteNotFound))
   ↔ quotesList s = [])
  ∧ (0 ≤ (fun n => n - 1) N < N →
     ∃ q, GetRandomQuote Live (fun n => n - 1) s = Ret (q, None)
          ∧ q ∈ quotesList s ∧ quotes s !! ID q = Some q)
  ∧ (∀ q, q ∈ quotesList s →
       exists ! r, 0 ≤ r < N
             ∧ ∀ Intn', Intn' N = r → GetRandomQuote Live Intn' s = Ret (q, None)).
Proof.
  apply (random_one_index_per_quote trace_bruce (fun n => n - 1)).
  vm_compute. reflexivity.
Defined.

Example random_examples :
  GetRandomQuote Live (fun _ => 0) New = Ret (zeroQuote, Some ErrQuoteNotFound)
  ∧ GetRandomQuote Live (fun _ => 0) (final trace_bruce New)
    = Ret (mkQuote 2 "Stay hungry." "Steve Jobs", None)
  ∧ GetRandomQuote Live (fun n => n - 1) (final trace_bruce New)
    = Ret (mkQuote 3 "The unexamined life is not worth living." "Socrates", None).
Proof. vm_compute. repeat split. Qed.

(** * Cancellation *)

(** C7, as stated, fails for [Close]: it takes no context, so under a
    caller whose context is already cancelled it still empties the store
    and reports no error. *)
Lemma Close_ignores_cancellation :
  let s := final [(Live, CallAdd "Be water, my friend." "Bruce Lee")] New in
  (exec (Done Canceled) CallClose s).2 ≠ s
  ∧ quotesList (exec (Done Canceled) CallClose s).2 = []
  ∧ resp_error (exec (Done Canceled) CallClose s).1 = None.
Proof.
  split; [|split; reflexivity].
  intros H. apply (f_equal nextID) in H. vm_compute in H. discriminate.
Qed.

(** C7, amended: every method that takes a context ([AddQuote],
    [GetAllQuotes], [GetRandomQuote], [GetQuotesByAuthor], [DeleteQuote]),
    called with a context that is already done, leaves the store as it
    was, returns the context's error, which is not [ErrQuoteNotFound], and
    returns the same whatever the store holds; [Close] takes no context
    and always resets the store. *)
Theorem cancelled_call_no_work (e : CtxErr) (c : Call) (s : Storage) :
  isClose c = false →
  (exec (Done e) c s).2 = s
  ∧ resp_error (exec (Done e) c s).1 = Some (CtxError e)
  ∧ CtxError e ≠ ErrQuoteNotFound
  ∧ (∀ s', (exec (Done e) c s').1 = (exec (Done e) c s).1)
  ∧ (∀ ctx, exec ctx CallClose s = (RespClose None, New)).
Proof.
  intros Hc. destruct c; try discriminate; repeat split; done.
Qed.

Lemma cancelled_call_no_work_witness :
  let s := final trace_bruce New in
  (exec (Done Canceled) (CallDelete 2) s).2 = s
  ∧ resp_error (exec (Done Canceled) (CallDelete 2) s).1
    = Some (CtxError Canceled)
  ∧ CtxError Canceled ≠ ErrQuoteNotFound
  ∧ (∀ s', (exec (Done Canceled) (CallDelete 2) s').1
           = (exec (Done Canceled) (CallDelete 2) s).1)
  ∧ (∀ ctx, exec ctx CallClose s = (RespClose None, New)).
Proof.
  apply (cancelled_call_no_work Canceled (CallDelete 2) (final trace_bruce New)).
  reflexivity.
Defined.

(** * Facts about the heap *)

Section MemFacts.

Variable growcap : nat → nat.

Lemma frame_refl o h : frame o h h.
Proof. split; [done|]. by intros. Qed.

Lemma fresh_not_dom (h : heap_t) : fresh (dom h) ∉ dom h.
Proof. apply is_fresh. Qed.

Lemma frame_insert_fresh o (h : heap_t) arr :
  frame o h (<[fresh (dom h) := arr]> h).
Proof.
  split.
  - rewrite dom_insert_L. set_solver.
  - intros l Hl _. rewrite lookup_insert_ne; [done|].
    intros <-. by apply (fresh_not_dom h).
Qed.

Lemma frame_alter (h : heap_t) f l :
  frame (Some l) h (alter f l h).
Proof.
  split.
  - by rewrite dom_alter_L.
  - intros l' Hl' Hne. rewrite lookup_alter_ne; [done|]. congruence.
Qed.

Lemma frame_trans o o' h1 h2 h3 :
  frame o h1 h2 → frame o' h2 h3 →
  (∀ l, l ∈ dom h1 → Some l = o' → Some l = o) →
  frame o h1 h3.
Proof.
  intros [Hd1 Hf1] [Hd2 Hf2] Ho. split; [set_solver|].
  intros l Hl Hne. rewrite Hf2; [by apply Hf1|set_solver|].
  intros Heq. apply Hne. by apply Ho.
Qed.

Lemma make_frame n c (h : heap_t) o :
  frame o h (Mem.make n c h).2
  ∧ Mem.base (Mem.make n c h).1 = Some (fresh (dom h))
  ∧ Mem.len (Mem.make n c h).1 = n
  ∧ Mem.cap (Mem.make n c h).1 = c
  ∧ (Mem.make n c h).2 !! fresh (dom h) = Some (replicate c zeroQuote).
Proof.
  unfold Mem.make. simpl. split; [apply frame_insert_fresh|].
  repeat split; try done. apply lookup_insert_eq.
Qed.

(** [append] writes to the array of its slice or to a new one; the slice
    it returns is on one of the two. *)
Lemma append_frame sl q (h : heap_t) :
  frame (Mem.base sl) h (Mem.append growcap sl q h).2
  ∧ (Mem.base (Mem.append growcap sl q h).1 = Mem.base sl
     ∨ ∃ l', Mem.base (Mem.append growcap sl q h).1 = Some l' ∧ l' ∉ dom h)
  ∧ (allocated h sl →
     allocated (Mem.append growcap sl q h).2 (Mem.append growcap sl q h).1).
Proof.
  unfold Mem.append. destruct (Mem.len sl <? Mem.cap sl)%nat; simpl.
  - split; [|split; [by left|]].
    + destruct (Mem.base sl) as [l|]; [apply frame_alter|apply frame_refl].
    + intros Ha l Hl. simpl in Hl. specialize (Ha l Hl).
      rewrite Hl. by rewrite dom_alter_L.
  - split; [apply frame_insert_fresh|]. split.
    + right. eexists. split; [done|apply fresh_not_dom].
    + intros _ l Hl. simpl in Hl. injection Hl as <-.
      rewrite dom_insert_L. set_solver.
Qed.

Lemma range_append_frame keep src idx : ∀ acc (h : heap_t) acc' h',
  Mem.range_append growcap keep src idx acc h = (acc', h') →
  frame (Mem.base acc) h h'
  ∧ (Mem.base acc' = Mem.base acc
     ∨ ∃ l', Mem.base acc' = Some l' ∧ l' ∉ dom h)
  ∧ (allocated h acc → allocated h' acc').
Proof.
  induction idx as [|i idx IH]; intros acc h acc' h' Hr; simpl in Hr.
  { injection Hr as <- <-. split; [apply frame_refl|]. split; [by left|done]. }
  destruct (Mem.array h src !! i) as [q|];
    [|injection Hr as <- <-; split; [apply frame_refl|]; split; [by left|done]].
  destruct (keep q); [|by apply IH].
  destruct (Mem.append growcap acc q h) as [acc1 h1] eqn:Happ.
  pose proof (append_frame acc q h) as (Hf & Hb & Ha).
  rewrite Happ in Hf, Hb, Ha. simpl in Hf, Hb, Ha.
  apply IH in Hr as (Hf' & Hb' & Ha').
  split; [|split].
  - eapply frame_trans; [exact Hf|exact Hf'|].
    intros l Hl Heq. destruct Hb as [Hb|(l' & Hl' & Hfr)]; [congruence|].
    rewrite Hl' in Heq. injection Heq as ->. done.
  - destruct Hb' as [Hb'|(l' & Hl' & Hfr)].
    + rewrite Hb'. destruct Hb as [Hb|(l' & Hl' & Hfr)]; [by left|].
      right. by exists l'.
    + right. exists l'. split; [done|]. destruct Hf as [Hd _].
      intros Hin. by apply Hfr, Hd.
  - auto.
Qed.

Lemma frame_apart l o (h h' : heap_t) :
  frame o h h' → l ∈ dom h → Some l ≠ o → l ∈ dom h' ∧ h' !! l = h !! l.
Proof. intros [Hd Hf] Hl Hne. split; [set_solver|by apply Hf]. Qed.

Lemma fresh_base_ne l (h : heap_t) : l ∈ dom h → Some l ≠ Some (fresh (dom h)).
Proof. intros Hl Heq. injection Heq as ->. by apply (fresh_not_dom h). Qed.

Lemma AddQuote_apart l ctx text author w :
  apart l w →
  apart l (Mem.AddQuote growcap ctx text author w).2
  ∧ Mem.heap (Mem.AddQuote growcap ctx text author w).2 !! l = Mem.heap w !! l.
Proof.
  intros [Hl Hne]. destruct ctx as [|e]; [|done]. unfold Mem.AddQuote.
  pose proof (append_frame (Mem.quotesList (Mem.store w))
                (mkQuote (Mem.nextID (Mem.store w)) text author) (Mem.heap w))
    as (Hf & Hb & _).
  destruct (Mem.append _ _ _ _) as [sl h']. simpl in *.
  destruct (frame_apart l _ _ _ Hf Hl Hne) as [Hd He].
  split; [split|]; try done. simpl.
  destruct Hb as [Hb|(l' & Hb & Hfr)]; rewrite Hb; [done|].
  intros Heq. injection Heq as ->. done.
Qed.

Lemma GetAllQuotes_apart l ctx w :
  apart l w →
  apart l (Mem.GetAllQuotes ctx w).2
  ∧ Mem.heap (Mem.GetAllQuotes ctx w).2 !! l = Mem.heap w !! l.
Proof.
  intros [Hl Hne]. destruct ctx as [|e]; [|done].
  unfold Mem.GetAllQuotes, Mem.make, Mem.copy. simpl.
  assert (Hfr : fresh (dom (Mem.heap w)) ≠ l)
    by (intros <-; by apply (fresh_not_dom (Mem.heap w))).
  split; [split; [|done]|]; simpl.
  - rewrite dom_alter_L, dom_insert_L. apply elem_of_union. by right.
  - rewrite lookup_alter_ne by done. by rewrite lookup_insert_ne.
Qed.

Lemma GetQuotesByAuthor_apart l ctx a w :
  apart l w →
  apart l (Mem.GetQuotesByAuthor growcap ctx a w).2
  ∧ Mem.heap (Mem.GetQuotesByAuthor growcap ctx a w).2 !! l = Mem.heap w !! l.
Proof.
  intros [Hl Hne]. destruct ctx as [|e]; [|done]. unfold Mem.GetQuotesByAuthor.
  destruct (Mem.range_append _ _ _ _ _ _) as [result h'] eqn:Hr.
  apply range_append_frame in Hr as (Hf & _ & _).
  destruct (frame_apart l _ _ _ Hf Hl) as [Hd He]; [done|].
  destruct (Mem.isNil result); simpl; [|done].
  split; [split; [|done]|]; simpl.
  - rewrite dom_insert_L. apply elem_of_union. by right.
  - rewrite lookup_insert_ne; [done|]. intros <-. by apply (fresh_not_dom h').
Qed.

Lemma DeleteQuote_apart l ctx id w :
  apart l w →
  apart l (Mem.DeleteQuote growcap ctx id w).2
  ∧ Mem.heap (Mem.DeleteQuote growcap ctx id w).2 !! l = Mem.heap w !! l.
Proof.
  intros [Hl Hne]. destruct ctx as [|e]; [|done]. unfold Mem.DeleteQuote.
  destruct (Mem.quotes (Mem.store w) !! id); [|done].
  set (c := if (0 <? Mem.len (Mem.quotesList (Mem.store w)))%nat
            then (Mem.len (Mem.quotesList (Mem.store w)) - 1)%nat else 0%nat).
  assert (Hmk : (if (0 <? Mem.len (Mem.quotesList (Mem.store w)))%nat
                 then Mem.make 0 (Mem.len (Mem.quotesList (Mem.store w)) - 1)
                        (Mem.heap w)
                 else Mem.make 0 0 (Mem.heap w))
                = Mem.make 0 c (Mem.heap w))
    by (subst c; by destruct (0 <? _)%nat).
  rewrite Hmk. clear Hmk.
  pose proof (make_frame 0 c (Mem.heap w) None) as (Hf1 & Hb1 & _).
  destruct (Mem.make 0 c (Mem.heap w)) as [newList h1]. simpl in Hf1, Hb1.
  destruct (Mem.range_append _ _ _ _ _ _) as [newList' h2] eqn:Hr.
  apply range_append_frame in Hr as (Hf2 & Hb2 & _). simpl.
  destruct (frame_apart l _ _ _ Hf1 Hl) as [Hd1 He1]; [done|].
  assert (Hne1 : Some l ≠ Mem.base newList)
    by (rewrite Hb1; by apply fresh_base_ne).
  destruct (frame_apart l _ _ _ Hf2 Hd1 Hne1) as [Hd2 He2].
  split; [split; [done|]|congruence]. simpl.
  destruct Hb2 as [Hb2|(l' & Hb2 & Hfr)]; rewrite Hb2; [done|].
  intros Heq. injection Heq as ->. done.
Qed.

Lemma Close_apart l w :
  apart l w →
  apart l (Mem.Close w).2 ∧ Mem.heap (Mem.Close w).2 !! l = Mem.heap w !! l.
Proof.
  intros [Hl Hne]. unfold Mem.Close, Mem.make. simpl.
  split; [split|]; simpl.
  - rewrite dom_insert_L. apply elem_of_union. by right.
  - by apply fresh_base_ne.
  - rewrite lookup_insert_ne; [done|].
    intros <-. by apply (fresh_not_dom (Mem.heap w)).
Qed.

Lemma exec_apart l ctx c w :
  apart l w →
  apart l (Mem.exec growcap ctx c w).2
  ∧ Mem.heap (Mem.exec growcap ctx c w).2 !! l = Mem.heap w !! l.
Proof.
  intros Ha. destruct c; unfold Mem.exec.
  - pose proof (AddQuote_apart l ctx text author w Ha) as H.
    by destruct (Mem.AddQuote _ _ _ _ _).
  - pose proof (GetAllQuotes_apart l ctx w Ha) as H.
    by destruct (Mem.GetAllQuotes _ _).
  - done.
  - pose proof (GetQuotesByAuthor_apart l ctx authorFilter w Ha) as H.
    by destruct (Mem.GetQuotesByAuthor _ _ _ _).
  - pose proof (DeleteQuote_apart l ctx id w Ha) as H.
    by destruct (Mem.DeleteQuote _ _ _ _).
  - pose proof (Close_apart l w Ha) as H.
    by destruct (Mem.Close _).
Qed.

Lemma mem_final_cons ctx c tr w :
  Mem.final growcap ((ctx, c) :: tr) w
  = Mem.final growcap tr (Mem.exec growcap ctx c w).2.
Proof.
  unfold Mem.final. simpl. destruct (Mem.exec growcap ctx c w) as [r w1].
  simpl. by destruct (Mem.run growcap tr w1).
Qed.

Lemma run_apart l tr : ∀ w,
  apart l w →
  apart l (Mem.final growcap tr w)
  ∧ Mem.heap (Mem.final growcap tr w) !! l = Mem.heap w !! l.
Proof.
  induction tr as [|[ctx c] tr IH]; intros w Ha; [done|].
  rewrite mem_final_cons.
  destruct (exec_apart l ctx c w Ha) as [Ha1 He1].
  destruct (IH _ Ha1) as [Ha2 He2]. split; [done|congruence].
Qed.

(** ** The heap model refines the model on lists *)

Lemma wf_slice_allocated h sl : wf_slice h sl → allocated h sl.
Proof.
  unfold wf_slice, allocated. intros Hwf l Hl. rewrite Hl in Hwf.
  destruct Hwf as (arr & Harr & _). apply elem_of_dom. by exists arr.
Qed.

Lemma wf_slice_length h sl :
  wf_slice h sl → length (Mem.elems h sl) = Mem.len sl.
Proof.
  unfold wf_slice, Mem.elems, Mem.array. destruct (Mem.base sl) as [l|].
  - intros (arr & -> & Hlen & Hle). simpl. rewrite length_take. lia.
  - intros [-> _]. done.
Qed.

Lemma elems_at (h : heap_t) l n c arr :
  h !! l = Some arr → Mem.elems h (Mem.mkSlice (Some l) n c) = take n arr.
Proof. unfold Mem.elems, Mem.array. simpl. by intros ->. Qed.

Lemma append_view sl q (h : heap_t) :
  wf_slice h sl →
  wf_slice (Mem.append growcap sl q h).2 (Mem.append growcap sl q h).1
  ∧ view (Mem.append growcap sl q h).2 (Mem.append growcap sl q h).1
    = go_append (view h sl) q.
Proof.
  intros Hwf. pose proof (wf_slice_length h sl Hwf) as Hlen.
  unfold Mem.append. destruct (Nat.ltb_spec (Mem.len sl) (Mem.cap sl)) as [Hlt|Hge].
  - unfold wf_slice, view, Mem.elems, Mem.array in *. simpl.
    destruct (Mem.base sl) as [l|]; [|lia].
    destruct Hwf as (arr & Harr & Hcap & Hle).
    rewrite lookup_alter_eq, Harr. simpl. split.
    + exists (<[Mem.len sl := q]> arr). rewrite length_insert.
      split; [done|]. split; [done|lia].
    + f_equal. rewrite (take_S_r _ _ q).
      * by rewrite take_insert_ge.
      * apply list_lookup_insert_eq. lia.
  - set (c := Nat.max (S (Mem.len sl)) (growcap (Mem.cap sl))).
    assert (Hc : (S (Mem.len sl) ≤ c)%nat) by (subst c; lia).
    simpl. split.
    + unfold wf_slice. simpl. rewrite lookup_insert_eq.
      eexists. split; [done|]. split; [|done].
      rewrite length_app, Hlen. simpl. rewrite length_replicate. lia.
    + unfold view at 1. simpl.
      rewrite (elems_at _ (fresh (dom h)) _ _ _ (lookup_insert_eq _ _ _)).
      rewrite take_app, Hlen.
      rewrite take_ge by lia.
      replace (S (Mem.len sl) - Mem.len sl)%nat with 1%nat by lia. simpl.
      unfold view. destruct (Mem.base sl) eqn:Hb; [done|].
      unfold Mem.elems, Mem.array. rewrite Hb. by rewrite take_nil.
Qed.

Lemma array_frame o (h h' : heap_t) src :
  frame o h h' → allocated h src →
  (∀ l, Mem.base src = Some l → Some l ≠ o) →
  Mem.array h' src = Mem.array h src.
Proof.
  intros [_ Hf] Ha Hsep. unfold Mem.array.
  destruct (Mem.base src) as [l|] eqn:Hb; [|done].
  rewrite Hf; [done|by apply Ha|by apply Hsep].
Qed.

Lemma wf_slice_frame o (h h' : heap_t) src :
  frame o h h' → (∀ l, Mem.base src = Some l → Some l ≠ o) →
  wf_slice h src → wf_slice h' src.
Proof.
  intros [_ Hf] Hsep Hwf. pose proof (wf_slice_allocated _ _ Hwf) as Ha.
  unfold wf_slice in *. destruct (Mem.base src) as [l|] eqn:Hb; [|done].
  rewrite Hf; [done|by apply Ha|by apply Hsep].
Qed.

Lemma allocated_frame o (h h' : heap_t) src :
  frame o h h' → allocated h src → allocated h' src.
Proof. intros [Hd _] Ha l Hl. apply Hd. by apply Ha. Qed.

Lemma view_go_append (h h' : heap_t) sl sl' q :
  wf_slice h sl → view h' sl' = go_append (view h sl) q →
  Mem.elems h' sl' = Mem.elems h sl ++ [q].
Proof.
  unfold view, wf_slice. intros Hwf Hv.
  destruct (Mem.base sl') as [l'|]; [|by destruct (Mem.base sl)].
  destruct (Mem.base sl) as [l|] eqn:Hb; simpl in Hv; injection Hv as ->; [done|].
  destruct Hwf as [Hlen _]. unfold Mem.elems. by rewrite Hlen.
Qed.

(** The loop of [range_append] is the fold of its body over the elements
    it visits, as long as it appends to an array other than the one it
    reads. *)
Lemma range_append_view keep src idx : ∀ acc (h : heap_t) acc' h',
  Mem.range_append growcap keep src idx acc h = (acc', h') →
  wf_slice h acc → allocated h src →
  (∀ l, Mem.base src = Some l → Some l ≠ Mem.base acc) →
  Forall (fun i => is_Some (Mem.array h src !! i)) idx →
  wf_slice h' acc'
  ∧ view h' acc'
    = fold_left (fun r q => if keep q then go_append r q else r)
        (omap (fun i => Mem.array h src !! i) idx) (view h acc)
  ∧ frame (Mem.base acc) h h'
  ∧ (∀ l, Mem.base src = Some l → Some l ≠ Mem.base acc').
Proof.
  induction idx as [|i idx IH]; intros acc h acc' h' Hr Hwf Ha Hsep Hidx;
    simpl in Hr.
  { injection Hr as <- <-. repeat split; try done. }
  apply Forall_cons in Hidx as [[q Hq] Hidx]. simpl. rewrite Hq in *.
  destruct (keep q) eqn:Hk.
  - destruct (Mem.append growcap acc q h) as [acc1 h1] eqn:Happ.
    pose proof (append_view acc q h Hwf) as [Hwf1 Hv1].
    pose proof (append_frame acc q h) as (Hf1 & Hb1 & _).
    rewrite Happ in Hwf1, Hv1, Hf1, Hb1. simpl in Hwf1, Hv1, Hf1, Hb1.
    assert (Hsep1 : ∀ l, Mem.base src = Some l → Some l ≠ Mem.base acc1).
    { intros l Hl. destruct Hb1 as [Hb1|(l' & Hb1 & Hfr)]; rewrite Hb1.
      - by apply Hsep.
      - intros Heq. injection Heq as ->. apply Hfr. by apply Ha. }
    assert (Harr : Mem.array h1 src = Mem.array h src)
      by (by apply (array_frame (Mem.base acc))).
    apply IH in Hr as (Hwf' & Hv' & Hf' & Hsep'); try done.
    + rewrite Harr, Hv1 in Hv'. split; [done|].
      split; [simpl; rewrite Hk; exact Hv'|]. split; [|done].
      eapply frame_trans; [exact Hf1|exact Hf'|].
      intros l Hl Heq. destruct Hb1 as [Hb1|(l' & Hb1 & Hfr)]; [congruence|].
      rewrite Hb1 in Heq. injection Heq as ->. done.
    + by apply (allocated_frame (Mem.base acc) h).
    + by rewrite Harr.
  - apply IH in Hr as (Hwf' & Hv' & Hf' & Hsep'); try done.
    split; [done|]. split; [simpl; rewrite Hk; exact Hv'|]. done.
Qed.

Lemma omap_lookup_seq {A : Type} (l : list A) (n : nat) :
  omap (fun i => l !! i) (seq 0 n) = take n l.
Proof.
  induction n as [|n IH]; [done|].
  rewrite seq_S, omap_app, IH. simpl.
  destruct (l !! n) as [x|] eqn:Hx.
  - by rewrite (take_S_r _ _ x).
  - apply lookup_ge_None in Hx. rewrite !take_ge by lia. apply app_nil_r.
Qed.

Lemma wf_slice_indices (h : heap_t) src :
  wf_slice h src →
  Forall (fun i => is_Some (Mem.array h src !! i)) (seq 0 (Mem.len src)).
Proof.
  unfold wf_slice, Mem.array. intros Hwf. apply Forall_forall. intros i Hi.
  apply elem_of_seq in Hi. destruct (Mem.base src) as [l|].
  - destruct Hwf as (arr & -> & Hlen & Hle). simpl.
    apply lookup_lt_is_Some. lia.
  - lia.
Qed.

(** The loop over a whole slice, as a fold over its elements. *)
Lemma range_append_all keep src acc (h : heap_t) acc' h' :
  Mem.range_append growcap keep src (seq 0 (Mem.len src)) acc h = (acc', h') →
  wf_slice h acc → wf_slice h src →
  (∀ l, Mem.base src = Some l → Some l ≠ Mem.base acc) →
  wf_slice h' acc' ∧ wf_slice h' src
  ∧ view h' acc'
    = fold_left (fun r q => if keep q then go_append r q else r)
        (Mem.elems h src) (view h acc)
  ∧ Mem.elems h' src = Mem.elems h src
  ∧ (∀ l, Mem.base src = Some l → Some l ≠ Mem.base acc').
Proof.
  intros Hr Hwf Hsrc Hsep.
  apply range_append_view in Hr as (Hwf' & Hv & Hf & Hsep'); try done.
  - rewrite omap_lookup_seq in Hv. split; [done|].
    split; [by apply (wf_slice_frame (Mem.base acc) h)|]. split; [done|].
    split; [|done]. unfold Mem.elems.
    rewrite (array_frame (Mem.base acc) h h'); try done.
    by apply wf_slice_allocated.
  - by apply wf_slice_allocated.
  - by apply wf_slice_indices.
Qed.

Lemma make_wf n c (h : heap_t) :
  (n ≤ c)%nat →
  wf_slice (Mem.make n c h).2 (Mem.make n c h).1
  ∧ Mem.elems (Mem.make n c h).2 (Mem.make n c h).1 = replicate n zeroQuote.
Proof.
  intros Hn. unfold Mem.make. simpl. split.
  - unfold wf_slice. simpl. rewrite lookup_insert_eq.
    eexists. split; [done|]. by rewrite length_replicate.
  - rewrite (elems_at _ _ _ _ _ (lookup_insert_eq _ _ _)).
    rewrite take_replicate. f_equal. lia.
Qed.

Lemma sim_New (h0 : heap_t) : world_wf (Mem.New h0) ∧ abs (Mem.New h0) = New.
Proof.
  destruct (make_wf 0 0 h0) as [Hwf He]; [lia|].
  unfold Mem.New, world_wf, abs.
  destruct (Mem.make 0 0 h0) as [sl h']. simpl in *. by rewrite He.
Qed.

Lemma sim_AddQuote ctx text author w :
  world_wf w →
  world_wf (Mem.AddQuote growcap ctx text author w).2
  ∧ abs (Mem.AddQuote growcap ctx text author w).2
    = (AddQuote ctx text author (abs w)).2
  ∧ (Mem.AddQuote growcap ctx text author w).1
    = (AddQuote ctx text author (abs w)).1.
Proof.
  intros Hwf. destruct ctx as [|e]; [|done].
  unfold Mem.AddQuote, world_wf, abs in *.
  pose proof (append_view (Mem.quotesList (Mem.store w))
                (mkQuote (Mem.nextID (Mem.store w)) text author)
                (Mem.heap w) Hwf) as [Hwf' Hv].
  destruct (Mem.append _ _ _ _) as [sl h']. simpl in *.
  split; [done|]. split; [|done].
  f_equal. by apply view_go_append.
Qed.

Lemma sim_GetAllQuotes ctx w :
  world_wf w →
  world_wf (Mem.GetAllQuotes ctx w).2
  ∧ abs (Mem.GetAllQuotes ctx w).2 = abs w
  ∧ (view (Mem.heap (Mem.GetAllQuotes ctx w).2) (Mem.GetAllQuotes ctx w).1.1,
     (Mem.GetAllQuotes ctx w).1.2)
    = GetAllQuotes ctx (abs w).
Proof.
  intros Hwf. destruct ctx as [|e]; [|done].
  rewrite GetAllQuotes_live.
  unfold Mem.GetAllQuotes, world_wf, abs in *.
  set (src := Mem.quotesList (Mem.store w)) in *.
  set (h := Mem.heap w) in *.
  pose proof (wf_slice_allocated _ _ Hwf) as Ha.
  pose proof (make_frame (Mem.len src) (Mem.len src) h (Some (fresh (dom h))))
    as (Hf1 & Hb & Hl & Hc & Hlk).
  destruct (Mem.make (Mem.len src) (Mem.len src) h) as [listCopy h1] eqn:Hmk.
  simpl in Hf1, Hb, Hl, Hc, Hlk.
  assert (Hsep : ∀ l, Mem.base src = Some l → l ≠ fresh (dom h)).
  { intros l Hbl ->. apply (fresh_not_dom h). by apply Ha. }
  assert (Hf2 : frame (Some (fresh (dom h))) h (Mem.copy listCopy src h1)).
  { unfold Mem.copy. rewrite Hb.
    eapply frame_trans; [exact Hf1|apply frame_alter|].
    intros l Hin Heq. injection Heq as ->. by destruct (fresh_not_dom h). }
  assert (Harr1 : Mem.array h1 src = Mem.array h src).
  { apply (array_frame (Some (fresh (dom h))) h); [done|done|].
    intros l Hbl Heq. injection Heq as ->. by apply (Hsep _ Hbl). }
  simpl. split; [|split].
  - apply (wf_slice_frame (Some (fresh (dom h))) h); [done| |done].
    intros l Hbl Heq. injection Heq as ->. by apply (Hsep _ Hbl).
  - f_equal. unfold Mem.elems. f_equal.
    apply (array_frame (Some (fresh (dom h))) h); [done|done|].
    intros l Hbl Heq. injection Heq as ->. by apply (Hsep _ Hbl).
  - f_equal. unfold view. rewrite Hb. f_equal.
    unfold Mem.elems, Mem.array at 1, Mem.copy. rewrite Hb, Hl.
    rewrite lookup_alter_eq, Hlk. simpl. rewrite Harr1, Nat.min_id.
    rewrite drop_replicate, Nat.sub_diag. simpl. rewrite app_nil_r.
    apply take_idemp.
Qed.

Lemma sim_GetRandomQuote ctx Intn w :
  world_wf w →
  Mem.GetRandomQuote ctx Intn w = GetRandomQuote ctx Intn (abs w).
Proof.
  intros Hwf. destruct ctx as [|e]; [|done].
  unfold Mem.GetRandomQuote, GetRandomQuote, abs. simpl.
  rewrite (wf_slice_length _ _ Hwf).
  destruct (_ =? 0); [done|].
  set (r := Intn _).
  destruct (Z.leb_spec 0 r); [|done].
  destruct (Z.ltb_spec r (Z.of_nat (Mem.len (Mem.quotesList (Mem.store w)))));
    [|done].
  simpl. unfold Mem.elems. rewrite lookup_take_lt by lia. done.
Qed.

Lemma view_nil (h : heap_t) sl : Mem.isNil sl = true → view h sl = None.
Proof. unfold Mem.isNil, view. by destruct (Mem.base sl). Qed.

Lemma view_not_nil (h : heap_t) sl :
  Mem.isNil sl = false → view h sl = Some (Mem.elems h sl).
Proof. unfold Mem.isNil, view. by destruct (Mem.base sl). Qed.

Lemma sim_GetQuotesByAuthor ctx a w :
  world_wf w →
  world_wf (Mem.GetQuotesByAuthor growcap ctx a w).2
  ∧ abs (Mem.GetQuotesByAuthor growcap ctx a w).2 = abs w
  ∧ (view (Mem.heap (Mem.GetQuotesByAuthor growcap ctx a w).2)
       (Mem.GetQuotesByAuthor growcap ctx a w).1.1,
     (Mem.GetQuotesByAuthor growcap ctx a w).1.2)
    = GetQuotesByAuthor ctx a (abs w).
Proof.
  intros Hwf. destruct ctx as [|e]; [|done].
  unfold Mem.GetQuotesByAuthor, GetQuotesByAuthor, world_wf, abs in *.
  set (src := Mem.quotesList (Mem.store w)) in *.
  set (h := Mem.heap w) in *. cbn [quotesList].
  destruct (Mem.range_append _ _ _ _ _ _) as [result h'] eqn:Hr.
  apply range_append_all in Hr as (Hwf' & Hsrc' & Hv & He & _);
    [|done|done|done].
  change (view h Mem.nilSlice) with (@None (list Quote)) in Hv.
  rewrite <- Hv. destruct (Mem.isNil result) eqn:Hnil.
  - rewrite (view_nil _ _ Hnil).
    pose proof (make_frame 0 0 h' (Some (fresh (dom h'))))
      as (Hf & Hb & _ & _ & _).
    destruct (make_wf 0 0 h') as [Hwfm Hem]; [lia|].
    destruct (Mem.make 0 0 h') as [empty h2]. simpl in *.
    pose proof (wf_slice_allocated _ _ Hsrc') as Ha.
    assert (Hsep : ∀ l, Mem.base src = Some l → Some l ≠ Some (fresh (dom h'))).
    { intros l Hbl Heq. injection Heq as ->.
      apply (fresh_not_dom h'). by apply Ha. }
    split; [by apply (wf_slice_frame (Some (fresh (dom h'))) h')|].
    split.
    + f_equal. rewrite <- He. unfold Mem.elems. f_equal.
      by apply (array_frame (Some (fresh (dom h'))) h').
    + unfold view. rewrite Hb. by rewrite Hem.
  - simpl. rewrite (view_not_nil _ _ Hnil).
    split; [done|]. split; [f_equal; exact He|done].
Qed.

Lemma fold_go_append_Some (keep : Quote → bool) (l a : list Quote) :
  fold_left (fun r q => if keep q then go_append r q else r) l (Some a)
  = Some (fold_left (fun r q => if keep q then r ++ [q] else r) l a).
Proof.
  revert a. induction l as [|q l IH]; intros a; [done|].
  simpl. destruct (keep q); apply IH.
Qed.

Lemma sim_DeleteQuote ctx id w :
  world_wf w →
  world_wf (Mem.DeleteQuote growcap ctx id w).2
  ∧ abs (Mem.DeleteQuote growcap ctx id w).2 = (DeleteQuote ctx id (abs w)).2
  ∧ (Mem.DeleteQuote growcap ctx id w).1 = (DeleteQuote ctx id (abs w)).1.
Proof.
  intros Hwf. destruct ctx as [|e]; [|done].
  unfold Mem.DeleteQuote, DeleteQuote, world_wf, abs in *.
  set (src := Mem.quotesList (Mem.store w)) in *.
  set (h := Mem.heap w) in *. cbn [quotes quotesList nextID].
  destruct (Mem.quotes (Mem.store w) !! id); [|done].
  set (c := if (0 <? Mem.len src)%nat then (Mem.len src - 1)%nat else 0%nat).
  assert (Hmk : (if (0 <? Mem.len src)%nat
                 then Mem.make 0 (Mem.len src - 1) h
                 else Mem.make 0 0 h)
                = Mem.make 0 c h)
    by (subst c; by destruct (0 <? _)%nat).
  rewrite Hmk. clear Hmk.
  pose proof (make_frame 0 c h (Some (fresh (dom h)))) as (Hf & Hb & _ & _ & _).
  destruct (make_wf 0 c h) as [Hwfm Hem]; [lia|].
  destruct (Mem.make 0 c h) as [newList h1]. simpl in Hf, Hb, Hwfm, Hem.
  pose proof (wf_slice_allocated _ _ Hwf) as Ha.
  assert (Hsep : ∀ l, Mem.base src = Some l → Some l ≠ Mem.base newList).
  { intros l Hbl Heq. rewrite Hb in Heq. injection Heq as ->.
    apply (fresh_not_dom h). by apply Ha. }
  assert (Hsrc1 : wf_slice h1 src).
  { apply (wf_slice_frame (Some (fresh (dom h))) h); [done| |done].
    by rewrite <- Hb. }
  assert (He1 : Mem.elems h1 src = Mem.elems h src).
  { unfold Mem.elems. f_equal.
    apply (array_frame (Some (fresh (dom h))) h); [done|done|].
    by rewrite <- Hb. }
  destruct (Mem.range_append _ _ _ _ _ _) as [newList' h2] eqn:Hr.
  apply range_append_all in Hr as (Hwf' & _ & Hv & _ & _); [|done..].
  assert (Hvm : view h1 newList = Some []).
  { unfold view. rewrite Hb. by rewrite Hem. }
  rewrite Hvm, fold_go_append_Some, He1 in Hv. simpl.
  split; [done|]. split; [|done]. f_equal.
  unfold view in Hv. destruct (Mem.base newList'); [|done]. by injection Hv.
Qed.

Lemma sim_Close w :
  world_wf (Mem.Close w).2
  ∧ abs (Mem.Close w).2 = (Close (abs w)).2
  ∧ (Mem.Close w).1 = (Close (abs w)).1.
Proof.
  destruct (make_wf 0 0 (Mem.heap w)) as [Hwf He]; [lia|].
  unfold Mem.Close, world_wf, abs.
  destruct (Mem.make 0 0 (Mem.heap w)) as [sl h']. simpl in *.
  by rewrite He.
Qed.

(** Every call does on the heap what it does on lists. *)
Lemma sim_exec ctx c w :
  world_wf w →
  world_wf (Mem.exec growcap ctx c w).2
  ∧ abs (Mem.exec growcap ctx c w).2 = (exec ctx c (abs w)).2
  ∧ abs_resp (Mem.heap (Mem.exec growcap ctx c w).2)
      (Mem.exec growcap ctx c w).1
    = (exec ctx c (abs w)).1.
Proof.
  intros Hwf. destruct c; unfold Mem.exec, exec.
  - destruct (sim_AddQuote ctx text author w Hwf) as (H1 & H2 & H3).
    destruct (Mem.AddQuote _ _ _ _ _) as [r w'].
    destruct (AddQuote _ _ _ _) as [r0 s0]. simpl in *. by subst.
  - destruct (sim_GetAllQuotes ctx w Hwf) as (H1 & H2 & H3).
    destruct (Mem.GetAllQuotes _ _) as [[sl e] w']. simpl in *.
    by rewrite H3.
  - simpl. by rewrite sim_GetRandomQuote.
  - destruct (sim_GetQuotesByAuthor ctx authorFilter w Hwf) as (H1 & H2 & H3).
    destruct (Mem.GetQuotesByAuthor _ _ _ _) as [[sl e] w']. simpl in *.
    by rewrite H3.
  - destruct (sim_DeleteQuote ctx id w Hwf) as (H1 & H2 & H3).
    destruct (Mem.DeleteQuote _ _ _ _) as [r w'].
    destruct (DeleteQuote _ _ _) as [r0 s0]. simpl in *. by subst.
  - destruct (sim_Close w) as (H1 & H2 & H3).
    destruct (Mem.Close _) as [r w']. simpl in *. by subst.
Qed.

Lemma sim_run tr : ∀ w,
  world_wf w →
  world_wf (Mem.final growcap tr w)
  ∧ abs (Mem.final growcap tr w) = final tr (abs w).
Proof.
  induction tr as [|[ctx c] tr IH]; intros w Hwf; [done|].
  rewrite mem_final_cons, final_cons.
  destruct (sim_exec ctx c w Hwf) as (Hwf1 & Habs & _).
  rewrite <- Habs. by apply IH.
Qed.

Lemma reachable_world (h0 : heap_t) tr :
  world_wf (Mem.final growcap tr (Mem.New h0))
  ∧ abs (Mem.final growcap tr (Mem.New h0)) = final tr New.
Proof.
  destruct (sim_New h0) as [Hwf Habs].
  destruct (sim_run tr _ Hwf) as [Hwf' Habs']. by rewrite <- Habs.
Qed.

(** The slice [GetAllQuotes] returns is on an array of its own. *)
Lemma GetAllQuotes_fresh w :
  world_wf w →
  ∃ l, Mem.base (Mem.GetAllQuotes Live w).1.1 = Some l
       ∧ (l ∉ dom (Mem.heap w))
       ∧ apart l (Mem.GetAllQuotes Live w).2.
Proof.
  intros Hwf. apply wf_slice_allocated in Hwf.
  exists (fresh (dom (Mem.heap w))).
  unfold Mem.GetAllQuotes, Mem.make, Mem.copy, apart. simpl.
  split; [done|]. split; [apply fresh_not_dom|]. split.
  - rewrite dom_alter_L, dom_insert_L. apply elem_of_union. left.
    by apply elem_of_singleton.
  - intros Heq. apply (fresh_not_dom (Mem.heap w)). by apply Hwf.
Qed.

(** C8: [GetAllQuotes], called under a live context in any state the
    store can reach, returns no error and a non-nil slice whose elements
    are the stored quotes in insertion order (the list of the store at
    the time of the call, empty when the store is empty). The slice does
    not alias the storage of the store: its array is allocated by the
    call (it is not in the heap before), it is not the array of the
    store's list, and after whatever calls follow ([AddQuote],
    [DeleteQuote], [Close] and the others) it is still not the array of
    the store's list, no cell of it has been written, and the elements of
    the slice are what they were. *)
Theorem snapshot_not_aliased (h0 : heap_t) (tr0 tr : list (Context * Call)) :
  let w := Mem.final growcap tr0 (Mem.New h0) in
  let sl := (Mem.GetAllQuotes Live w).1.1 in
  let w1 := (Mem.GetAllQuotes Live w).2 in
  let w2 := Mem.final growcap tr w1 in
  (Mem.GetAllQuotes Live w).1.2 = None
  ∧ Mem.isNil sl = false
  ∧ Mem.len sl = length (quotesList (final tr0 New))
  ∧ Mem.elems (Mem.heap w1) sl = quotesList (final tr0 New)
  ∧ Mem.elems (Mem.heap w2) sl = Mem.elems (Mem.heap w1) sl
  ∧ ∃ l, Mem.base sl = Some l
         ∧ (l ∉ dom (Mem.heap w))
         ∧ Some l ≠ Mem.base (Mem.quotesList (Mem.store w))
         ∧ Some l ≠ Mem.base (Mem.quotesList (Mem.store w1))
         ∧ Some l ≠ Mem.base (Mem.quotesList (Mem.store w2))
         ∧ Mem.heap w2 !! l = Mem.heap w1 !! l.
Proof.
  intros w sl w1 w2.
  destruct (reachable_world h0 tr0) as [Hwf Habs]. fold w in Hwf, Habs.
  destruct (sim_GetAllQuotes Live w Hwf) as (_ & _ & Hv).
  destruct (GetAllQuotes_fresh w Hwf) as (l & Hb & Hnew & Hap).
  fold sl in Hv, Hb. fold w1 in Hv, Hap.
  rewrite GetAllQuotes_live, Habs in Hv. injection Hv as Hv.
  change (Mem.elems (Mem.heap w1) sl = quotesList (final tr0 New)) in Hv.
  destruct (run_apart l tr w1 Hap) as [[_ Hne2] Hsame]. fold w2 in Hne2, Hsame.
  split; [done|]. split; [unfold Mem.isNil; by rewrite Hb|].
  split; [|split; [done|split]].
  - rewrite <- Habs. unfold abs. simpl.
    rewrite (wf_slice_length _ _ Hwf). reflexivity.
  - unfold Mem.elems, Mem.array. by rewrite Hb, Hsame.
  - exists l. split; [done|]. split; [done|]. split.
    + intros Heq. apply Hnew. apply (wf_slice_allocated _ _ Hwf). done.
    + split; [apply Hap|]. split; done.
Qed.

End MemFacts.

Example snapshot_survives :
  let grow := fun c => (2 * c)%nat in
  let w := Mem.final grow trace_bruce (Mem.New ∅) in
  let sl := (Mem.GetAllQuotes Live w).1.1 in
  let w1 := (Mem.GetAllQuotes Live w).2 in
  let w2 :=
    Mem.final grow
      [ (Live, CallAdd "x" "y"); (Live, CallDelete 2); (Live, CallClose) ] w1 in
  Mem.elems (Mem.heap w1) sl
  = [ mkQuote 2 "Stay hungry." "Steve Jobs";
      mkQuote 3 "The unexamined life is not worth living." "Socrates" ]
  ∧ Mem.elems (Mem.heap w2) sl = Mem.elems (Mem.heap w1) sl
  ∧ Mem.elems (Mem.heap w2) (Mem.quotesList (Mem.store w2)) = [].
Proof. vm_compute. repeat split. Qed.

(** * Further properties of the store *)

Lemma StronglySorted_filter {A : Type} (R : A → A → Prop) (P : A → Prop)
    `{!∀ x, Decision (P x)} (l : list A) :
  StronglySorted R l → StronglySorted R (filter P l).
Proof.
  induction l as [|x l IH]; intros Hs; [constructor|].
  apply StronglySorted_cons in Hs as [Hx Hs].
  rewrite filter_cons. destruct (decide (P x)); [|by apply IH].
  apply StronglySorted_cons. split; [|by apply IH].
  apply Forall_forall. intros y Hy. apply list_elem_of_filter in Hy as [_ Hy].
  rewrite Forall_forall in Hx. by apply Hx.
Qed.

Lemma fmap_ID_filter (id : Z) (l : list Quote) :
  ID <$> filter (fun q => ID q ≠ id) l = filter (fun k => k ≠ id) (ID <$> l).
Proof.
  induction l as [|q l IH]; [done|].
  rewrite fmap_cons, !filter_cons.
  destruct (decide (ID q ≠ id)); [rewrite fmap_cons|]; by rewrite IH.
Qed.

Lemma ids_ordered_exec n ctx c s :
  store_wf n s → ids_ordered s → ids_ordered (exec ctx c s).2.
Proof.
  intros (_ & Hb & Hr) [Hs Hp]. destruct c; try done.
  - destruct ctx as [|e]; [|done]. unfold exec. rewrite AddQuote_live.
    unfold ids_ordered. cbn [snd quotesList]. split.
    + rewrite fmap_app. apply StronglySorted_app. split; [|split; [done|]].
      * intros x1 x2 Hx1 Hx2. apply list_elem_of_singleton in Hx2. subst x2.
        apply list_elem_of_fmap in Hx1 as (q & -> & Hq).
        unfold ids_below in Hb. rewrite Forall_forall in Hb. by apply Hb.
      * simpl. repeat constructor.
    + apply Forall_app. split; [done|]. constructor; [simpl; lia|constructor].
  - destruct ctx as [|e]; [|done]. unfold exec.
    destruct (quotes s !! id) as [q0|] eqn:Hlk;
      [rewrite (DeleteQuote_found _ _ _ Hlk)|by rewrite DeleteQuote_missing].
    unfold ids_ordered. cbn [snd quotesList]. split.
    + rewrite fmap_ID_filter. by apply StronglySorted_filter.
    + apply Forall_forall. intros q Hq.
      apply list_elem_of_filter in Hq as [_ Hq].
      rewrite Forall_forall in Hp. by apply Hp.
  - split; constructor.
Qed.

Lemma ids_ordered_run tr : ∀ n s,
  store_wf n s → ids_ordered s → Z.of_nat (n + length tr) < int64_max →
  ids_ordered (final tr s).
Proof.
  induction tr as [|[ctx c] tr IH]; intros n s Hwf Ho Hn; [done|].
  simpl in Hn. rewrite final_cons. apply (IH (S n)).
  - apply store_wf_exec; [done|lia].
  - by apply (ids_ordered_exec n).
  - rewrite <- Nat.add_succ_comm in Hn. done.
Qed.

(** X1: in every state the store reaches from [New] (fewer than
    [int64_max] calls), the quotes of the list, which is what
    [GetAllQuotes] returns, come in strictly increasing order of id, and
    every id is at least 1 and below the counter. *)
Theorem list_in_id_order (tr : list (Context * Call)) :
  Z.of_nat (length tr) < int64_max →
  let s := final tr New in
  GetAllQuotes Live s = (Some (quotesList s), None)
  ∧ StronglySorted Z.lt (ID <$> quotesList s)
  ∧ Forall (fun q => 1 ≤ ID q < nextID s) (quotesList s).
Proof.
  intros Hn s. split; [apply GetAllQuotes_live|].
  destruct (ids_ordered_run tr 0 New store_wf_New) as [Hs Hp];
    [split; constructor|done|].
  destruct (store_wf_reachable tr Hn) as (_ & Hb & _).
  split; [done|]. unfold ids_below in Hb. fold s in Hb, Hp.
  rewrite Forall_forall in *. intros q Hq.
  specialize (Hb q Hq). specialize (Hp q Hq). lia.
Qed.

Lemma list_in_id_order_witness :
  let s := final trace_bruce New in
  GetAllQuotes Live s = (Some (quotesList s), None)
  ∧ StronglySorted Z.lt (ID <$> quotesList s)
  ∧ Forall (fun q => 1 ≤ ID q < nextID s) (quotesList s).
Proof. apply (list_in_id_order trace_bruce). vm_compute. reflexivity. Defined.

(** X2: when the store invariant holds, the map has as many entries as
    the list has quotes. *)
Theorem map_size_is_list_length (s : Storage) :
  store_invariant s → size (quotes s) = length (quotesList s).
Proof.
  intros [Hc Hnd].
  rewrite <- (length_fmap ID), <- (size_dom (D := gset Z)).
  unfold size, set_size. simpl. apply Permutation_length.
  apply NoDup_Permutation; [apply NoDup_elements|done|].
  intros k. rewrite elem_of_elements, elem_of_dom, list_elem_of_fmap. split.
  - intros [q Hq]. apply Hc in Hq as [Hin Hid]. by exists q.
  - intros (q & -> & Hin). exists q. by apply Hc.
Qed.

Lemma map_size_is_list_length_witness :
  size (quotes (final trace_bruce New))
  = length (quotesList (final trace_bruce New)).
Proof.
  apply (map_size_is_list_length (final trace_bruce New)).
  apply (store_wf_reachable trace_bruce). vm_compute. reflexivity.
Defined.

Lemma filter_all {A : Type} (P : A → Prop) `{!∀ x, Decision (P x)} (l : list A) :
  (∀ x, x ∈ l → P x) → filter P l = l.
Proof.
  induction l as [|x l IH]; intros Hall; [done|].
  rewrite filter_cons_True by (apply Hall; by left).
  f_equal. apply IH. intros y Hy. apply Hall. by right.
Qed.

Lemma store_wf_next_free n s : store_wf n s → quotes s !! nextID s = None.
Proof.
  intros Hwf. destruct (quotes s !! nextID s) as [q|] eqn:Hlk; [|done].
  destruct Hwf as ((Hc & _) & Hb & _). apply Hc in Hlk as [Hin Hid].
  unfold ids_below in Hb. rewrite Forall_forall in Hb.
  specialize (Hb q Hin). lia.
Qed.

(** X3: in a reachable state, deleting the quote just added, by the id
    [AddQuote] returned, succeeds and puts the map and the list back as
    they were before the [AddQuote]; only the counter has moved, by one:
    the id is not handed out again. *)
Theorem add_then_delete_restores (tr : list (Context * Call)) (t a : string) :
  Z.of_nat (length tr) + 1 < int64_max →
  let s := final tr New in
  let added := AddQuote Live t a s in
  let deleted := DeleteQuote Live added.1.1 added.2 in
  added.1 = (nextID s, None)
  ∧ deleted.1 = None
  ∧ quotes deleted.2 = quotes s
  ∧ quotesList deleted.2 = quotesList s
  ∧ nextID deleted.2 = nextID s + 1.
Proof.
  intros Hn s added deleted. subst added deleted.
  assert (Hwf : store_wf (length tr) s) by (apply store_wf_reachable; lia).
  pose proof (store_wf_next_free _ _ Hwf) as Hfree.
  assert (Hfresh : ∀ q, q ∈ quotesList s → ID q ≠ nextID s)
    by (intros q Hq; by eapply store_wf_fresh).
  destruct Hwf as (_ & _ & Hr).
  rewrite AddQuote_live. cbn [fst snd].
  rewrite (DeleteQuote_found _ (mkQuote (nextID s) t a))
    by (simpl; apply lookup_insert_eq).
  cbn [fst snd quotes quotesList nextID].
  split; [done|]. split; [done|]. split; [by apply delete_insert_id|]. split.
  - rewrite filter_app, filter_all by done.
    rewrite filter_cons_False by (simpl; by intros ?). apply app_nil_r.
  - apply wrap64_small. unfold int64_min, int64_max in *. lia.
Qed.

Lemma add_then_delete_restores_witness :
  let s := final trace_bruce New in
  let added := AddQuote Live "Know thyself." "Socrates" s in
  let deleted := DeleteQuote Live added.1.1 added.2 in
  added.1 = (nextID s, None)
  ∧ deleted.1 = None
  ∧ quotes deleted.2 = quotes s
  ∧ quotesList deleted.2 = quotesList s
  ∧ nextID deleted.2 = nextID s + 1.
Proof.
  apply (add_then_delete_restores trace_bruce "Know thyself." "Socrates").
  vm_compute. reflexivity.
Defined.

Lemma random_never_panics_aux (ctx : Context) (Intn : Z → Z) (s : Storage) :
  (∀ n, 0 < n → 0 ≤ Intn n < n) → GetRandomQuote ctx Intn s ≠ Panic.
Proof.
  intros HI. destruct ctx as [|e]; [|done]. unfold GetRandomQuote.
  destruct (Z.eqb_spec (Z.of_nat (length (quotesList s))) 0) as [|Hne];
    [done|].
  specialize (HI (Z.of_nat (length (quotesList s))) ltac:(lia)).
  destruct (Z.leb_spec 0 (Intn (Z.of_nat (length (quotesList s))))); [|lia].
  destruct (Z.ltb_spec (Intn (Z.of_nat (length (quotesList s))))
              (Z.of_nat (length (quotesList s)))); [|lia].
  simpl.
  destruct (lookup_lt_is_Some_2 (quotesList s)
              (Z.to_nat (Intn (Z.of_nat (length (quotesList s))))))
    as [q Hq]; [lia|].
  by rewrite Hq.
Qed.

(** X4: in any state of the store, as long as [rand.Intn n] answers within
    [0, n) for positive [n], [GetRandomQuote] does not index outside the
    list: it never panics, and what it returns without error is a quote of
    the list. *)
Theorem random_never_panics (ctx : Context) (Intn : Z → Z) (s : Storage) :
  (∀ n, 0 < n → 0 ≤ Intn n < n) →
  GetRandomQuote ctx Intn s ≠ Panic
  ∧ ∀ q, GetRandomQuote ctx Intn s = Ret (q, None) → q ∈ quotesList s.
Proof.
  intros HI. destruct ctx as [|e]; [|split; [done|discriminate]].
  split.
  - unfold GetRandomQuote.
    destruct (Z.eqb_spec (Z.of_nat (length (quotesList s))) 0) as [|Hne];
      [done|].
    specialize (HI (Z.of_nat (length (quotesList s))) ltac:(lia)).
    destruct (Z.leb_spec 0 (Intn (Z.of_nat (length (quotesList s))))); [|lia].
    destruct (Z.ltb_spec (Intn (Z.of_nat (length (quotesList s))))
                (Z.of_nat (length (quotesList s)))); [|lia].
    simpl.
    destruct (lookup_lt_is_Some_2 (quotesList s)
                (Z.to_nat (Intn (Z.of_nat (length (quotesList s))))))
      as [q Hq]; [lia|].
    by rewrite Hq.
  - intros q Hq. apply GetRandomQuote_inv in Hq as [_ Hq].
    by apply list_elem_of_lookup_2 in Hq.
Qed.

Lemma random_never_panics_witness :
  GetRandomQuote Live (fun n => n - 1) (final trace_bruce New) ≠ Panic
  ∧ ∀ q, GetRandomQuote Live (fun n => n - 1) (final trace_bruce New)
         = Ret (q, None) →
         q ∈ quotesList (final trace_bruce New).
Proof.
  apply (random_never_panics Live (fun n => n - 1) (final trace_bruce New)).
  intros n Hn. lia.
Defined.

Lemma DeleteQuote_state (k : Z) (s : Storage) :
  (DeleteQuote Live k s).2
  = match quotes s !! k with
    | Some _ =>
        {| quotes := delete k (quotes s);
           quotesList := filter (fun q => ID q ≠ k) (quotesList s);
           nextID := nextID s |}
    | None => s
    end.
Proof.
  destruct (quotes s !! k) as [q|] eqn:Hlk.
  - by rewrite (DeleteQuote_found _ _ _ Hlk).
  - by rewrite DeleteQuote_missing.
Qed.

Lemma DeleteQuote_result (k : Z) (s : Storage) :
  (DeleteQuote Live k s).1
  = match quotes s !! k with
    | Some _ => None
    | None => Some ErrQuoteNotFound
    end.
Proof.
  destruct (quotes s !! k) as [q|] eqn:Hlk.
  - by rewrite (DeleteQuote_found _ _ _ Hlk).
  - by rewrite DeleteQuote_missing.
Qed.

(** X5: in any state of the store, two [DeleteQuote] calls can be made in
    either order: the store ends in the same state, and for different ids
    each call returns what it would have returned had it been made
    first. *)
Theorem delete_commutes (s : Storage) (j k : Z) :
  (DeleteQuote Live j (DeleteQuote Live k s).2).2
  = (DeleteQuote Live k (DeleteQuote Live j s).2).2
  ∧ (j ≠ k →
     (DeleteQuote Live j (DeleteQuote Live k s).2).1 = (DeleteQuote Live j s).1
     ∧ (DeleteQuote Live k (DeleteQuote Live j s).2).1
       = (DeleteQuote Live k s).1).
Proof.
  destruct (decide (j = k)) as [->|Hne]; [split; [done|by intros []]|].
  rewrite !DeleteQuote_state, !DeleteQuote_result. split.
  - destruct (quotes s !! k) as [qk|] eqn:Hk;
      destruct (quotes s !! j) as [qj|] eqn:Hj; simpl;
      rewrite ?lookup_delete_ne, ?Hk, ?Hj by done; try done.
    f_equal; [apply delete_delete|].
    rewrite !list_filter_filter. apply list_filter_iff. intros q. tauto.
  - intros _. split.
    + destruct (quotes s !! k) as [qk|] eqn:Hk; simpl;
        by rewrite ?lookup_delete_ne by done.
    + destruct (quotes s !! j) as [qj|] eqn:Hj; simpl;
        by rewrite ?lookup_delete_ne by done.
Qed.

Lemma delete_commutes_witness :
  let s := final trace_bruce New in
  (DeleteQuote Live 2 (DeleteQuote Live 3 s).2).2
  = (DeleteQuote Live 3 (DeleteQuote Live 2 s).2).2
  ∧ (2 ≠ 3 →
     (DeleteQuote Live 2 (DeleteQuote Live 3 s).2).1 = (DeleteQuote Live 2 s).1
     ∧ (DeleteQuote Live 3 (DeleteQuote Live 2 s).2).1
       = (DeleteQuote Live 3 s).1).
Proof. exact (delete_commutes (final trace_bruce New) 2 3). Defined.

Lemma GetQuotesByAuthor_filter (a : string) (s : Storage) :
  GetQuotesByAuthor Live a s
  = (Some (filter (fun q => Author q = a) (quotesList s)), None).
Proof.
  unfold GetQuotesByAuthor. rewrite author_loop_filter.
  by destruct (filter _ (quotesList s)).
Qed.

(** X6: in any state of the store, an [AddQuote] under a live context
    with author [a] adds the new quote at the end of what
    [GetQuotesByAuthor] returns for [a], and changes nothing in what it
    returns for any other author. *)
Theorem by_author_after_add (s : Storage) (t a b : string) :
  let s' := (AddQuote Live t a s).2 in
  GetQuotesByAuthor Live a s'
  = (Some (filter (fun q => Author q = a) (quotesList s)
           ++ [mkQuote (nextID s) t a]), None)
  ∧ (b ≠ a → GetQuotesByAuthor Live b s' = GetQuotesByAuthor Live b s).
Proof.
  intros s'. subst s'. rewrite !GetQuotesByAuthor_filter, AddQuote_live.
  cbn [snd quotesList]. rewrite !filter_app. split.
  - by rewrite filter_cons_True by done.
  - intros Hne. rewrite (filter_cons_False _ (mkQuote _ _ _)).
    + by rewrite app_nil_r.
    + simpl. congruence.
Qed.

Lemma by_author_after_add_witness :
  let s' := (AddQuote Live "Know thyself." "Socrates" (final trace_bruce New)).2 in
  GetQuotesByAuthor Live "Socrates" s'
  = (Some (filter (fun q => Author q = "Socrates")
             (quotesList (final trace_bruce New))
           ++ [mkQuote (nextID (final trace_bruce New))
                 "Know thyself." "Socrates"]), None)
  ∧ ("Steve Jobs" ≠ "Socrates" →
     GetQuotesByAuthor Live "Steve Jobs" s'
     = GetQuotesByAuthor Live "Steve Jobs" (final trace_bruce New)).
Proof.
  exact (by_author_after_add (final trace_bruce New)
           "Know thyself." "Socrates" "Steve Jobs").
Defined.

(** * Further properties of the store on the heap *)

Section MemMore.

Variable growcap : nat → nat.

(** The slice [GetQuotesByAuthor] returns is on an array of its own. *)
Lemma GetQuotesByAuthor_fresh a w :
  world_wf w →
  ∃ l, Mem.base (Mem.GetQuotesByAuthor growcap Live a w).1.1 = Some l
       ∧ (l ∉ dom (Mem.heap w))
       ∧ apart l (Mem.GetQuotesByAuthor growcap Live a w).2.
Proof.
  intros Hwf. apply wf_slice_allocated in Hwf.
  unfold Mem.GetQuotesByAuthor, apart.
  destruct (Mem.range_append _ _ _ _ _ _) as [result h'] eqn:Hr.
  apply range_append_frame in Hr as ([Hd _] & Hb & Ha).
  destruct (Mem.isNil result) eqn:Hnil.
  - exists (fresh (dom h')). unfold Mem.make. simpl.
    split; [done|]. split; [|split].
    + intros Hin. apply (fresh_not_dom h'). by apply Hd.
    + rewrite dom_insert_L. apply elem_of_union. left.
      by apply elem_of_singleton.
    + intros Heq. apply (fresh_not_dom h'). by apply Hd, Hwf.
  - destruct Hb as [Hb|(l & Hb & Hfr)].
    { unfold Mem.isNil in Hnil. by rewrite Hb in Hnil. }
    exists l. simpl. split; [done|]. split; [done|]. split.
    + apply Ha; [|done]. by intros l0 Hl0.
    + intros Heq. apply Hfr. by apply Hwf.
Qed.

(** X7: [GetQuotesByAuthor], called under a live context in any state the
    store can reach, returns no error and a non-nil slice whose elements
    are the stored quotes with that author, in insertion order. The slice
    is on an array the store does not keep: the array is allocated by the
    call (it is not in the heap before), it is not the array of the
    store's list, also when every quote matches, and after whatever calls
    follow it is still not the array of the store's list, no cell of it
    has been written, and the elements of the slice are what they
    were. *)
Theorem by_author_slice_not_aliased
  (h0 : heap_t) (a : string) (tr0 tr : list (Context * Call)) :
  let w := Mem.final growcap tr0 (Mem.New h0) in
  let sl := (Mem.GetQuotesByAuthor growcap Live a w).1.1 in
  let w1 := (Mem.GetQuotesByAuthor growcap Live a w).2 in
  let w2 := Mem.final growcap tr w1 in
  (Mem.GetQuotesByAuthor growcap Live a w).1.2 = None
  ∧ Mem.isNil sl = false
  ∧ Mem.elems (Mem.heap w1) sl
    = filter (fun q => Author q = a) (quotesList (final tr0 New))
  ∧ Mem.elems (Mem.heap w2) sl = Mem.elems (Mem.heap w1) sl
  ∧ ∃ l, Mem.base sl = Some l
         ∧ (l ∉ dom (Mem.heap w))
         ∧ Some l ≠ Mem.base (Mem.quotesList (Mem.store w))
         ∧ Some l ≠ Mem.base (Mem.quotesList (Mem.store w1))
         ∧ Some l ≠ Mem.base (Mem.quotesList (Mem.store w2))
         ∧ Mem.heap w2 !! l = Mem.heap w1 !! l.
Proof.
  intros w sl w1 w2.
  destruct (reachable_world growcap h0 tr0) as [Hwf Habs]. fold w in Hwf, Habs.
  destruct (sim_GetQuotesByAuthor growcap Live a w Hwf) as (_ & _ & Hv).
  destruct (GetQuotesByAuthor_fresh a w Hwf) as (l & Hb & Hnew & Hap).
  fold sl in Hv, Hb. fold w1 in Hv, Hap.
  rewrite GetQuotesByAuthor_filter, Habs in Hv.
  apply pair_equal_spec in Hv as [Hv He].
  unfold view in Hv. rewrite Hb in Hv. injection Hv as Hv.
  destruct (run_apart growcap l tr w1 Hap) as [[_ Hne2] Hsame].
  fold w2 in Hne2, Hsame.
  split; [done|]. split; [unfold Mem.isNil; by rewrite Hb|]. split; [done|].
  split.
  - unfold Mem.elems, Mem.array. by rewrite Hb, Hsame.
  - exists l. split; [done|]. split; [done|]. split.
    + intros Heq. apply Hnew. apply (wf_slice_allocated _ _ Hwf). done.
    + split; [apply Hap|]. split; done.
Qed.

Lemma mem_observe_sim tr : ∀ w,
  world_wf w → mem_observe growcap tr w = responses tr (abs w).
Proof.
  induction tr as [|[ctx c] tr IH]; intros w Hwf; [done|].
  rewrite responses_cons. simpl.
  destruct (sim_exec growcap ctx c w Hwf) as (Hwf1 & Habs & Hresp).
  destruct (Mem.exec growcap ctx c w) as [r w1]. simpl in *.
  rewrite Hresp, <- Habs. f_equal. by apply IH.
Qed.

(** X8: whatever capacity the runtime picks when [append] has to grow an
    array and whatever the heap holds when the store is created, a
    sequence of calls gets, call by call, the responses the store gives
    when its list is read as a plain list: slices returned hold the same
    quotes in the same order, ids and errors are the same. *)
Theorem responses_independent_of_heap
  (h0 : heap_t) (tr : list (Context * Call)) :
  mem_observe growcap tr (Mem.New h0) = responses tr New.
Proof.
  destruct (sim_New h0) as [Hwf Habs].
  by rewrite (mem_observe_sim tr _ Hwf), Habs.
Qed.

End MemMore.

(** * The logging middleware's response writer *)

Lemma wrap64_range (z : Z) : int64_min ≤ wrap64 z ≤ int64_max.
Proof.
  unfold wrap64, int64_min, int64_max.
  pose proof (Z.mod_pos_bound (z + 2 ^ 63) (2 ^ 64) ltac:(lia)). lia.
Qed.

Lemma wrap64_add_l (a b : Z) : wrap64 (wrap64 a + b) = wrap64 (a + b).
Proof.
  unfold wrap64. f_equal.
  replace ((a + 2 ^ 63) mod 2 ^ 64 - 2 ^ 63 + b + 2 ^ 63)
    with ((a + 2 ^ 63) mod 2 ^ 64 + b) by lia.
  rewrite Zplus_mod_idemp_l. f_equal. lia.
Qed.

Section InterceptorFacts.

Variable E : Type.
Variable isFlusher : bool.

Abbreviation interceptor := Logger.responseWriterInterceptor.

Lemma serve_cons (a : Logger.Action E) rest (wri : interceptor) :
  Logger.serve E isFlusher (a :: rest) wri
  = ((Logger.act E isFlusher a wri).1
       ++ (Logger.serve E isFlusher rest (Logger.act E isFlusher a wri).2).1,
     (Logger.serve E isFlusher rest (Logger.act E isFlusher a wri).2).2).
Proof.
  simpl. destruct (Logger.act E isFlusher a wri) as [c1 wri1]. simpl.
  by destruct (Logger.serve E isFlusher rest wri1).
Qed.

Lemma sends_app (c1 c2 : list Logger.InnerCall) :
  Logger.sends (c1 ++ c2) = Logger.sends c1 ++ Logger.sends c2.
Proof. unfold Logger.sends. apply List.filter_app. Qed.

Lemma act_after_header (a : Logger.Action E) (wri : interceptor) :
  Logger.headerWritten wri = true →
  Logger.sends (Logger.act E isFlusher a wri).1
  = match Logger.written E a with
    | Some b => [Logger.InnerWrite b]
    | None => []
    end
  ∧ Logger.statusCode (Logger.act E isFlusher a wri).2 = Logger.statusCode wri
  ∧ Logger.headerWritten (Logger.act E isFlusher a wri).2 = true.
Proof.
  intros Hw. destruct a as [code|b n err|];
    unfold Logger.act, Logger.Write, Logger.WriteHeader, Logger.Flush;
    rewrite ?Hw; simpl; [done|done|by destruct isFlusher].
Qed.

Lemma act_from_start (a : Logger.Action E) (wri : interceptor) :
  Logger.headerWritten wri = false →
  Logger.sends (Logger.act E isFlusher a wri).1
  = match Logger.settled E [a] with
    | Some code =>
        Logger.InnerWriteHeader code
          :: match Logger.written E a with
             | Some b => [Logger.InnerWrite b]
             | None => []
             end
    | None => []
    end
  ∧ Logger.statusCode (Logger.act E isFlusher a wri).2
    = default (Logger.statusCode wri) (Logger.settled E [a])
  ∧ Logger.headerWritten (Logger.act E isFlusher a wri).2
    = bool_decide (is_Some (Logger.settled E [a])).
Proof.
  intros Hw. destruct a as [code|b n err|];
    unfold Logger.act, Logger.Write, Logger.WriteHeader, Logger.Flush;
    rewrite ?Hw; simpl; [done|done|].
  destruct isFlusher; simpl; rewrite Hw; split; try done.
Qed.

Lemma omap_written_cons (a : Logger.Action E) rest :
  omap (Logger.written E) (a :: rest)
  = match Logger.written E a with
    | Some b => [b]
    | None => []
    end ++ omap (Logger.written E) rest.
Proof. simpl. by destruct (Logger.written E a). Qed.

(** Once the header is out, only the writes go through. *)
Lemma serve_after_header actions : ∀ (wri : interceptor),
  Logger.headerWritten wri = true →
  Logger.sends (Logger.serve E isFlusher actions wri).1
  = Logger.InnerWrite <$> omap (Logger.written E) actions
  ∧ Logger.statusCode (Logger.serve E isFlusher actions wri).2
    = Logger.statusCode wri
  ∧ Logger.headerWritten (Logger.serve E isFlusher actions wri).2 = true.
Proof.
  induction actions as [|a rest IH]; intros wri Hw; [done|].
  rewrite serve_cons. cbn [fst snd]. rewrite sends_app, omap_written_cons.
  destruct (act_after_header a wri Hw) as (H1 & H2 & H3).
  destruct (IH _ H3) as (H4 & H5 & H6).
  rewrite H1, H4, H5, H2, fmap_app. repeat split; try done.
  by destruct (Logger.written E a).
Qed.

Lemma serve_from_start actions : ∀ (wri : interceptor),
  Logger.headerWritten wri = false →
  Logger.sends (Logger.serve E isFlusher actions wri).1
  = match Logger.settled E actions with
    | None => []
    | Some code =>
        Logger.InnerWriteHeader code
          :: (Logger.InnerWrite <$> omap (Logger.written E) actions)
    end
  ∧ Logger.statusCode (Logger.serve E isFlusher actions wri).2
    = default (Logger.statusCode wri) (Logger.settled E actions)
  ∧ Logger.headerWritten (Logger.serve E isFlusher actions wri).2
    = bool_decide (is_Some (Logger.settled E actions)).
Proof.
  induction actions as [|a rest IH]; intros wri Hw; [done|].
  rewrite serve_cons. cbn [fst snd]. rewrite sends_app, omap_written_cons.
  destruct (act_from_start a wri Hw) as (H1 & H2 & H3).
  rewrite H1. destruct a as [code|b n err|].
  - destruct (serve_after_header rest _ H3) as (H4 & H5 & H6).
    rewrite H4, H5, H6, H2. done.
  - destruct (serve_after_header rest _ H3) as (H4 & H5 & H6).
    rewrite H4, H5, H6, H2. done.
  - destruct (IH _ H3) as (H4 & H5 & H6).
    rewrite H4, H5, H6, H2. done.
Qed.

Lemma act_bytes (a : Logger.Action E) (wri : interceptor) :
  Logger.bytesWritten (Logger.act E isFlusher a wri).2
  = match a with
    | Logger.DoWrite _ _ n _ => wrap64 (Logger.bytesWritten wri + n)
    | _ => Logger.bytesWritten wri
    end.
Proof.
  destruct a as [code|b n err|];
    unfold Logger.act, Logger.Write, Logger.WriteHeader;
    by destruct (Logger.headerWritten wri).
Qed.

Lemma serve_bytes actions : ∀ (wri : interceptor),
  wrap64 (Logger.bytesWritten (Logger.serve E isFlusher actions wri).2)
  = wrap64 (Logger.bytesWritten wri
            + foldr Z.add 0 (Logger.counted E <$> actions)).
Proof.
  induction actions as [|a rest IH]; intros wri.
  { simpl. f_equal. lia. }
  rewrite serve_cons. cbn [fst snd]. rewrite IH, act_bytes, fmap_cons.
  cbn [foldr]. destruct a as [code|b n err|]; cbn [Logger.counted];
    rewrite ?wrap64_add_l; f_equal; lia.
Qed.

Lemma serve_bytes_range actions : ∀ (wri : interceptor),
  int64_min ≤ Logger.bytesWritten wri ≤ int64_max →
  int64_min ≤ Logger.bytesWritten (Logger.serve E isFlusher actions wri).2
  ≤ int64_max.
Proof.
  induction actions as [|a rest IH]; intros wri Hr; [done|].
  rewrite serve_cons. cbn [fst snd]. apply IH. rewrite act_bytes.
  destruct a as [code|b n err|]; [done|apply wrap64_range|done].
Qed.

(** X9: whatever a handler does with the writer the middleware gives it,
    the inner writer gets at most one [WriteHeader], before any [Write]:
    the code of the handler's first [WriteHeader], or 200 when the handler
    writes before setting a status; every [Write] is passed on as it is
    and in order; later [WriteHeader] calls are dropped. *)
Theorem header_sent_once_and_first (actions : list (Logger.Action E)) :
  Logger.sends
    (Logger.serve E isFlusher actions Logger.newResponseWriterInterceptor).1
  = match Logger.settled E actions with
    | None => []
    | Some code =>
        Logger.InnerWriteHeader code
          :: (Logger.InnerWrite <$> omap (Logger.written E) actions)
    end.
Proof. by apply serve_from_start. Qed.

(** X10: the status the middleware logs is the one the inner writer was
    given: the code of the handler's first [WriteHeader] when that comes
    before any [Write], and 200 otherwise, also when the handler sends
    nothing at all. *)
Theorem logged_status_is_sent_status (actions : list (Logger.Action E)) :
  let wri :=
    (Logger.serve E isFlusher actions Logger.newResponseWriterInterceptor).2 in
  Logger.Status wri = default 200 (Logger.settled E actions)
  ∧ (∀ code,
       Logger.InnerWriteHeader code
         ∈ (Logger.serve E isFlusher actions
              Logger.newResponseWriterInterceptor).1 →
       Logger.Status wri = code).
Proof.
  intros wri. subst wri.
  destruct (serve_from_start actions Logger.newResponseWriterInterceptor
              eq_refl) as (H1 & H2 & _).
  split; [exact H2|]. intros code Hin.
  assert (Hs : Logger.InnerWriteHeader code
               ∈ Logger.sends
                   (Logger.serve E isFlusher actions
                      Logger.newResponseWriterInterceptor).1).
  { unfold Logger.sends. apply list_elem_of_In, filter_In.
    split; [by apply list_elem_of_In|done]. }
  rewrite H1 in Hs. unfold Logger.Status. rewrite H2.
  destruct (Logger.settled E actions) as [c|]; [|by apply elem_of_nil in Hs].
  apply elem_of_cons in Hs as [Hs|Hs]; [by injection Hs as ->|].
  apply list_elem_of_fmap in Hs as (b & Hb & _). discriminate.
Qed.

(** X11: the byte count the middleware logs is the sum of the counts the
    inner writer answered to the [Write] calls, as an [int]: exactly the
    sum whenever that sum fits. *)
Theorem logged_bytes_is_sum (actions : list (Logger.Action E)) :
  let wri :=
    (Logger.serve E isFlusher actions Logger.newResponseWriterInterceptor).2 in
  let total := foldr Z.add 0 (Logger.counted E <$> actions) in
  Logger.BytesWritten wri = wrap64 total
  ∧ (int64_min ≤ total ≤ int64_max → Logger.BytesWritten wri = total).
Proof.
  intros wri total.
  assert (Heq : Logger.BytesWritten wri = wrap64 total).
  { pose proof (serve_bytes actions Logger.newResponseWriterInterceptor) as H.
    pose proof (serve_bytes_range actions Logger.newResponseWriterInterceptor)
      as Hr.
    fold wri in H, Hr. simpl in H, Hr.
    rewrite wrap64_small in H; [exact H|].
    apply Hr. unfold int64_min, int64_max. lia. }
  split; [done|]. intros Hr. rewrite Heq. by apply wrap64_small.
Qed.

End InterceptorFacts.

Lemma logged_bytes_is_sum_witness :
  let actions :=
    [ Logger.DoWriteHeader unit 404;
      Logger.DoWrite unit [] 12 None;
      Logger.DoWriteHeader unit 500;
      Logger.DoFlush unit;
      Logger.DoWrite unit [] 30 None ] in
  let wri :=
    (Logger.serve unit true actions Logger.newResponseWriterInterceptor).2 in
  let total := foldr Z.add 0 (Logger.counted unit <$> actions) in
  Logger.BytesWritten wri = wrap64 total
  ∧ (int64_min ≤ total ≤ int64_max → Logger.BytesWritten wri = total).
Proof.
  exact (logged_bytes_is_sum unit true
           [ Logger.DoWriteHeader unit 404;
             Logger.DoWrite unit [] 12 None;
             Logger.DoWriteHeader unit 500;
             Logger.DoFlush unit;
             Logger.DoWrite unit [] 30 None ]).
Defined.

Example interceptor_example :
  let actions :=
    [ Logger.DoWriteHeader unit 404;
      Logger.DoWrite unit [] 12 None;
      Logger.DoWriteHeader unit 500;
      Logger.DoFlush unit;
      Logger.DoWrite unit [] 30 None ] in
  Logger.serve unit true actions Logger.newResponseWriterInterceptor
  = ([ Logger.InnerWriteHeader 404; Logger.InnerWrite [];
       Logger.InnerFlush; Logger.InnerWrite [] ],
     Logger.mkInterceptor 404 42 true).
Proof. vm_compute. reflexivity. Qed.

(** * The HTTP handlers *)

Section HandlerFacts.

Context {St Err : Type} `{Handler.QuoteStore St Err}.
Variable isNotFound : Err → bool.
Variable TrimSpace : string → string.
Variable ParseInt : string → option Z.

Abbreviation serve_request :=
  (Handler.handle isNotFound TrimSpace ParseInt).

(** X12: a request that fails the handler's own checks (a body that does
    not decode, a text or an author that is blank after trimming, a blank
    [author] parameter, a missing or unparsable id) is answered 400 with
    the store left as it was, whatever the store is and whatever the
    request's context; and 400 is never the answer to a request that
    passes them. *)
Theorem bad_request_skips_store
  (ctx : Context) (req : Handler.Request) (st : St) :
  (Handler.reachesStore TrimSpace ParseInt req = false →
   ∃ resp, serve_request ctx req st = (Ret resp, st)
           ∧ Handler.statusCode resp = 400
           ∧ Handler.payloadStatus (Handler.payload resp) = "error")
  ∧ (Handler.reachesStore TrimSpace ParseInt req = true →
     ∀ resp st', serve_request ctx req st = (Ret resp, st') →
                 Handler.statusCode resp ≠ 400).
Proof.
  split.
  - intros Hr. destruct req as [[r|eof]| | |author|vars]; simpl in *;
      try discriminate.
    + unfold Handler.NewAddQuoteHandler.
      destruct (String.eqb (TrimSpace (Handler.AddQuoteRequest_Text r)) "");
        destruct (String.eqb (TrimSpace (Handler.AddQuoteRequest_Author r)) "");
        try discriminate; simpl; eexists; repeat split.
    + destruct eof; eexists; repeat split.
    + unfold Handler.NewGetQuotesByAuthorHandler.
      destruct (String.eqb (TrimSpace author) ""); [|discriminate].
      eexists; repeat split.
    + unfold Handler.NewDeleteQuoteHandler.
      destruct (vars !! "id") as [idStr|]; [|eexists; repeat split].
      destruct (ParseInt idStr) as [id|]; [|eexists; repeat split].
      rewrite bool_decide_eq_false in Hr. by destruct Hr.
  - intros Hr resp st' Hh. destruct req as [[r|eof]| | |author|vars];
      simpl in *; try discriminate.
    + unfold Handler.NewAddQuoteHandler in Hh.
      destruct (String.eqb (TrimSpace (Handler.AddQuoteRequest_Text r)) "");
        [discriminate|].
      destruct (String.eqb (TrimSpace (Handler.AddQuoteRequest_Author r)) "");
        [discriminate|]. simpl in Hh.
      destruct (Handler.qsAddQuote _ _ _ _) as [[[id [e|]]|] st1];
        inversion Hh; subst; done.
    + unfold Handler.NewGetAllQuotesHandler in Hh.
      destruct (Handler.qsGetAllQuotes _ _) as [[[qs [e|]]|] st1];
        inversion Hh; subst; done.
    + unfold Handler.NewGetRandomQuoteHandler in Hh.
      destruct (Handler.qsGetRandomQuote _ _) as [[[q [e|]]|] st1];
        [destruct (isNotFound e)|..]; inversion Hh; subst; done.
    + unfold Handler.NewGetQuotesByAuthorHandler in Hh.
      destruct (String.eqb (TrimSpace author) ""); [discriminate|].
      destruct (Handler.qsGetQuotesByAuthor _ _ _) as [[[qs [e|]]|] st1];
        inversion Hh; subst; done.
    + unfold Handler.NewDeleteQuoteHandler in Hh.
      destruct (vars !! "id") as [idStr|]; [|discriminate].
      destruct (ParseInt idStr) as [id|];
        [|by rewrite bool_decide_eq_true in Hr; destruct Hr].
      destruct (Handler.qsDeleteQuote _ _ _) as [[[e|]|] st1];
        [destruct (isNotFound e)|..]; inversion Hh; subst; done.
Qed.

(** X13: when the body decodes but the text or the author is blank
    after trimming, the answer is 400 "Invalid request." with [fields]
    naming exactly the blank members, text before author, and the store
    is not called. *)
Theorem add_validation_fields
  (ctx : Context) (r : Handler.AddQuoteRequest) (st : St) :
  let blankText :=
    String.eqb (TrimSpace (Handler.AddQuoteRequest_Text r)) "" in
  let blankAuthor :=
    String.eqb (TrimSpace (Handler.AddQuoteRequest_Author r)) "" in
  blankText || blankAuthor = true →
  serve_request ctx (Handler.ReqAddQuote (Handler.Decoded r)) st
  = (Ret {| Handler.statusCode := 400;
            Handler.contentType := "application/json";
            Handler.payload :=
              Handler.ErrorPayload
                {| Handler.ErrorResponse_Status := "error";
                   Handler.ErrorResponse_Error := "Invalid request.";
                   Handler.ErrorResponse_Fields :=
                     Some ((if blankText then ["text cannot be empty"] else [])
                           ++ (if blankAuthor
                               then ["author cannot be empty"] else [])) |} |},
     st).
Proof.
  intros blankText blankAuthor Hb. subst blankText blankAuthor.
  simpl. unfold Handler.NewAddQuoteHandler.
  destruct (String.eqb (TrimSpace (Handler.AddQuoteRequest_Text r)) "");
    destruct (String.eqb (TrimSpace (Handler.AddQuoteRequest_Author r)) "");
    try discriminate; reflexivity.
Qed.

(** X14: every response a handler sends is JSON, carries one of the
    status codes 200, 201, 400, 404, 500, and says ["success"] in its
    [status] member exactly when the code is 200 or 201 and ["error"]
    otherwise; 201 is the answer of the add handler only. *)
Theorem response_status_coherent
  (ctx : Context) (req : Handler.Request) (st st' : St)
  (resp : Handler.Response) :
  serve_request ctx req st = (Ret resp, st') →
  Handler.contentType resp = "application/json"
  ∧ ((Handler.statusCode resp = 200 ∨ Handler.statusCode resp = 201)
     ∧ Handler.payloadStatus (Handler.payload resp) = "success"
     ∨ (Handler.statusCode resp = 400 ∨ Handler.statusCode resp = 404
        ∨ Handler.statusCode resp = 500)
       ∧ Handler.payloadStatus (Handler.payload resp) = "error")
  ∧ (Handler.statusCode resp = 201 → ∃ body, req = Handler.ReqAddQuote body).
Proof.
  intros Hh. destruct req as [[r|eof]| | |author|vars]; simpl in Hh.
  - unfold Handler.NewAddQuoteHandler in Hh.
    destruct (String.eqb (TrimSpace (Handler.AddQuoteRequest_Text r)) "");
      destruct (String.eqb (TrimSpace (Handler.AddQuoteRequest_Author r)) "");
      simpl in Hh;
      try (inversion Hh; subst; simpl; split; [done|]; split; [tauto|eauto]).
    destruct (Handler.qsAddQuote _ _ _ _) as [[[id [e|]]|] st1];
      inversion Hh; subst; simpl; split; try done; split; try tauto; eauto.
  - destruct eof; inversion Hh; subst; simpl;
      split; try done; split; try tauto; eauto.
  - unfold Handler.NewGetAllQuotesHandler in Hh.
    destruct (Handler.qsGetAllQuotes _ _) as [[[qs [e|]]|] st1];
      inversion Hh; subst; simpl; split; try done; split; try tauto;
      discriminate.
  - unfold Handler.NewGetRandomQuoteHandler in Hh.
    destruct (Handler.qsGetRandomQuote _ _) as [[[q [e|]]|] st1];
      [destruct (isNotFound e)|..];
      inversion Hh; subst; simpl; split; try done; split; try tauto;
      discriminate.
  - unfold Handler.NewGetQuotesByAuthorHandler in Hh.
    destruct (String.eqb (TrimSpace author) "");
      [inversion Hh; subst; simpl; split; try done; split; try tauto;
       discriminate|].
    destruct (Handler.qsGetQuotesByAuthor _ _ _) as [[[qs [e|]]|] st1];
      inversion Hh; subst; simpl; split; try done; split; try tauto;
      discriminate.
  - unfold Handler.NewDeleteQuoteHandler in Hh.
    destruct (vars !! "id") as [idStr|];
      [|inversion Hh; subst; simpl; split; try done; split; try tauto;
        discriminate].
    destruct (ParseInt idStr) as [id|];
      [|inversion Hh; subst; simpl; split; try done; split; try tauto;
        discriminate].
    destruct (Handler.qsDeleteQuote _ _ _) as [[[e|]|] st1];
      [destruct (isNotFound e)|..];
      inversion Hh; subst; simpl; split; try done; split; try tauto;
      discriminate.
Qed.

(** X15: how the handlers answer the errors of the store. 404 is the
    answer of the random and the delete handlers only, and only when the
    store returns an error that [errors.Is] takes for [ErrQuoteNotFound];
    those two answer 500 to any other error of the store; the add, list
    and by-author handlers answer 500 to every error of the store, the
    one [errors.Is] takes for [ErrQuoteNotFound] included. *)
Theorem not_found_only_from_random_and_delete (ctx : Context) (st : St) :
  (∀ req resp st',
     serve_request ctx req st = (Ret resp, st') →
     Handler.statusCode resp = 404 →
     (req = Handler.ReqGetRandomQuote
      ∧ ∃ q err, Handler.qsGetRandomQuote ctx st = (Ret (q, Some err), st')
                 ∧ isNotFound err = true)
     ∨ (∃ vars idStr id err,
          req = Handler.ReqDeleteQuote vars
          ∧ vars !! "id" = Some idStr ∧ ParseInt idStr = Some id
          ∧ Handler.qsDeleteQuote ctx id st = (Ret (Some err), st')
          ∧ isNotFound err = true))
  ∧ (∀ r id err st1,
       TrimSpace (Handler.AddQuoteRequest_Text r) ≠ "" →
       TrimSpace (Handler.AddQuoteRequest_Author r) ≠ "" →
       Handler.qsAddQuote ctx (Handler.AddQuoteRequest_Text r)
         (Handler.AddQuoteRequest_Author r) st
       = (Ret (id, Some err), st1) →
       serve_request ctx (Handler.ReqAddQuote (Handler.Decoded r)) st
       = (Ret (Handler.sendErrorResponse 500 "Failed to add quote." None), st1))
  ∧ (∀ quotes err st1,
       Handler.qsGetAllQuotes ctx st = (Ret (quotes, Some err), st1) →
       serve_request ctx Handler.ReqGetAllQuotes st
       = (Ret (Handler.sendErrorResponse 500 "Failed to retrieve quotes." None),
          st1))
  ∧ (∀ author quotes err st1,
       TrimSpace author ≠ "" →
       Handler.qsGetQuotesByAuthor ctx author st
       = (Ret (quotes, Some err), st1) →
       serve_request ctx (Handler.ReqGetQuotesByAuthor author) st
       = (Ret (Handler.sendErrorResponse 500
                 "Failed to retrieve quotes by author." None), st1))
  ∧ (∀ q err st1,
       Handler.qsGetRandomQuote ctx st = (Ret (q, Some err), st1) →
       serve_request ctx Handler.ReqGetRandomQuote st
       = (Ret (if isNotFound err
               then Handler.sendErrorResponse 404 "No quotes found." None
               else Handler.sendErrorResponse 500
                      "Failed to retrieve random quote." None), st1))
  ∧ (∀ vars idStr id err st1,
       vars !! "id" = Some idStr → ParseInt idStr = Some id →
       Handler.qsDeleteQuote ctx id st = (Ret (Some err), st1) →
       serve_request ctx (Handler.ReqDeleteQuote vars) st
       = (Ret (if isNotFound err
               then Handler.sendErrorResponse 404 "Quote not found." None
               else Handler.sendErrorResponse 500
                      "Failed to delete quote." None), st1)).
Proof.
  split; [|split; [|split; [|split; [|split]]]].
  - intros req resp st' Hh Hc.
    destruct req as [[r|eof]| | |author|vars]; simpl in Hh.
    + unfold Handler.NewAddQuoteHandler in Hh.
      destruct (String.eqb (TrimSpace (Handler.AddQuoteRequest_Text r)) "");
        destruct (String.eqb (TrimSpace (Handler.AddQuoteRequest_Author r)) "");
        simpl in Hh; try (inversion Hh; subst; discriminate).
      destruct (Handler.qsAddQuote _ _ _ _) as [[[id [e|]]|] st1];
        inversion Hh; subst; discriminate.
    + destruct eof; inversion Hh; subst; discriminate.
    + unfold Handler.NewGetAllQuotesHandler in Hh.
      destruct (Handler.qsGetAllQuotes _ _) as [[[qs [e|]]|] st1];
        inversion Hh; subst; discriminate.
    + left. split; [done|]. unfold Handler.NewGetRandomQuoteHandler in Hh.
      destruct (Handler.qsGetRandomQuote _ _) as [[[q [e|]]|] st1];
        [destruct (isNotFound e) eqn:He|..];
        inversion Hh; subst; try discriminate.
      by exists q, e.
    + unfold Handler.NewGetQuotesByAuthorHandler in Hh.
      destruct (String.eqb (TrimSpace author) "");
        [inversion Hh; subst; discriminate|].
      destruct (Handler.qsGetQuotesByAuthor _ _ _) as [[[qs [e|]]|] st1];
        inversion Hh; subst; discriminate.
    + right. unfold Handler.NewDeleteQuoteHandler in Hh.
      destruct (vars !! "id") as [idStr|] eqn:Hv;
        [|inversion Hh; subst; discriminate].
      destruct (ParseInt idStr) as [id|] eqn:Hp;
        [|inversion Hh; subst; discriminate].
      destruct (Handler.qsDeleteQuote _ _ _) as [[[e|]|] st1] eqn:Hd;
        [destruct (isNotFound e) eqn:He|..];
        inversion Hh; subst; try discriminate.
      by exists vars, idStr, id, e.
  - intros r id err st1 Ht Ha Hq. apply String.eqb_neq in Ht, Ha.
    unfold Handler.handle, Handler.NewAddQuoteHandler.
    rewrite Ht, Ha. cbn [Handler.go_len Nat.ltb Nat.leb]. by rewrite Hq.
  - intros quotes err st1 Hq.
    unfold Handler.handle, Handler.NewGetAllQuotesHandler. by rewrite Hq.
  - intros author quotes err st1 Ha Hq. apply String.eqb_neq in Ha.
    unfold Handler.handle, Handler.NewGetQuotesByAuthorHandler.
    by rewrite Ha, Hq.
  - intros q err st1 Hq.
    unfold Handler.handle, Handler.NewGetRandomQuoteHandler. rewrite Hq.
    by destruct (isNotFound err).
  - intros vars idStr id err st1 Hv Hp Hq.
    unfold Handler.handle, Handler.NewDeleteQuoteHandler.
    rewrite Hv, Hp, Hq. by destruct (isNotFound err).
Qed.

End HandlerFacts.

(** ** The handlers over the in-memory store *)

Section HandlerMem.

Variable TrimSpace : string → string.
Variable ParseInt : string → option Z.

Abbreviation serve_mem :=
  (Handler.handle (H := Handler.memorystorage_QuoteStore)
     Handler.errorsIsNotFound TrimSpace ParseInt).

(** X16: a POST whose text and author are not blank after trimming is
    answered 201 with the counter's value as id and the text and author
    as they were sent; the quote is stored with exactly that text and
    author, untrimmed, and a following GET of all quotes lists it last. *)
Theorem post_then_list
  (s : Storage) (rnd : nat → Z → Z) (text author : string) :
  TrimSpace text ≠ "" → TrimSpace author ≠ "" →
  let post :=
    serve_mem Live
      (Handler.ReqAddQuote
         (Handler.Decoded (Handler.mkAddQuoteRequest text author))) (s, rnd) in
  post.1
  = Ret (Handler.sendJSONResponse 201
           (Handler.AddQuotePayload
              (Handler.mkAddQuoteResponse "success" (nextID s) text author)))
  ∧ (serve_mem Live Handler.ReqGetAllQuotes post.2).1
    = Ret (Handler.sendJSONResponse 200
             (Handler.DataPayload
                (Handler.mkSuccessDataResponse "success"
                   (Handler.DataQuotes
                      (Some (quotesList s ++ [mkQuote (nextID s) text author]))))))
  ∧ post.2.2 = rnd.
Proof.
  intros Ht Ha post. subst post.
  apply String.eqb_neq in Ht, Ha.
  unfold Handler.handle, Handler.NewAddQuoteHandler,
    Handler.NewGetAllQuotesHandler.
  cbn [Handler.AddQuoteRequest_Text Handler.AddQuoteRequest_Author].
  rewrite Ht, Ha. cbn [Handler.go_len Nat.ltb Nat.leb].
  cbn [Handler.qsAddQuote Handler.qsGetAllQuotes
       Handler.memorystorage_QuoteStore fst snd].
  rewrite AddQuote_live. cbn [fst snd]. rewrite GetAllQuotes_live.
  cbn [fst snd quotesList]. done.
Qed.

Lemma mem_delete_handler ctx vars idStr id (s : Storage) (rnd : nat → Z → Z) :
  vars !! "id" = Some idStr → ParseInt idStr = Some id →
  serve_mem ctx (Handler.ReqDeleteQuote vars) (s, rnd)
  = (Ret match (DeleteQuote ctx id s).1 with
         | None =>
             Handler.sendJSONResponse 200
               (Handler.MessagePayload
                  (Handler.mkGenericMessageResponse "success"
                     "Quote deleted successfully."))
         | Some err =>
             if Handler.errorsIsNotFound err
             then Handler.sendErrorResponse 404 "Quote not found." None
             else Handler.sendErrorResponse 500 "Failed to delete quote." None
         end,
     ((DeleteQuote ctx id s).2, rnd)).
Proof.
  intros Hv Hp. unfold Handler.handle, Handler.NewDeleteQuoteHandler.
  rewrite Hv, Hp.
  cbn [Handler.qsDeleteQuote Handler.memorystorage_QuoteStore fst snd].
  destruct (DeleteQuote ctx id s) as [[e|] s']; cbn [fst snd]; [|done].
  by destruct (Handler.errorsIsNotFound e).
Qed.

Lemma mem_random_handler ctx (s : Storage) (rnd : nat → Z → Z) :
  serve_mem ctx Handler.ReqGetRandomQuote (s, rnd)
  = (match GetRandomQuote ctx (rnd 0%nat) s with
     | Panic => Panic
     | Ret (q, None) =>
         Ret (Handler.sendJSONResponse 200
                (Handler.DataPayload
                   (Handler.mkSuccessDataResponse "success"
                      (Handler.DataQuote q))))
     | Ret (_, Some err) =>
         Ret (if Handler.errorsIsNotFound err
              then Handler.sendErrorResponse 404 "No quotes found." None
              else Handler.sendErrorResponse 500
                     "Failed to retrieve random quote." None)
     end,
     (s, fun i => rnd (S i))).
Proof.
  unfold Handler.handle, Handler.NewGetRandomQuoteHandler.
  cbn [Handler.qsGetRandomQuote Handler.memorystorage_QuoteStore fst snd].
  destruct (GetRandomQuote ctx (rnd 0%nat) s) as [[q [e|]]|]; try done.
  by destruct (Handler.errorsIsNotFound e).
Qed.

(** X17: a DELETE whose path id parses to [id], under a live context, is
    answered 404 with the store untouched when the store holds no quote
    with that id, and 200 otherwise, the store then being what
    [DeleteQuote] leaves; the same DELETE sent again is answered 404. *)
Theorem delete_handler_on_store
  (s : Storage) (rnd : nat → Z → Z) (vars : gmap string string)
  (idStr : string) (id : Z) :
  vars !! "id" = Some idStr → ParseInt idStr = Some id →
  let del := serve_mem Live (Handler.ReqDeleteQuote vars) (s, rnd) in
  (quotes s !! id = None →
   del = (Ret (Handler.sendErrorResponse 404 "Quote not found." None), (s, rnd)))
  ∧ (is_Some (quotes s !! id) →
     del.1
     = Ret (Handler.sendJSONResponse 200
              (Handler.MessagePayload
                 (Handler.mkGenericMessageResponse "success"
                    "Quote deleted successfully.")))
     ∧ quotes del.2.1 !! id = None
     ∧ quotesList del.2.1 = filter (fun q => ID q ≠ id) (quotesList s)
     ∧ (serve_mem Live (Handler.ReqDeleteQuote vars) del.2).1
       = Ret (Handler.sendErrorResponse 404 "Quote not found." None)).
Proof.
  intros Hv Hp del. subst del.
  rewrite (mem_delete_handler _ _ _ _ _ _ Hv Hp). split.
  - intros Hlk. by rewrite (DeleteQuote_missing _ _ Hlk).
  - intros [q Hlk]. rewrite (DeleteQuote_found _ _ _ Hlk). cbn [fst snd].
    split; [done|]. split; [apply lookup_delete_eq|]. split; [done|].
    rewrite (mem_delete_handler _ _ _ _ _ _ Hv Hp).
    rewrite DeleteQuote_missing; [done|]. apply lookup_delete_eq.
Qed.

(** X18: under a live context the random handler answers 404 exactly
    when the store is empty; when it is not, and [rand.Intn] answers
    within range, it answers 200 with a quote of the store; it leaves the
    store as it was. *)
Theorem random_handler_on_store (s : Storage) (rnd : nat → Z → Z) :
  let res := serve_mem Live Handler.ReqGetRandomQuote (s, rnd) in
  let N := Z.of_nat (length (quotesList s)) in
  res.2.1 = s
  ∧ (res.1 = Ret (Handler.sendErrorResponse 404 "No quotes found." None)
     ↔ quotesList s = [])
  ∧ (quotesList s ≠ [] → 0 ≤ rnd 0%nat N < N →
     ∃ q, q ∈ quotesList s
          ∧ res.1
            = Ret (Handler.sendJSONResponse 200
                     (Handler.DataPayload
                        (Handler.mkSuccessDataResponse "success"
                           (Handler.DataQuote q))))).
Proof.
  intros res N. subst res. rewrite mem_random_handler. cbn [fst snd].
  split; [done|]. split; [split|].
  - intros Hr. apply (GetRandomQuote_empty (rnd 0%nat)).
    destruct (GetRandomQuote Live (rnd 0%nat) s) as [[q [e|]]|] eqn:Hg;
      try discriminate.
    destruct e; [by exists q|discriminate].
  - intros Hnil.
    destruct (proj2 (GetRandomQuote_empty (rnd 0%nat) s) Hnil) as [q Hq].
    by rewrite Hq.
  - intros Hne Hr.
    destruct (lookup_lt_is_Some_2 (quotesList s) (Z.to_nat (rnd 0%nat N)))
      as [q Hq]; [subst N; lia|].
    exists q. split; [by apply list_elem_of_lookup_2 in Hq|].
    rewrite (GetRandomQuote_index _ _ (Z.to_nat (rnd 0%nat N)) q); [done|done|].
    fold N. lia.
Qed.

(** X19: when the request's context is already done, any request that
    passes the handler's own checks is answered 500 and the store is left
    as it was: a cancelled request is never answered 404, and never adds
    or deletes. *)
Theorem cancelled_request_answered_500
  (e : CtxErr) (req : Handler.Request) (s : Storage) (rnd : nat → Z → Z) :
  Handler.reachesStore TrimSpace ParseInt req = true →
  ∃ resp,
    (serve_mem (Done e) req (s, rnd)).1 = Ret resp
    ∧ Handler.statusCode resp = 500
    ∧ (serve_mem (Done e) req (s, rnd)).2.1 = s.
Proof.
  intros Hr. destruct req as [[r|eof]| | |author|vars]; simpl in Hr;
    try discriminate.
  - apply andb_prop in Hr as [Ht Ha]. apply negb_true_iff in Ht, Ha.
    unfold Handler.handle, Handler.NewAddQuoteHandler. rewrite Ht, Ha.
    eexists. repeat split.
  - eexists. repeat split.
  - rewrite mem_random_handler. eexists. repeat split.
  - apply negb_true_iff in Hr.
    unfold Handler.handle, Handler.NewGetQuotesByAuthorHandler. rewrite Hr.
    eexists. repeat split.
  - destruct (vars !! "id") as [idStr|] eqn:Hv; [|discriminate].
    destruct (ParseInt idStr) as [id|] eqn:Hp;
      [|by rewrite bool_decide_eq_true in Hr; destruct Hr].
    rewrite (mem_delete_handler _ _ _ _ _ _ Hv Hp).
    eexists. repeat split.
Qed.

(** X20: the by-author handler hands the store the [author] parameter as
    it came, untrimmed: when it is not blank after trimming, the answer
    under a live context is 200 with the stored quotes whose author is
    that very string, in insertion order (an empty list, not an error,
    when there is none), and the store is left as it was. *)
Theorem by_author_handler_on_store
  (s : Storage) (rnd : nat → Z → Z) (author : string) :
  TrimSpace author ≠ "" →
  serve_mem Live (Handler.ReqGetQuotesByAuthor author) (s, rnd)
  = (Ret (Handler.sendJSONResponse 200
            (Handler.DataPayload
               (Handler.mkSuccessDataResponse "success"
                  (Handler.DataQuotes
                     (Some (filter (fun q => Author q = author)
                              (quotesList s))))))),
     (s, rnd)).
Proof.
  intros Ha. apply String.eqb_neq in Ha.
  unfold Handler.handle, Handler.NewGetQuotesByAuthorHandler. rewrite Ha.
  cbn [Handler.qsGetQuotesByAuthor Handler.memorystorage_QuoteStore fst snd].
  by rewrite GetQuotesByAuthor_filter.
Qed.

(** X21: whatever the request and its context, the store is changed only
    by an add answered 201 or a delete answered 200: every request
    answered with an error, and every GET, leaves the map, the list and
    the counter as they were. *)
Theorem store_changes_only_on_success
  (ctx : Context) (req : Handler.Request) (s : Storage) (rnd : nat → Z → Z) :
  (serve_mem ctx req (s, rnd)).2.1 ≠ s →
  ∃ resp,
    (serve_mem ctx req (s, rnd)).1 = Ret resp
    ∧ ((Handler.statusCode resp = 201 ∧ ∃ body, req = Handler.ReqAddQuote body)
       ∨ (Handler.statusCode resp = 200
          ∧ ∃ vars, req = Handler.ReqDeleteQuote vars)).
Proof.
  intros Hne. destruct req as [[r|eof]| | |author|vars].
  - unfold Handler.handle, Handler.NewAddQuoteHandler in *.
    destruct (String.eqb (TrimSpace (Handler.AddQuoteRequest_Text r)) "");
      destruct (String.eqb (TrimSpace (Handler.AddQuoteRequest_Author r)) "");
      try (by destruct Hne).
    destruct ctx as [|e]; [|by destruct Hne].
    eexists. split; [reflexivity|]. left. split; [done|]. eauto.
  - destruct eof; by destruct Hne.
  - unfold Handler.handle, Handler.NewGetAllQuotesHandler in Hne.
    cbn [Handler.qsGetAllQuotes Handler.memorystorage_QuoteStore] in Hne.
    destruct (GetAllQuotes ctx (s, rnd).1) as [qs [e|]]; by destruct Hne.
  - rewrite mem_random_handler in Hne. by destruct Hne.
  - unfold Handler.handle, Handler.NewGetQuotesByAuthorHandler in Hne.
    destruct (String.eqb (TrimSpace author) ""); [by destruct Hne|].
    cbn [Handler.qsGetQuotesByAuthor Handler.memorystorage_QuoteStore] in Hne.
    destruct (GetQuotesByAuthor ctx author (s, rnd).1) as [qs [e|]];
      by destruct Hne.
  - destruct (vars !! "id") as [idStr|] eqn:Hv.
    2: { unfold Handler.handle, Handler.NewDeleteQuoteHandler in Hne.
         rewrite Hv in Hne. by destruct Hne. }
    destruct (ParseInt idStr) as [id|] eqn:Hp.
    2: { unfold Handler.handle, Handler.NewDeleteQuoteHandler in Hne.
         rewrite Hv, Hp in Hne. by destruct Hne. }
    rewrite (mem_delete_handler _ _ _ _ _ _ Hv Hp) in *. cbn [fst snd] in *.
    destruct ctx as [|e]; [|by destruct Hne].
    destruct (quotes s !! id) as [q|] eqn:Hlk.
    + rewrite (DeleteQuote_found _ _ _ Hlk). cbn [fst].
      eexists. split; [reflexivity|]. right. split; [done|]. eauto.
    + rewrite (DeleteQuote_missing _ _ Hlk) in Hne. by destruct Hne.
Qed.

(** X22: over the in-memory store no handler panics as long as
    [rand.Intn n] answers within [0, n) for positive [n]: every request
    gets a response. *)
Theorem handlers_never_panic
  (ctx : Context) (req : Handler.Request) (s : Storage) (rnd : nat → Z → Z) :
  (∀ n, 0 < n → 0 ≤ rnd 0%nat n < n) →
  ∃ resp, (serve_mem ctx req (s, rnd)).1 = Ret resp.
Proof.
  intros HI. destruct req as [[r|eof]| | |author|vars].
  - unfold Handler.handle, Handler.NewAddQuoteHandler.
    destruct (String.eqb (TrimSpace (Handler.AddQuoteRequest_Text r)) "");
      destruct (String.eqb (TrimSpace (Handler.AddQuoteRequest_Author r)) "");
      try (eexists; reflexivity).
    destruct ctx; eexists; reflexivity.
  - destruct eof; eexists; reflexivity.
  - unfold Handler.handle, Handler.NewGetAllQuotesHandler.
    destruct ctx; eexists; reflexivity.
  - rewrite mem_random_handler. cbn [fst].
    destruct (GetRandomQuote ctx (rnd 0%nat) s) as [[q [e|]]|] eqn:Hg;
      try (eexists; reflexivity).
    exfalso. revert Hg. by apply random_never_panics_aux.
  - unfold Handler.handle, Handler.NewGetQuotesByAuthorHandler.
    destruct (String.eqb (TrimSpace author) ""); [eexists; reflexivity|].
    cbn [Handler.qsGetQuotesByAuthor Handler.memorystorage_QuoteStore fst snd].
    destruct ctx; [rewrite GetQuotesByAuthor_filter|]; eexists; reflexivity.
  - unfold Handler.handle, Handler.NewDeleteQuoteHandler.
    destruct (vars !! "id") as [idStr|]; [|eexists; reflexivity].
    destruct (ParseInt idStr) as [id|]; [|eexists; reflexivity].
    cbn [Handler.qsDeleteQuote Handler.memorystorage_QuoteStore fst snd].
    destruct (DeleteQuote ctx id s) as [[e|] s']; cbn [fst];
      [destruct (Handler.errorsIsNotFound e)|]; eexists; reflexivity.
Qed.

End HandlerMem.

(** ** The handlers on sample requests *)

Lemma bad_request_skips_store_witness :
  let req :=
    Handler.ReqAddQuote
      (Handler.Decoded (Handler.mkAddQuoteRequest " " "Bruce Lee")) in
  (Handler.reachesStore sample_TrimSpace sample_ParseInt req = false →
   ∃ resp, sample_serve Live req (New, sample_rnd) = (Ret resp, (New, sample_rnd))
           ∧ Handler.statusCode resp = 400
           ∧ Handler.payloadStatus (Handler.payload resp) = "error")
  ∧ (Handler.reachesStore sample_TrimSpace sample_ParseInt req = true →
     ∀ resp st', sample_serve Live req (New, sample_rnd) = (Ret resp, st') →
                 Handler.statusCode resp ≠ 400).
Proof.
  exact (bad_request_skips_store Handler.errorsIsNotFound sample_TrimSpace
           sample_ParseInt Live
           (Handler.ReqAddQuote
              (Handler.Decoded (Handler.mkAddQuoteRequest " " "Bruce Lee")))
           (New, sample_rnd)).
Defined.

Lemma add_validation_fields_witness :
  sample_serve Live
    (Handler.ReqAddQuote (Handler.Decoded (Handler.mkAddQuoteRequest " " " ")))
    (New, sample_rnd)
  = (Ret {| Handler.statusCode := 400;
            Handler.contentType := "application/json";
            Handler.payload :=
              Handler.ErrorPayload
                {| Handler.ErrorResponse_Status := "error";
                   Handler.ErrorResponse_Error := "Invalid request.";
                   Handler.ErrorResponse_Fields :=
                     Some (["text cannot be empty"]
                           ++ ["author cannot be empty"]) |} |},
     (New, sample_rnd)).
Proof.
  apply (add_validation_fields Handler.errorsIsNotFound sample_TrimSpace
           sample_ParseInt Live (Handler.mkAddQuoteRequest " " " ")
           (New, sample_rnd)).
  reflexivity.
Defined.

Lemma response_status_coherent_witness :
  let resp :=
    Handler.sendJSONResponse 200
      (Handler.DataPayload
         (Handler.mkSuccessDataResponse "success" (Handler.DataQuotes (Some [])))) in
  Handler.contentType resp = "application/json"
  ∧ ((Handler.statusCode resp = 200 ∨ Handler.statusCode resp = 201)
     ∧ Handler.payloadStatus (Handler.payload resp) = "success"
     ∨ (Handler.statusCode resp = 400 ∨ Handler.statusCode resp = 404
        ∨ Handler.statusCode resp = 500)
       ∧ Handler.payloadStatus (Handler.payload resp) = "error")
  ∧ (Handler.statusCode resp = 201 →
     ∃ body, Handler.ReqGetAllQuotes = Handler.ReqAddQuote body).
Proof.
  apply (response_status_coherent Handler.errorsIsNotFound sample_TrimSpace
           sample_ParseInt Live Handler.ReqGetAllQuotes
           (New, sample_rnd) (New, sample_rnd)).
  reflexivity.
Defined.

Lemma not_found_only_from_random_and_delete_witness :
  ((Handler.ReqGetRandomQuote = Handler.ReqGetRandomQuote
    ∧ ∃ q err,
        Handler.qsGetRandomQuote Live (New, sample_rnd)
        = (Ret (q, Some err), (New, sample_rnd))
        ∧ Handler.errorsIsNotFound err = true)
   ∨ (∃ vars idStr id err,
        Handler.ReqGetRandomQuote = Handler.ReqDeleteQuote vars
        ∧ vars !! "id" = Some idStr ∧ sample_ParseInt idStr = Some id
        ∧ Handler.qsDeleteQuote Live id (New, sample_rnd)
          = (Ret (Some err), (New, sample_rnd))
        ∧ Handler.errorsIsNotFound err = true))
  ∧ sample_serve (Done Canceled) Handler.ReqGetAllQuotes (New, sample_rnd)
    = (Ret (Handler.sendErrorResponse 500 "Failed to retrieve quotes." None),
       (New, sample_rnd))
  ∧ sample_serve (Done Canceled)
      (Handler.ReqAddQuote
         (Handler.Decoded (Handler.mkAddQuoteRequest "Be water." "Bruce Lee")))
      (New, sample_rnd)
    = (Ret (Handler.sendErrorResponse 500 "Failed to add quote." None),
       (New, sample_rnd))
  ∧ sample_serve (Done Canceled) (Handler.ReqGetQuotesByAuthor "Bruce Lee")
      (New, sample_rnd)
    = (Ret (Handler.sendErrorResponse 500
              "Failed to retrieve quotes by author." None),
       (New, sample_rnd)).
Proof.
  destruct (not_found_only_from_random_and_delete Handler.errorsIsNotFound
              sample_TrimSpace sample_ParseInt Live (New, sample_rnd))
    as (H404 & _).
  destruct (not_found_only_from_random_and_delete Handler.errorsIsNotFound
              sample_TrimSpace sample_ParseInt (Done Canceled)
              (New, sample_rnd))
    as (_ & Hadd & Hall & Hby & _).
  split; [|split; [|split]].
  - apply (H404 Handler.ReqGetRandomQuote
             (Handler.sendErrorResponse 404 "No quotes found." None)
             (New, sample_rnd)); reflexivity.
  - apply (Hall None (CtxError Canceled) (New, sample_rnd)). reflexivity.
  - apply (Hadd (Handler.mkAddQuoteRequest "Be water." "Bruce Lee") 0
             (CtxError Canceled) (New, sample_rnd));
      [vm_compute; discriminate..|reflexivity].
  - apply (Hby "Bruce Lee" None (CtxError Canceled) (New, sample_rnd));
      [vm_compute; discriminate|reflexivity].
Defined.

Lemma post_then_list_witness :
  let post :=
    sample_serve Live
      (Handler.ReqAddQuote
         (Handler.Decoded (Handler.mkAddQuoteRequest " Be water. " "Bruce Lee")))
      (New, sample_rnd) in
  post.1
  = Ret (Handler.sendJSONResponse 201
           (Handler.AddQuotePayload
              (Handler.mkAddQuoteResponse "success" (nextID New)
                 " Be water. " "Bruce Lee")))
  ∧ (sample_serve Live Handler.ReqGetAllQuotes post.2).1
    = Ret (Handler.sendJSONResponse 200
             (Handler.DataPayload
                (Handler.mkSuccessDataResponse "success"
                   (Handler.DataQuotes
                      (Some (quotesList New
                             ++ [mkQuote (nextID New) " Be water. " "Bruce Lee"]))))))
  ∧ post.2.2 = sample_rnd.
Proof.
  apply (post_then_list sample_TrimSpace sample_ParseInt New sample_rnd
           " Be water. " "Bruce Lee"); vm_compute; discriminate.
Defined.

Lemma delete_handler_on_store_witness :
  let s := (AddQuote Live "Be water." "Bruce Lee" New).2 in
  let del := sample_serve Live (Handler.ReqDeleteQuote sample_vars) (s, sample_rnd) in
  (quotes s !! 1 = None →
   del = (Ret (Handler.sendErrorResponse 404 "Quote not found." None),
          (s, sample_rnd)))
  ∧ (is_Some (quotes s !! 1) →
     del.1
     = Ret (Handler.sendJSONResponse 200
              (Handler.MessagePayload
                 (Handler.mkGenericMessageResponse "success"
                    "Quote deleted successfully.")))
     ∧ quotes del.2.1 !! 1 = None
     ∧ quotesList del.2.1 = filter (fun q => ID q ≠ 1) (quotesList s)
     ∧ (sample_serve Live (Handler.ReqDeleteQuote sample_vars) del.2).1
       = Ret (Handler.sendErrorResponse 404 "Quote not found." None)).
Proof.
  apply (delete_handler_on_store sample_TrimSpace sample_ParseInt
           (AddQuote Live "Be water." "Bruce Lee" New).2 sample_rnd
           sample_vars "1" 1); vm_compute; reflexivity.
Defined.

Lemma random_handler_on_store_witness :
  let s := (AddQuote Live "Be water." "Bruce Lee" New).2 in
  let res := sample_serve Live Handler.ReqGetRandomQuote (s, sample_rnd) in
  let N := Z.of_nat (length (quotesList s)) in
  res.2.1 = s
  ∧ (res.1 = Ret (Handler.sendErrorResponse 404 "No quotes found." None)
     ↔ quotesList s = [])
  ∧ (quotesList s ≠ [] → 0 ≤ sample_rnd 0%nat N < N →
     ∃ q, q ∈ quotesList s
          ∧ res.1
            = Ret (Handler.sendJSONResponse 200
                     (Handler.DataPayload
                        (Handler.mkSuccessDataResponse "success"
                           (Handler.DataQuote q))))).
Proof.
  exact (random_handler_on_store sample_TrimSpace sample_ParseInt
           (AddQuote Live "Be water." "Bruce Lee" New).2 sample_rnd).
Defined.

Lemma cancelled_request_answered_500_witness :
  ∃ resp,
    (sample_serve (Done DeadlineExceeded) Handler.ReqGetRandomQuote
       (New, sample_rnd)).1 = Ret resp
    ∧ Handler.statusCode resp = 500
    ∧ (sample_serve (Done DeadlineExceeded) Handler.ReqGetRandomQuote
         (New, sample_rnd)).2.1 = New.
Proof.
  apply (cancelled_request_answered_500 sample_TrimSpace sample_ParseInt
           DeadlineExceeded Handler.ReqGetRandomQuote New sample_rnd).
  reflexivity.
Defined.

Lemma by_author_handler_on_store_witness :
  sample_serve Live (Handler.ReqGetQuotesByAuthor " Socrates")
    (final trace_bruce New, sample_rnd)
  = (Ret (Handler.sendJSONResponse 200
            (Handler.DataPayload
               (Handler.mkSuccessDataResponse "success"
                  (Handler.DataQuotes
                     (Some (filter (fun q => Author q = " Socrates")
                              (quotesList (final trace_bruce New)))))))),
     (final trace_bruce New, sample_rnd)).
Proof.
  apply (by_author_handler_on_store sample_TrimSpace sample_ParseInt
           (final trace_bruce New) sample_rnd " Socrates").
  vm_compute. discriminate.
Defined.

Lemma store_changes_only_on_success_witness :
  ∃ resp,
    (sample_serve Live
       (Handler.ReqAddQuote
          (Handler.Decoded (Handler.mkAddQuoteRequest "Be water." "Bruce Lee")))
       (New, sample_rnd)).1 = Ret resp
    ∧ ((Handler.statusCode resp = 201
        ∧ ∃ body,
            Handler.ReqAddQuote
              (Handler.Decoded (Handler.mkAddQuoteRequest "Be water." "Bruce Lee"))
            = Handler.ReqAddQuote body)
       ∨ (Handler.statusCode resp = 200
          ∧ ∃ vars,
              Handler.ReqAddQuote
                (Handler.Decoded (Handler.mkAddQuoteRequest "Be water." "Bruce Lee"))
              = Handler.ReqDeleteQuote vars)).
Proof.
  apply (store_changes_only_on_success sample_TrimSpace sample_ParseInt Live
           (Handler.ReqAddQuote
              (Handler.Decoded (Handler.mkAddQuoteRequest "Be water." "Bruce Lee")))
           New sample_rnd).
  intros Heq. apply (f_equal nextID) in Heq. vm_compute in Heq. discriminate.
Defined.

Lemma handlers_never_panic_witness :
  ∃ resp,
    (sample_serve Live Handler.ReqGetRandomQuote
       (final trace_bruce New, sample_rnd)).1 = Ret resp.
Proof.
  apply (handlers_never_panic sample_TrimSpace sample_ParseInt Live
           Handler.ReqGetRandomQuote (final trace_bruce New) sample_rnd).
  intros n Hn. unfold sample_rnd. lia.
Defined.

Example by_author_untrimmed :
  (sample_serve Live (Handler.ReqGetQuotesByAuthor " Socrates")
     (final trace_bruce New, sample_rnd)).1
  = Ret (Handler.sendJSONResponse 200
           (Handler.DataPayload
              (Handler.mkSuccessDataResponse "success"
                 (Handler.DataQuotes (Some []))))).
Proof. vm_compute. reflexivity. Qed.

(** * Loading the configuration *)

Section ConfigFacts.

Variable Getenv : string → string.
Variable StatIsNotExist : string → bool.
Variable ReadFile : string → option (list Byte.byte).
Variable Unmarshal : list Byte.byte → option Config.jsonConfig.
Variable ParseDuration : string → option Z.

Abbreviation load :=
  (Config.MustLoad Getenv StatIsNotExist ReadFile Unmarshal ParseDuration).

(** What [MustLoad] does once the file has been read and decoded. *)
Lemma MustLoad_values (fileBytes : list Byte.byte) (j : Config.jsonConfig) :
  Getenv "CONFIG_PATH" ≠ "" →
  StatIsNotExist (Getenv "CONFIG_PATH") = false →
  ReadFile (Getenv "CONFIG_PATH") = Some fileBytes →
  Unmarshal fileBytes = Some j →
  let ft := Config.jsonHTTPServer_Timeout (Config.jsonConfig_HTTPServer j) in
  let et := Getenv "HTTP_SERVER_TIMEOUT" in
  load
  = match (if String.eqb ft "" then Some Config.defaulTimeout
           else ParseDuration ft) with
    | None => Config.Exit (Config.FatalFileTimeout ft)
    | Some d1 =>
        match (if String.eqb et "" then Some d1 else ParseDuration et) with
        | None => Config.Exit (Config.FatalEnvTimeout et)
        | Some d2 =>
            Config.Return
              {| Config.Config_Env :=
                   Config.firstSet [Getenv "ENV"; Config.jsonConfig_Env j]
                     Config.defaultEnv;
                 Config.Config_Version :=
                   Config.firstSet [Config.jsonConfig_Version j]
                     Config.defaultVersion;
                 Config.Config_HTTPServer :=
                   {| Config.HTTPServer_Address :=
                        Config.firstSet
                          [Getenv "HTTP_SERVER_ADDRESS"; Getenv "VERSION";
                           Config.jsonHTTPServer_Address
                             (Config.jsonConfig_HTTPServer j)]
                          Config.defaultAddress;
                      Config.HTTPServer_Timeout := d2;
                      Config.HTTPServer_User := "";
                      Config.HTTPServer_Password := "" |} |}
        end
    end.
Proof.
  intros Hp Hs Hr Hu ft et. unfold Config.MustLoad.
  apply String.eqb_neq in Hp. rewrite Hp, Hs, Hr, Hu. fold ft et.
  unfold Config.firstSet.
  destruct (String.eqb ft "");
    [|destruct (ParseDuration ft) as [d1|]; [|done]];
    (destruct (String.eqb et "");
       [|destruct (ParseDuration et) as [d2|]; [|done]]);
    cbn [negb];
    destruct (String.eqb (Config.jsonConfig_Env j) "");
    destruct (String.eqb (Config.jsonConfig_Version j) "");
    destruct (String.eqb
                (Config.jsonHTTPServer_Address (Config.jsonConfig_HTTPServer j))
                "");
    destruct (String.eqb (Getenv "ENV") "");
    destruct (String.eqb (Getenv "VERSION") "");
    destruct (String.eqb (Getenv "HTTP_SERVER_ADDRESS") "");
    reflexivity.
Qed.

Lemma load_return_inv (cfg : Config.Config) :
  load = Config.Return cfg →
  Getenv "CONFIG_PATH" ≠ ""
  ∧ StatIsNotExist (Getenv "CONFIG_PATH") = false
  ∧ ∃ fileBytes j,
      ReadFile (Getenv "CONFIG_PATH") = Some fileBytes
      ∧ Unmarshal fileBytes = Some j.
Proof.
  unfold Config.MustLoad. intros Hl.
  destruct (String.eqb_spec (Getenv "CONFIG_PATH") ""); [discriminate|].
  destruct (StatIsNotExist (Getenv "CONFIG_PATH")); [discriminate|].
  destruct (ReadFile (Getenv "CONFIG_PATH")) as [fileBytes|]; [|discriminate].
  destruct (Unmarshal fileBytes) as [j|] eqn:Hu; [|discriminate].
  split; [done|]. split; [done|]. by exists fileBytes, j.
Qed.

Lemma load_values (cfg : Config.Config) (fileBytes : list Byte.byte)
    (j : Config.jsonConfig) :
  load = Config.Return cfg →
  ReadFile (Getenv "CONFIG_PATH") = Some fileBytes →
  Unmarshal fileBytes = Some j →
  let ft := Config.jsonHTTPServer_Timeout (Config.jsonConfig_HTTPServer j) in
  let et := Getenv "HTTP_SERVER_TIMEOUT" in
  ∃ d1 d2,
    (if String.eqb ft "" then Some Config.defaulTimeout else ParseDuration ft)
    = Some d1
    ∧ (if String.eqb et "" then Some d1 else ParseDuration et) = Some d2
    ∧ cfg
      = {| Config.Config_Env :=
             Config.firstSet [Getenv "ENV"; Config.jsonConfig_Env j]
               Config.defaultEnv;
           Config.Config_Version :=
             Config.firstSet [Config.jsonConfig_Version j]
               Config.defaultVersion;
           Config.Config_HTTPServer :=
             {| Config.HTTPServer_Address :=
                  Config.firstSet
                    [Getenv "HTTP_SERVER_ADDRESS"; Getenv "VERSION";
                     Config.jsonHTTPServer_Address
                       (Config.jsonConfig_HTTPServer j)]
                    Config.defaultAddress;
                Config.HTTPServer_Timeout := d2;
                Config.HTTPServer_User := "";
                Config.HTTPServer_Password := "" |} |}.
Proof.
  intros Hl Hr Hu ft et.
  destruct (load_return_inv cfg Hl) as (Hp & Hs & _).
  rewrite (MustLoad_values fileBytes j Hp Hs Hr Hu) in Hl. fold ft et in Hl.
  destruct (if String.eqb ft "" then Some Config.defaulTimeout
            else ParseDuration ft) as [d1|] eqn:H1; [|discriminate].
  destruct (if String.eqb et "" then Some d1 else ParseDuration et)
    as [d2|] eqn:H2; [|discriminate].
  exists d1, d2. injection Hl as <-. done.
Qed.

(** X23: in a configuration that loads, the server address is the first
    of these that is not empty: the environment variable
    [HTTP_SERVER_ADDRESS], the environment variable [VERSION], the
    address of the file, and otherwise ["localhost:8080"]. *)
Theorem address_precedence (cfg : Config.Config)
    (fileBytes : list Byte.byte) (j : Config.jsonConfig) :
  load = Config.Return cfg →
  ReadFile (Getenv "CONFIG_PATH") = Some fileBytes →
  Unmarshal fileBytes = Some j →
  Config.HTTPServer_Address (Config.Config_HTTPServer cfg)
  = Config.firstSet
      [Getenv "HTTP_SERVER_ADDRESS"; Getenv "VERSION";
       Config.jsonHTTPServer_Address (Config.jsonConfig_HTTPServer j)]
      "localhost:8080".
Proof.
  intros Hl Hr Hu.
  destruct (load_values cfg fileBytes j Hl Hr Hu) as (d1 & d2 & _ & _ & ->).
  done.
Qed.

(** X24: in a configuration that loads, the version is the one of the
    file, or ["0.0.0"] when the file gives none; nothing in the
    environment has a say in it, the variable [VERSION] included. *)
Theorem version_ignores_environment (cfg : Config.Config)
    (fileBytes : list Byte.byte) (j : Config.jsonConfig) :
  load = Config.Return cfg →
  ReadFile (Getenv "CONFIG_PATH") = Some fileBytes →
  Unmarshal fileBytes = Some j →
  Config.Config_Version cfg
  = (if String.eqb (Config.jsonConfig_Version j) "" then "0.0.0"
     else Config.jsonConfig_Version j).
Proof.
  intros Hl Hr Hu.
  destruct (load_values cfg fileBytes j Hl Hr Hu) as (d1 & d2 & _ & _ & ->).
  done.
Qed.

(** X25: in a configuration that loads, the environment name is the
    variable [ENV], else the one of the file, else ["local"]; the timeout
    is the parsed variable [HTTP_SERVER_TIMEOUT], else the parsed timeout
    of the file, else four seconds; user and password are empty. *)
Theorem env_and_timeout_precedence (cfg : Config.Config)
    (fileBytes : list Byte.byte) (j : Config.jsonConfig) :
  load = Config.Return cfg →
  ReadFile (Getenv "CONFIG_PATH") = Some fileBytes →
  Unmarshal fileBytes = Some j →
  let ft := Config.jsonHTTPServer_Timeout (Config.jsonConfig_HTTPServer j) in
  let et := Getenv "HTTP_SERVER_TIMEOUT" in
  let timeout := Config.HTTPServer_Timeout (Config.Config_HTTPServer cfg) in
  Config.Config_Env cfg
  = Config.firstSet [Getenv "ENV"; Config.jsonConfig_Env j] "local"
  ∧ (et ≠ "" → ParseDuration et = Some timeout)
  ∧ (et = "" → ft ≠ "" → ParseDuration ft = Some timeout)
  ∧ (et = "" → ft = "" → timeout = 4 * Config.Second)
  ∧ Config.HTTPServer_User (Config.Config_HTTPServer cfg) = ""
  ∧ Config.HTTPServer_Password (Config.Config_HTTPServer cfg) = "".
Proof.
  intros Hl Hr Hu ft et timeout. subst timeout.
  destruct (load_values cfg fileBytes j Hl Hr Hu) as (d1 & d2 & H1 & H2 & ->).
  fold ft in H1. fold et in H2. cbn.
  split; [done|].
  destruct (String.eqb_spec et ""); destruct (String.eqb_spec ft "");
    repeat split; try done; intros; try congruence.
  injection H1 as <-. by injection H2 as <-.
Qed.

(** X26: [MustLoad] returns a configuration exactly when [CONFIG_PATH] is
    set, the file is not reported missing, it is read and decoded, and
    each timeout that is given, in the file and in
    [HTTP_SERVER_TIMEOUT], parses; in every other case the process
    exits. *)
Theorem load_returns_iff :
  (∃ cfg, load = Config.Return cfg)
  ↔ Getenv "CONFIG_PATH" ≠ ""
    ∧ StatIsNotExist (Getenv "CONFIG_PATH") = false
    ∧ ∃ fileBytes j,
        ReadFile (Getenv "CONFIG_PATH") = Some fileBytes
        ∧ Unmarshal fileBytes = Some j
        ∧ (Config.jsonHTTPServer_Timeout (Config.jsonConfig_HTTPServer j) = ""
           ∨ is_Some (ParseDuration
                        (Config.jsonHTTPServer_Timeout
                           (Config.jsonConfig_HTTPServer j))))
        ∧ (Getenv "HTTP_SERVER_TIMEOUT" = ""
           ∨ is_Some (ParseDuration (Getenv "HTTP_SERVER_TIMEOUT"))).
Proof.
  split.
  - intros [cfg Hl].
    destruct (load_return_inv cfg Hl) as (Hp & Hs & fileBytes & j & Hr & Hu).
    split; [done|]. split; [done|]. exists fileBytes, j.
    split; [done|]. split; [done|].
    destruct (load_values cfg fileBytes j Hl Hr Hu) as (d1 & d2 & H1 & H2 & _).
    split.
    + destruct (String.eqb_spec
                  (Config.jsonHTTPServer_Timeout (Config.jsonConfig_HTTPServer j))
                  ""); [by left|right; by exists d1].
    + destruct (String.eqb_spec (Getenv "HTTP_SERVER_TIMEOUT") "");
        [by left|right; by exists d2].
  - intros (Hp & Hs & fileBytes & j & Hr & Hu & Hft & Het).
    rewrite (MustLoad_values fileBytes j Hp Hs Hr Hu).
    destruct (String.eqb_spec
                (Config.jsonHTTPServer_Timeout (Config.jsonConfig_HTTPServer j))
                "") as [|Hne].
    + destruct (String.eqb_spec (Getenv "HTTP_SERVER_TIMEOUT") "") as [|Hne'];
        [eexists; reflexivity|].
      destruct Het as [|[d2 ->]]; [done|eexists; reflexivity].
    + destruct Hft as [|[d1 ->]]; [done|].
      destruct (String.eqb_spec (Getenv "HTTP_SERVER_TIMEOUT") "") as [|Hne'];
        [eexists; reflexivity|].
      destruct Het as [|[d2 ->]]; [done|eexists; reflexivity].
Qed.

(** X27: a timeout in the file that does not parse ends the process even
    when [HTTP_SERVER_TIMEOUT] is set and would have replaced it. *)
Theorem bad_file_timeout_is_fatal
    (fileBytes : list Byte.byte) (j : Config.jsonConfig) :
  Getenv "CONFIG_PATH" ≠ "" →
  StatIsNotExist (Getenv "CONFIG_PATH") = false →
  ReadFile (Getenv "CONFIG_PATH") = Some fileBytes →
  Unmarshal fileBytes = Some j →
  Config.jsonHTTPServer_Timeout (Config.jsonConfig_HTTPServer j) ≠ "" →
  ParseDuration (Config.jsonHTTPServer_Timeout (Config.jsonConfig_HTTPServer j))
  = None →
  load
  = Config.Exit
      (Config.FatalFileTimeout
         (Config.jsonHTTPServer_Timeout (Config.jsonConfig_HTTPServer j))).
Proof.
  intros Hp Hs Hr Hu Hne Hpd.
  rewrite (MustLoad_values fileBytes j Hp Hs Hr Hu).
  apply String.eqb_neq in Hne. by rewrite Hne, Hpd.
Qed.

End ConfigFacts.

Example sample_load_value : sample_load = Config.Return sample_Config.
Proof. vm_compute. reflexivity. Qed.

Lemma address_precedence_witness :
  Config.HTTPServer_Address (Config.Config_HTTPServer sample_Config)
  = Config.firstSet
      [sample_Getenv "HTTP_SERVER_ADDRESS"; sample_Getenv "VERSION";
       Config.jsonHTTPServer_Address
         (Config.jsonConfig_HTTPServer sample_jsonConfig)]
      "localhost:8080".
Proof.
  apply (address_precedence sample_Getenv (fun _ => false) sample_ReadFile
           sample_Unmarshal sample_ParseDuration sample_Config []
           sample_jsonConfig); vm_compute; reflexivity.
Defined.

Lemma version_ignores_environment_witness :
  Config.Config_Version sample_Config
  = (if String.eqb (Config.jsonConfig_Version sample_jsonConfig) "" then "0.0.0"
     else Config.jsonConfig_Version sample_jsonConfig).
Proof.
  apply (version_ignores_environment sample_Getenv (fun _ => false)
           sample_ReadFile sample_Unmarshal sample_ParseDuration sample_Config
           [] sample_jsonConfig); vm_compute; reflexivity.
Defined.

Lemma env_and_timeout_precedence_witness :
  let ft :=
    Config.jsonHTTPServer_Timeout
      (Config.jsonConfig_HTTPServer sample_jsonConfig) in
  let et := sample_Getenv "HTTP_SERVER_TIMEOUT" in
  let timeout :=
    Config.HTTPServer_Timeout (Config.Config_HTTPServer sample_Config) in
  Config.Config_Env sample_Config
  = Config.firstSet
      [sample_Getenv "ENV"; Config.jsonConfig_Env sample_jsonConfig] "local"
  ∧ (et ≠ "" → sample_ParseDuration et = Some timeout)
  ∧ (et = "" → ft ≠ "" → sample_ParseDuration ft = Some timeout)
  ∧ (et = "" → ft = "" → timeout = 4 * Config.Second)
  ∧ Config.HTTPServer_User (Config.Config_HTTPServer sample_Config) = ""
  ∧ Config.HTTPServer_Password (Config.Config_HTTPServer sample_Config) = "".
Proof.
  apply (env_and_timeout_precedence sample_Getenv (fun _ => false)
           sample_ReadFile sample_Unmarshal sample_ParseDuration sample_Config
           [] sample_jsonConfig); vm_compute; reflexivity.
Defined.

Lemma load_returns_iff_witness :
  (∃ cfg, sample_load = Config.Return cfg)
  ↔ sample_Getenv "CONFIG_PATH" ≠ ""
    ∧ (fun _ : string => false) (sample_Getenv "CONFIG_PATH") = false
    ∧ ∃ fileBytes j,
        sample_ReadFile (sample_Getenv "CONFIG_PATH") = Some fileBytes
        ∧ sample_Unmarshal fileBytes = Some j
        ∧ (Config.jsonHTTPServer_Timeout (Config.jsonConfig_HTTPServer j) = ""
           ∨ is_Some (sample_ParseDuration
                        (Config.jsonHTTPServer_Timeout
                           (Config.jsonConfig_HTTPServer j))))
        ∧ (sample_Getenv "HTTP_SERVER_TIMEOUT" = ""
           ∨ is_Some (sample_ParseDuration (sample_Getenv "HTTP_SERVER_TIMEOUT"))).
Proof.
  exact (load_returns_iff sample_Getenv (fun _ => false) sample_ReadFile
           sample_Unmarshal sample_ParseDuration).
Defined.

Lemma bad_file_timeout_is_fatal_witness :
  Config.MustLoad
    (fun name =>
       if String.eqb name "HTTP_SERVER_TIMEOUT" then "5s" else sample_Getenv name)
    (fun _ => false) sample_ReadFile
    (fun _ =>
       Some (Config.mkJsonConfig "" "" (Config.mkJsonHTTPServer "" "soon")))
    sample_ParseDuration
  = Config.Exit (Config.FatalFileTimeout "soon").
Proof.
  apply (bad_file_timeout_is_fatal
           (fun name =>
              if String.eqb name "HTTP_SERVER_TIMEOUT" then "5s"
              else sample_Getenv name)
           (fun _ => false) sample_ReadFile
           (fun _ =>
              Some (Config.mkJsonConfig "" "" (Config.mkJsonHTTPServer "" "soon")))
           sample_ParseDuration []
           (Config.mkJsonConfig "" "" (Config.mkJsonHTTPServer "" "soon")));
    vm_compute; try reflexivity; discriminate.
Defined.

Lemma logged_status_is_sent_status_witness :
  let actions :=
    [ Logger.DoFlush unit;
      Logger.DoWrite unit [] 12 None;
      Logger.DoWriteHeader unit 500 ] in
  let wri :=
    (Logger.serve unit true actions Logger.newResponseWriterInterceptor).2 in
  Logger.Status wri = default 200 (Logger.settled unit actions)
  ∧ (∀ code,
       Logger.InnerWriteHeader code
         ∈ (Logger.serve unit true actions
              Logger.newResponseWriterInterceptor).1 →
       Logger.Status wri = code).
Proof.
  exact (logged_status_is_sent_status unit true
           [ Logger.DoFlush unit;
             Logger.DoWrite unit [] 12 None;
             Logger.DoWriteHeader unit 500 ]).
Defined.
